(** * Batch token-transfer executor: model and properties

    Shallow embedding of [src/lib/solana.ts] (relay client, transaction
    builder, submission with retry, batch dispatcher) and of the amount
    normalizer and the concurrency clamp of [src/App.tsx].

    Conventions.  A JavaScript string is a sequence of code units; the
    model keeps the code units below 256, so a string is a Rocq [string]
    and its characters are [ascii].  A [bigint] is a [Z].  A JavaScript
    [number] that the program only uses as a small integer (attempt
    counter, HTTP status, milliseconds, pool size) is a [nat] or a [Z].
    A thrown [Error] is represented by its message.

    An [async] function is a tree of effects ([Prog]): every [await] of
    the network or of a timer, and every access to a mutable object, is
    a node.  [run] executes one such program alone; the pool of
    [PLimit] interleaves several, in the order a schedule gives.  The
    relay is a parameter of the world: statements quantify over what it
    answers. *)

From Stdlib Require Import ZArith List String Ascii DecimalString.
From stdpp Require Import base strings list gmap.
Import ListNotations.

Local Open Scope string_scope.
Local Open Scope list_scope.

(** ** Completions *)

(** The result of evaluating a piece of JavaScript: a value, or a
    thrown error (its [message]). *)
Inductive Completion (A : Type) : Type :=
| Normal (a : A)
| Throws (msg : string).
Arguments Normal {A} a.
Arguments Throws {A} msg.

(** ** JavaScript string primitives used by the program *)

Module JsString.

Definition chars (s : string) : list ascii := list_ascii_of_string s.

(** White space and line terminators removed by [String.prototype.trim],
    restricted to code units below 256: TAB, LF, VT, FF, CR, SP, NBSP. *)
Definition isSpace (c : ascii) : bool :=
  match nat_of_ascii c with
  | 9 | 10 | 11 | 12 | 13 | 32 | 160 => true
  | _ => false
  end.

Fixpoint trimStart (s : list ascii) : list ascii :=
  match s with
  | [] => []
  | c :: rest => if isSpace c then trimStart rest else s
  end.

Definition trimEnd (s : list ascii) : list ascii := rev (trimStart (rev s)).

Definition trim (s : list ascii) : list ascii := trimEnd (trimStart s).

(** [s.split(sep)] for a one-character separator: never the empty
    list, [""] splits into [[""]]. *)
Fixpoint split (sep : ascii) (s : list ascii) : list (list ascii) :=
  match s with
  | [] => [[]]
  | c :: rest =>
      if Ascii.eqb c sep then [] :: split sep rest
      else match split sep rest with
           | piece :: pieces => (c :: piece) :: pieces
           | [] => [[c]]
           end
  end.

(** The class [\d] of a regular expression without the [u] flag. *)
Definition isDigit (c : ascii) : bool :=
  ((48 <=? nat_of_ascii c) && (nat_of_ascii c <=? 57))%nat.

Definition digitValue (c : ascii) : Z := Z.of_nat (nat_of_ascii c) - 48.

(** [/^\d*$/.test(s)] and [/^\d+$/.test(s)]. *)
Definition allDigits (s : list ascii) : bool := forallb isDigit s.

Definition someDigits (s : list ascii) : bool :=
  match s with
  | [] => false
  | _ => allDigits s
  end.

(** Value of a string of decimal digits, most significant first. *)
Definition decimalValue (s : list ascii) : Z :=
  fold_left (fun acc c => acc * 10 + digitValue c)%Z s 0%Z.

(** [BigInt(s)] on decimal literals, the only strings that reach it
    in this program; the empty string converts to [0n]. *)
Definition BigInt (s : list ascii) : Completion Z :=
  if allDigits s then Normal (decimalValue s)
  else Throws "SyntaxError: Cannot convert to a BigInt".

(** [s.toLowerCase()] on ASCII letters. *)
Definition toLower (c : ascii) : ascii :=
  let n := nat_of_ascii c in
  if ((65 <=? n) && (n <=? 90))%nat then ascii_of_nat (n + 32) else c.

Fixpoint startsWith (p s : list ascii) : bool :=
  match p, s with
  | [], _ => true
  | _ :: _, [] => false
  | a :: p', b :: s' => Ascii.eqb a b && startsWith p' s'
  end.

Fixpoint includes (p s : list ascii) : bool :=
  startsWith p s ||
  match s with
  | [] => false
  | _ :: s' => includes p s'
  end.

(** A case-insensitive search for a literal, as [/literal/i.test(s)]
    does for a literal of ASCII letters. *)
Definition includesIgnoreCase (p : string) (s : string) : bool :=
  includes (map toLower (chars p)) (map toLower (chars s)).

(** Template-literal rendering of an integer. *)
Definition ofZ (z : Z) : string := NilZero.string_of_int (Z.to_int z).

End JsString.

(** ** Amount normalizer ([toRawAmount], src/App.tsx) *)

Module Amount.
Import JsString.

Definition toRawAmount (amount : string) (decimals : nat) : Completion Z :=
  let normalized := trim (chars amount) in
  match normalized with
  | [] => Throws "Amount is required"
  | _ =>
      let parts := split "."%char normalized in
      let whole := hd [] parts in
      let frac := nth 1 parts [] in
      let safeWhole := match whole with [] => ["0"%char] | _ => whole end in
      if negb (someDigits safeWhole) || negb (allDigits frac)
      then Throws "Amount must be numeric"
      else
        let padded := take decimals (frac ++ replicate decimals "0"%char) in
        match BigInt safeWhole with
        | Throws e => Throws e
        | Normal w =>
            match BigInt (match padded with [] => ["0"%char] | _ => padded end) with
            | Throws e => Throws e
            | Normal f => Normal (w * 10 ^ Z.of_nat decimals + f)%Z
            end
        end
  end.

End Amount.

(** ** Data model ([src/lib/solana.ts]) *)

(** A [PublicKey] is handled through its base58 rendering. *)
Definition PublicKey : Type := string.

Record Keypair : Type := { publicKey : PublicKey; secretKey : string }.

Record WalletRef : Type := { name : string; keypair : Keypair }.

Record TransferPlan : Type := {
  mint : PublicKey;
  destination : PublicKey;
  amountRaw : Z;
  priorityFeeMicrolamports : option Z
}.

Record WalletSendResult : Type := {
  wallet : string;
  signature : option string;
  error : option string
}.

Record BlockhashInfo : Type := { blockhash : string; lastValidBlockHeight : Z }.

(** The instructions the builder emits, with the arguments the source
    passes to the library constructors. *)
Inductive Instruction : Type :=
| SetComputeUnitPrice (microLamports : Z)
| SetComputeUnitLimit (units : Z)
| CreateAssociatedTokenAccountIdempotent (payer associatedToken owner mintKey : PublicKey)
| Transfer (source dest owner : PublicKey) (amount : Z).

(** What a signature covers: the compiled message of the transaction. *)
Record Message : Type := {
  msgFeePayer : option PublicKey;
  msgInstructions : list Instruction;
  msgRecentBlockhash : option string
}.

(** Signatures are symbolic: the key that signed and the message signed. *)
Record SignaturePubkeyPair : Type := {
  sigPublicKey : PublicKey;
  sigSecretKey : string;
  sigMessage : Message
}.

(** The fields of a web3.js [Transaction] object that the program touches. *)
Record Transaction : Type := {
  feePayer : option PublicKey;
  instructions : list Instruction;
  recentBlockhash : option string;
  txLastValidBlockHeight : option Z;
  signatures : list SignaturePubkeyPair
}.

(** [new Transaction()] *)
Definition emptyTransaction : Transaction :=
  {| feePayer := None; instructions := []; recentBlockhash := None;
     txLastValidBlockHeight := None; signatures := [] |}.

Module Tx.

(** [tx.add(...items)] *)
Definition add (items : list Instruction) (t : Transaction) : Transaction :=
  {| feePayer := feePayer t; instructions := instructions t ++ items;
     recentBlockhash := recentBlockhash t;
     txLastValidBlockHeight := txLastValidBlockHeight t;
     signatures := signatures t |}.

(** [tx.feePayer = key] *)
Definition setFeePayer (key : PublicKey) (t : Transaction) : Transaction :=
  {| feePayer := Some key; instructions := instructions t;
     recentBlockhash := recentBlockhash t;
     txLastValidBlockHeight := txLastValidBlockHeight t;
     signatures := signatures t |}.

(** [tx.recentBlockhash = hash] *)
Definition setRecentBlockhash (hash : string) (t : Transaction) : Transaction :=
  {| feePayer := feePayer t; instructions := instructions t;
     recentBlockhash := Some hash;
     txLastValidBlockHeight := txLastValidBlockHeight t;
     signatures := signatures t |}.

(** [tx.lastValidBlockHeight = height] *)
Definition setLastValidBlockHeight (height : Z) (t : Transaction) : Transaction :=
  {| feePayer := feePayer t; instructions := instructions t;
     recentBlockhash := recentBlockhash t;
     txLastValidBlockHeight := Some height;
     signatures := signatures t |}.

Definition compileMessage (t : Transaction) : Message :=
  {| msgFeePayer := feePayer t; msgInstructions := instructions t;
     msgRecentBlockhash := recentBlockhash t |}.

(** [tx.sign(signer)]: the former signatures are dropped and the
    signer signs the message as it is now. *)
Definition sign (signer : Keypair) (t : Transaction) : Transaction :=
  {| feePayer := feePayer t; instructions := instructions t;
     recentBlockhash := recentBlockhash t;
     txLastValidBlockHeight := txLastValidBlockHeight t;
     signatures := [ {| sigPublicKey := publicKey signer;
                        sigSecretKey := secretKey signer;
                        sigMessage := compileMessage t |} ] |}.

End Tx.

(** The token library derives the associated token account of an owner
    for a mint; it throws for an owner that is not a wallet address
    (off the curve).  The derivation itself is not modelled. *)
Class SplToken : Type := {
  getAssociatedTokenAddress : PublicKey -> PublicKey -> Completion PublicKey
}.

(** ** The relay as seen by the client *)

Record Request : Type := { url : string; headers : list (string * string) }.

(** Body of [POST /sendRaw]: the serialized transaction (its content),
    and the hash and height it is bound to. *)
Record SendRawBody : Type := {
  bodyTx : Transaction;
  bodyBlockhash : option string;
  bodyLastValidBlockHeight : option Z
}.

(** What [await fetch(...)] followed by reading the JSON body gives:
    [fetch] or the body parse rejects; or the status is not 2xx, with
    the [error] field of the JSON body when there is one; or the status
    is 2xx, with the payload the source's type annotation declares. *)
Inductive HttpReply (A : Type) : Type :=
| FetchFailed (msg : string)
| NotOk (status : Z) (errorField : option string)
| Ok (payload : A).
Arguments FetchFailed {A} msg.
Arguments NotOk {A} status errorField.
Arguments Ok {A} payload.

(** The relay and the network are arbitrary: the reply to a call may
    depend on the request and on how many calls were made before. *)
Record Relay : Type := {
  blockhashReply : nat -> Request -> HttpReply BlockhashInfo;
  sendRawReply : nat -> Request -> SendRawBody -> HttpReply string;
  balancesReply : nat -> Request -> list string -> HttpReply (option (gmap string Z))
}.

(** What is observable of an execution, in order: the calls of the
    relay with their replies, the waits, the outcomes handed to the
    observer. *)
Inductive Event : Type :=
| EvBlockhash (req : Request) (reply : HttpReply BlockhashInfo)
| EvSendRaw (req : Request) (body : SendRawBody) (reply : HttpReply string)
| EvBalances (req : Request) (pubkeys : list string)
             (reply : HttpReply (option (gmap string Z)))
| EvTimeout (ms : Z)
| EvResult (r : WalletSendResult).

(** The state a batch runs in: the relay, the number of calls it has
    answered, the [Transaction] objects allocated so far (a reference to
    a transaction is its index), the [cachedBh] variable of
    [executeBatch], and the log of what happened. *)
Record World : Type := {
  relay : Relay;
  calls : nat;
  txs : list Transaction;
  cachedBh : option BlockhashInfo;
  trace : list Event
}.

(** ** Programs: asynchronous code as a tree of effects *)

(** The effects of the program, each with the type of what the
    program gets back: the three calls of the relay, [setTimeout], and
    the accesses to [Transaction] objects, to [cachedBh] and to the
    observer [onResult]. *)
Inductive Eff : Type -> Type :=
| HttpGetBlockhash (req : Request) : Eff (HttpReply BlockhashInfo)
| HttpPostSendRaw (req : Request) (body : SendRawBody) : Eff (HttpReply string)
| HttpPostBalances (req : Request) (pubkeys : list string)
    : Eff (HttpReply (option (gmap string Z)))
| SetTimeout (ms : Z) : Eff unit
| NewTransaction : Eff nat
| ReadTx (tx : nat) : Eff Transaction
| UpdateTx (tx : nat) (f : Transaction -> Transaction) : Eff unit
| ReadCachedBh : Eff (option BlockhashInfo)
| WriteCachedBh (info : BlockhashInfo) : Eff unit
| Emit (r : WalletSendResult) : Eff unit.

(** A program returns, throws, or performs an effect and continues
    with its result. *)
Inductive Prog (A : Type) : Type :=
| Ret (a : A)
| Throw (msg : string)
| Vis {X : Type} (e : Eff X) (k : X -> Prog A).
Arguments Ret {A} a.
Arguments Throw {A} msg.
Arguments Vis {A X} e k.

(** Sequencing; a throw skips what follows. *)
Fixpoint bind {A B : Type} (m : Prog A) (f : A -> Prog B) : Prog B :=
  match m with
  | Ret a => f a
  | Throw msg => Throw msg
  | Vis e k => Vis e (fun x => bind (k x) f)
  end.

(** [try { m } catch (err) { handler(err.message) }] *)
Fixpoint tryCatch {A : Type} (m : Prog A) (handler : string -> Prog A) : Prog A :=
  match m with
  | Ret a => Ret a
  | Throw msg => handler msg
  | Vis e k => Vis e (fun x => tryCatch (k x) handler)
  end.

Definition perform {X : Type} (e : Eff X) : Prog X := Vis e Ret.

Notation "'do' x <- m ; k" := (bind m (fun x => k))
  (at level 10, x name, m at level 100, k at level 200).
Notation "m ;; k" := (bind m (fun _ => k))
  (at level 100, k at level 200, right associativity).

(** World updates: a network call answered (counted and logged), an
    event logged, the transaction store or [cachedBh] replaced. *)
Definition answered (ev : Event) (w : World) : World :=
  {| relay := relay w; calls := S (calls w); txs := txs w;
     cachedBh := cachedBh w; trace := trace w ++ [ev] |}.

Definition logged (ev : Event) (w : World) : World :=
  {| relay := relay w; calls := calls w; txs := txs w;
     cachedBh := cachedBh w; trace := trace w ++ [ev] |}.

Definition withTxs (store : list Transaction) (w : World) : World :=
  {| relay := relay w; calls := calls w; txs := store;
     cachedBh := cachedBh w; trace := trace w |}.

Definition withCachedBh (info : BlockhashInfo) (w : World) : World :=
  {| relay := relay w; calls := calls w; txs := txs w;
     cachedBh := Some info; trace := trace w |}.

(** What one effect does to the world.  A reference that was never
    allocated reads as a fresh object and is not written; the program
    only holds references it got from [NewTransaction]. *)
Definition handle {X : Type} (e : Eff X) (w : World) : X * World :=
  match e in Eff T return T * World with
  | HttpGetBlockhash req =>
      let reply := blockhashReply (relay w) (calls w) req in
      (reply, answered (EvBlockhash req reply) w)
  | HttpPostSendRaw req body =>
      let reply := sendRawReply (relay w) (calls w) req body in
      (reply, answered (EvSendRaw req body reply) w)
  | HttpPostBalances req pubkeys =>
      let reply := balancesReply (relay w) (calls w) req pubkeys in
      (reply, answered (EvBalances req pubkeys reply) w)
  | SetTimeout ms => (tt, logged (EvTimeout ms) w)
  | NewTransaction => (length (txs w), withTxs (txs w ++ [emptyTransaction]) w)
  | ReadTx tx => (default emptyTransaction (txs w !! tx), w)
  | UpdateTx tx f => (tt, withTxs (alter f tx (txs w)) w)
  | ReadCachedBh => (cachedBh w, w)
  | WriteCachedBh info => (tt, withCachedBh info w)
  | Emit r => (tt, logged (EvResult r) w)
  end.

(** Running one program to its completion, with nothing interleaved. *)
Fixpoint run {A : Type} (m : Prog A) (w : World) : Completion A * World :=
  match m with
  | Ret a => (Normal a, w)
  | Throw msg => (Throws msg, w)
  | Vis e k => let (x, w') := handle e w in run (k x) w'
  end.

(** A bound on a program, in worlds where [G] holds: it ends within
    [n] effects, with a value in [P] or a thrown message in [E]. *)
Fixpoint behaves {A : Type} (G : World -> Prop) (P : A -> Prop)
    (E : string -> Prop) (n : nat) (p : Prog A) {struct p} : Prop :=
  match p with
  | Ret a => P a
  | Throw msg => E msg
  | Vis e k =>
      match n with
      | 0 => False
      | S n' => forall w, G w -> behaves G P E n' (k (handle e w).1)
      end
  end.

(** ** The relay client and the transaction builder ([src/lib/solana.ts]) *)

Module Solana.
Import JsString.

(** The spread [...(apiKey ? { 'x-api-key': apiKey } : {})]: an absent
    or empty key adds no header. *)
Definition apiKeyHeader (apiKey : option string) : list (string * string) :=
  match apiKey with
  | Some key => if String.eqb key "" then [] else [("x-api-key", key)]
  | None => []
  end.

Definition jsonHeaders (apiKey : option string) : list (string * string) :=
  ("Content-Type", "application/json") :: apiKeyHeader apiKey.

Definition fetchBalances (pubkeys : list PublicKey) (apiBase : string)
    (apiKey : option string) : Prog (gmap string Z) :=
  match pubkeys with
  | [] => Ret ∅
  | _ =>
      do res <- perform (HttpPostBalances
                   {| url := apiBase ++ "/balances"; headers := jsonHeaders apiKey |}
                   pubkeys);
      match res with
      | FetchFailed msg => Throw msg
      | NotOk status _ => Throw ("Balance fetch failed: " ++ ofZ status)
      | Ok data => Ret (default ∅ data)
      end
  end.

Definition fetchBlockhash (apiBase : string) (apiKey : option string)
    : Prog BlockhashInfo :=
  do res <- perform (HttpGetBlockhash
               {| url := apiBase ++ "/blockhash"; headers := apiKeyHeader apiKey |});
  match res with
  | FetchFailed msg => Throw msg
  | NotOk status _ => Throw ("Blockhash fetch failed: " ++ ofZ status)
  | Ok info => Ret info
  end.

Definition applyBlockhash (tx : nat) (signer : Keypair) (info : BlockhashInfo)
    : Prog unit :=
  perform (UpdateTx tx (Tx.setRecentBlockhash (blockhash info))) ;;
  perform (UpdateTx tx (Tx.setLastValidBlockHeight (lastValidBlockHeight info))) ;;
  perform (UpdateTx tx (Tx.sign signer)).

(** A call of the token library inside an [async] function: a throw
    rejects the caller. *)
Definition lift {A : Type} (c : Completion A) : Prog A :=
  match c with
  | Normal a => Ret a
  | Throws msg => Throw msg
  end.

(** [plan.priorityFeeMicrolamports && plan.priorityFeeMicrolamports > 0] *)
Definition wantsPriorityFee (plan : TransferPlan) : option Z :=
  match priorityFeeMicrolamports plan with
  | Some fee => if (0 <? fee)%Z then Some fee else None
  | None => None
  end.

Definition buildTransferTx `{token : SplToken} (from : Keypair) (plan : TransferPlan)
    (blockhashInfo : BlockhashInfo) : Prog nat :=
  do fromAta <- lift (getAssociatedTokenAddress (mint plan) (publicKey from));
  do toAta <- lift (getAssociatedTokenAddress (mint plan) (destination plan));
  let ixs :=
    [ CreateAssociatedTokenAccountIdempotent
        (publicKey from) toAta (destination plan) (mint plan);
      Transfer fromAta toAta (publicKey from) (amountRaw plan) ] in
  do tx <- perform NewTransaction;
  match wantsPriorityFee plan with
  | Some fee => perform (UpdateTx tx (Tx.add [SetComputeUnitPrice fee]))
  | None => Ret tt
  end ;;
  perform (UpdateTx tx (Tx.add (SetComputeUnitLimit 200000 :: ixs))) ;;
  perform (UpdateTx tx (Tx.setFeePayer (publicKey from))) ;;
  applyBlockhash tx from blockhashInfo ;;
  Ret tx.

(** ** Submission with retry *)

(** [/BlockhashNotFound|blockhash|expired/i.test(msg)] *)
Definition needsHash (msg : string) : bool :=
  includesIgnoreCase "BlockhashNotFound" msg
  || includesIgnoreCase "blockhash" msg
  || includesIgnoreCase "expired" msg.

(** [body.error || `sendRaw failed: ${res.status}`] *)
Definition sendRawFailure (status : Z) (errorField : option string) : string :=
  match errorField with
  | Some e => if String.eqb e "" then "sendRaw failed: " ++ ofZ status else e
  | None => "sendRaw failed: " ++ ofZ status
  end.

(** The [try] block of one attempt; [Some r] stands for [return r]. *)
Definition submitOnce (tx : nat) (walletName : string) (apiBase : string)
    (apiKey : option string) : Prog (option WalletSendResult) :=
  do t <- perform (ReadTx tx);
  do res <- perform (HttpPostSendRaw
               {| url := apiBase ++ "/sendRaw"; headers := jsonHeaders apiKey |}
               {| bodyTx := t; bodyBlockhash := recentBlockhash t;
                  bodyLastValidBlockHeight := txLastValidBlockHeight t |});
  match res with
  | FetchFailed msg => Throw msg
  | NotOk status errorField => Throw (sendRawFailure status errorField)
  | Ok sig =>
      Ret (Some {| wallet := walletName; signature := Some sig; error := None |})
  end.

(** The [catch] block of one attempt; [None] stands for falling out
    of the block into the next iteration. *)
Definition onFailure (tx : nat) (walletName : string) (signer : Keypair)
    (getBlockhash : Prog BlockhashInfo) (maxRetries attempt : nat) (msg : string)
    : Prog (option WalletSendResult) :=
  (if needsHash msg
   then do fresh <- getBlockhash; applyBlockhash tx signer fresh
   else Ret tt) ;;
  if Nat.eqb attempt maxRetries
  then Ret (Some {| wallet := walletName; signature := None; error := Some msg |})
  else
    let backoffMs := (150 * Z.of_nat attempt)%Z in
    perform (SetTimeout backoffMs) ;;
    Ret None.

(** The loop [for (attempt = 1; attempt <= maxRetries; attempt++)]:
    [remaining] counts the iterations left, [maxRetries + 1 - attempt]. *)
Fixpoint sendLoop (remaining : nat) (attempt : nat) (tx : nat)
    (walletName : string) (signer : Keypair) (apiBase : string)
    (apiKey : option string) (getBlockhash : Prog BlockhashInfo)
    (maxRetries : nat) : Prog WalletSendResult :=
  match remaining with
  | 0 =>
      Ret {| wallet := walletName; signature := None;
             error := Some "exhausted retries" |}
  | S remaining' =>
      do step <- tryCatch
                   (submitOnce tx walletName apiBase apiKey)
                   (onFailure tx walletName signer getBlockhash maxRetries attempt);
      match step with
      | Some result => Ret result
      | None =>
          sendLoop remaining' (S attempt) tx walletName signer apiBase apiKey
                   getBlockhash maxRetries
      end
  end.

Definition sendWithRetry (tx : nat) (walletName : string) (signer : Keypair)
    (apiBase : string) (apiKey : option string)
    (getBlockhash : Prog BlockhashInfo) (maxRetries : nat)
    : Prog WalletSendResult :=
  sendLoop maxRetries 1 tx walletName signer apiBase apiKey getBlockhash maxRetries.

Definition defaultMaxRetries : nat := 3.

End Solana.

(** ** The pool of signer runs ([p-limit]) *)

(** [p-limit] is a dependency of the program; the model follows its
    documented behaviour: at most [concurrency] tasks run, and a task
    that was queued starts, oldest first, when a running one settles. *)

(** A task handed to [limit(...)]: waiting for a slot, running (what is
    left of its body), or settled. *)
Inductive Slot : Type :=
| Queued (body : Prog WalletSendResult)
| Running (body : Prog WalletSendResult)
| Fulfilled (r : WalletSendResult)
| Rejected (msg : string).

Record Pool : Type := {
  slots : list Slot;
  world : World;
  rejection : option string
}.

Module PLimit.

(** [pLimit(concurrency)] validates its argument. *)
Definition pLimit (concurrency : Z) : Completion nat :=
  if (1 <=? concurrency)%Z then Normal (Z.to_nat concurrency)
  else Throws "Expected `concurrency` to be a number from 1 and up".

Definition isRunning (s : Slot) : bool :=
  match s with
  | Running _ => true
  | _ => false
  end.

(** [limit.activeCount] *)
Fixpoint activeCount (ss : list Slot) : nat :=
  match ss with
  | [] => 0
  | s :: rest => (if isRunning s then 1 else 0) + activeCount rest
  end.

(** Start queued tasks, oldest first, while slots are free. *)
Fixpoint promote (free : nat) (ss : list Slot) : list Slot :=
  match ss with
  | [] => []
  | s :: rest =>
      match free with
      | 0 => ss
      | S free' =>
          match s with
          | Queued body => Running body :: promote free' rest
          | _ => s :: promote free rest
          end
      end
  end.

Definition refill (limit : nat) (ss : list Slot) : list Slot :=
  promote (limit - activeCount ss) ss.

(** A running task advances to its next [await], or settles. *)
Definition advanceSlot (body : Prog WalletSendResult) (w : World)
    : Slot * World * option string :=
  match body with
  | Ret r => (Fulfilled r, w, None)
  | Throw msg => (Rejected msg, w, Some msg)
  | Vis e k => let (x, w') := handle e w in (Running (k x), w', None)
  end.

(** Advance the [k]-th running task. *)
Fixpoint advanceNth (k : nat) (ss : list Slot) (w : World)
    : list Slot * World * option string :=
  match ss with
  | [] => ([], w, None)
  | Running body :: rest =>
      match k with
      | 0 => let '(s, w', rej) := advanceSlot body w in (s :: rest, w', rej)
      | S k' =>
          let '(rest', w', rej) := advanceNth k' rest w in
          (Running body :: rest', w', rej)
      end
  | s :: rest =>
      let '(rest', w', rej) := advanceNth k rest w in (s :: rest', w', rej)
  end.

(** One step of the event loop: the scheduler's [pick] selects which
    running task continues; a freed slot goes to the oldest queued
    task.  The first rejection is what [Promise.all] rejects with. *)
Definition poolStep (limit : nat) (pick : nat) (p : Pool) : Pool :=
  match activeCount (slots p) with
  | 0 => p
  | S n =>
      let '(ss, w, rej) := advanceNth (pick mod S n) (slots p) (world p) in
      {| slots := refill limit ss;
         world := w;
         rejection := match rejection p with
                      | Some first => Some first
                      | None => rej
                      end |}
  end.

Definition start (limit : nat) (bodies : list (Prog WalletSendResult))
    (w : World) : Pool :=
  {| slots := refill limit (map Queued bodies); world := w; rejection := None |}.

Definition runPool (limit : nat) (schedule : list nat) (p : Pool) : Pool :=
  fold_left (fun q pick => poolStep limit pick q) schedule p.

Fixpoint values (ss : list Slot) : option (list WalletSendResult) :=
  match ss with
  | [] => Some []
  | Fulfilled r :: rest =>
      match values rest with
      | Some rs => Some (r :: rs)
      | None => None
      end
  | _ :: rest => None
  end.

(** [Promise.all(tasks)], observed when the schedule ends: rejected
    with the first rejection, fulfilled with the values in the order
    of the tasks, or still pending ([None]). *)
Definition promiseAll (p : Pool) : option (Completion (list WalletSendResult)) :=
  match rejection p with
  | Some msg => Some (Throws msg)
  | None =>
      match values (slots p) with
      | Some rs => Some (Normal rs)
      | None => None
      end
  end.

End PLimit.

(** ** The batch dispatcher ([executeBatch]) *)

Module Batch.
Import Solana.

(** [nextBh]: fetch a hash and store it in [cachedBh]. *)
Definition nextBh (apiBase : string) (apiKey : option string) : Prog BlockhashInfo :=
  do info <- fetchBlockhash apiBase apiKey;
  perform (WriteCachedBh info) ;;
  Ret info.

(** The [async] function given to [limit] for one wallet.  [cachedBh!]
    is read when the task starts; it cannot be [null] there, the
    dispatcher awaits the first hash before it creates the tasks.
    [onResult] tells whether the caller passed an observer. *)
Definition signerRun `{token : SplToken} (wallet : WalletRef) (plan : TransferPlan)
    (apiBase : string) (apiKey : option string) (onResult : bool)
    : Prog WalletSendResult :=
  do current <- perform ReadCachedBh;
  match current with
  | None => Throw "TypeError: Cannot read properties of null (reading 'blockhash')"
  | Some info =>
      do tx <- buildTransferTx (keypair wallet) plan info;
      do res <- sendWithRetry tx (name wallet) (keypair wallet) apiBase apiKey
                  (nextBh apiBase apiKey) defaultMaxRetries;
      (if onResult then perform (Emit res) else Ret tt) ;;
      Ret res
  end.

(** [schedule] is the order in which the event loop resumes the
    running tasks; the result is [None] while [Promise.all] is still
    pending when the schedule ends. *)
Definition executeBatch `{token : SplToken} (wallets : list WalletRef) (plan : TransferPlan)
    (concurrency : Z) (apiBase : string) (apiKey : option string)
    (onResult : bool) (schedule : list nat) (w : World)
    : option (Completion (list WalletSendResult)) * World :=
  match run (nextBh apiBase apiKey) w with
  | (Throws msg, w1) => (Some (Throws msg), w1)
  | (Normal _, w1) =>
      match PLimit.pLimit (Z.max 1 concurrency) with
      | Throws msg => (Some (Throws msg), w1)
      | Normal limit =>
          let tasks :=
            map (fun wallet => signerRun wallet plan apiBase apiKey onResult) wallets in
          let pool := PLimit.runPool limit schedule (PLimit.start limit tasks w1) in
          (PLimit.promiseAll pool, world pool)
      end
  end.

End Batch.

(** ** The caller ([handleExecute], src/App.tsx) *)

Module App.

Definition MAX_WALLETS : Z := 30.
Definition DEFAULT_CONCURRENCY : Z := 8.

(** [Math.min(MAX_WALLETS, Math.max(1, concurrency || 1))]; [0] is the
    falsy integer. *)
Definition safeConcurrency (concurrency : Z) : Z :=
  Z.min MAX_WALLETS (Z.max 1 (if (concurrency =? 0)%Z then 1 else concurrency)).

(** The size of the pool that [handleExecute] makes [executeBatch] create. *)
Definition poolSize (concurrency : Z) : Completion nat :=
  PLimit.pLimit (Z.max 1 (safeConcurrency concurrency)).

End App.

(** ** Vocabulary for the statements about a signer run *)

Module RunSpec.
Import Solana.

(** The request and the body of a submission of transaction [t]. *)
Definition sendRawRequest (apiBase : string) (apiKey : option string) : Request :=
  {| url := apiBase ++ "/sendRaw"; headers := jsonHeaders apiKey |}.

Definition blockhashRequest (apiBase : string) (apiKey : option string) : Request :=
  {| url := apiBase ++ "/blockhash"; headers := apiKeyHeader apiKey |}.

Definition bodyOf (t : Transaction) : SendRawBody :=
  {| bodyTx := t; bodyBlockhash := recentBlockhash t;
     bodyLastValidBlockHeight := txLastValidBlockHeight t |}.

(** The message the [catch] block sees for a reply, if the reply is a
    failure. *)
Definition failureOf (reply : HttpReply string) : option string :=
  match reply with
  | FetchFailed msg => Some msg
  | NotOk status errorField => Some (sendRawFailure status errorField)
  | Ok _ => None
  end.

(** The outcome of a failed run and of an accepted one. *)
Definition failed (walletName : string) (msg : string) : WalletSendResult :=
  {| wallet := walletName; signature := None; error := Some msg |}.

Definition confirmed (walletName : string) (sig : string) : WalletSendResult :=
  {| wallet := walletName; signature := Some sig; error := None |}.

(** An outcome with exactly one of the two fields set, and an outcome
    of the signer [walletName]. *)
Definition exactlyOne (r : WalletSendResult) : Prop :=
  (is_Some (signature r) /\ error r = None) \/
  (signature r = None /\ is_Some (error r)).

Definition outcomeOf (walletName : string) (r : WalletSendResult) : Prop :=
  wallet r = walletName /\ exactlyOne r.

(** The submission a run makes of the transaction [tx] as it is in the
    world [w], the relay's reply to it as the [k]-th next call, and the
    world after the first reply. *)
Definition submitted (tx : nat) (w : World) : SendRawBody :=
  bodyOf (default emptyTransaction (txs w !! tx)).

Definition replyAt (apiBase : string) (apiKey : option string) (tx : nat)
    (w : World) (k : nat) : HttpReply string :=
  sendRawReply (relay w) (calls w + k) (sendRawRequest apiBase apiKey) (submitted tx w).

Definition afterSubmit (apiBase : string) (apiKey : option string) (tx : nat)
    (w : World) : World :=
  answered (EvSendRaw (sendRawRequest apiBase apiKey) (submitted tx w)
              (replyAt apiBase apiKey tx w 0)) w.

(** What attempt number [first + j] of a run of failures leaves in the
    log: the submission and, unless it was the last attempt, a wait of
    150 ms times the attempt number. *)
Definition attemptEvents (apiBase : string) (apiKey : option string) (tx : nat)
    (w : World) (maxRetries first j : nat) : list Event :=
  EvSendRaw (sendRawRequest apiBase apiKey) (submitted tx w)
    (replyAt apiBase apiKey tx w j)
  :: if (first + j <? maxRetries)%nat
     then [EvTimeout (150 * Z.of_nat (first + j))]
     else [].

(** The signature of the first accepted submission among the events. *)
Fixpoint acceptedIn (evs : list Event) : option string :=
  match evs with
  | [] => None
  | EvSendRaw _ _ (Ok sig) :: _ => Some sig
  | _ :: rest => acceptedIn rest
  end.

(** The waits among the events, in order. *)
Fixpoint timeoutsIn (evs : list Event) : list Z :=
  match evs with
  | [] => []
  | EvTimeout ms :: rest => ms :: timeoutsIn rest
  | _ :: rest => timeoutsIn rest
  end.

(** What [applyBlockhash] makes of a transaction. *)
Definition rebound (signer : Keypair) (info : BlockhashInfo) (t : Transaction)
    : Transaction :=
  Tx.sign signer
    (Tx.setLastValidBlockHeight (lastValidBlockHeight info)
       (Tx.setRecentBlockhash (blockhash info) t)).

(** The instructions of a transfer, in the order of the specification:
    priority fee when the rate is positive, compute-budget ceiling,
    idempotent creation of the destination account, transfer. *)
Definition expectedInstructions (from : Keypair) (plan : TransferPlan)
    (fromAta toAta : PublicKey) : list Instruction :=
  match priorityFeeMicrolamports plan with
  | Some fee => if (0 <? fee)%Z then [SetComputeUnitPrice fee] else []
  | None => []
  end ++
  [ SetComputeUnitLimit 200000;
    CreateAssociatedTokenAccountIdempotent
      (publicKey from) toAta (destination plan) (mint plan);
    Transfer fromAta toAta (publicKey from) (amountRaw plan) ].

(** The transaction the builder is specified to produce. *)
Definition expectedTransaction (from : Keypair) (plan : TransferPlan)
    (info : BlockhashInfo) (fromAta toAta : PublicKey) : Transaction :=
  let message :=
    {| msgFeePayer := Some (publicKey from);
       msgInstructions := expectedInstructions from plan fromAta toAta;
       msgRecentBlockhash := Some (blockhash info) |} in
  {| feePayer := Some (publicKey from);
     instructions := expectedInstructions from plan fromAta toAta;
     recentBlockhash := Some (blockhash info);
     txLastValidBlockHeight := Some (lastValidBlockHeight info);
     signatures := [ {| sigPublicKey := publicKey from;
                        sigSecretKey := secretKey from;
                        sigMessage := message |} ] |}.

(** The reading of "re-derived rather than patched in place": between
    two states of the store, the object [tx] is as it was and a new
    transaction object exists. *)
Definition rederived (before after : World) (tx : nat) : Prop :=
  txs after !! tx = txs before !! tx /\ length (txs before) < length (txs after).

End RunSpec.

(** ** Vocabulary for the statements about a batch *)

Module BatchSpec.

(** Every fetch of a reference hash is answered with a hash. *)
Definition refreshable (w : World) : Prop :=
  forall n req, exists info, blockhashReply (relay w) n req = Ok info.

(** The state the tasks of a batch run in: the first hash is cached. *)
Definition ready (w : World) : Prop :=
  refreshable w /\ is_Some (cachedBh w).

(** The token accounts of every signer and of the destination derive. *)
Definition buildable `{token : SplToken} (wallets : list WalletRef) (plan : TransferPlan)
    : Prop :=
  (forall wallet, In wallet wallets ->
     exists fromAta,
       getAssociatedTokenAddress (mint plan) (publicKey (keypair wallet))
       = Normal fromAta) /\
  exists toAta,
    getAssociatedTokenAddress (mint plan) (destination plan) = Normal toAta.

(** Effects of one signer run, at most: one read of the cached hash,
    seven for the build, eight per attempt, one for the observer. *)
Definition signerRunEffects : nat := 1 + 7 + 8 * Solana.defaultMaxRetries + 1.

(** Steps of the event loop after which a batch of [n] signers has
    settled: the effects of each run and the step that settles it. *)
Definition enoughSteps (n : nat) : nat := n * S signerRunEffects.

(** A slot of the pool that holds the run of the signer [walletName]
    with [budget] steps to go: a task that, in a ready world, returns an
    outcome for that signer within the budget, or such an outcome. *)
Definition slotOk (walletName : string) (budget : nat) (s : Slot) : Prop :=
  match s with
  | Queued body | Running body =>
      match budget with
      | 0 => False
      | S n =>
          behaves ready (fun r => wallet r = walletName) (fun _ => False) n body
      end
  | Fulfilled r => wallet r = walletName
  | Rejected _ => False
  end.

Definition isQueued (s : Slot) : bool :=
  match s with
  | Queued _ => true
  | _ => false
  end.

End BatchSpec.

(** ** Decimal amounts as the specification describes them *)

Module AmountSpec.
Import JsString.

(** A decimal string: an integer part, and optionally a decimal point
    followed by a fractional part. *)
Definition render (whole : list ascii) (frac : option (list ascii)) : list ascii :=
  whole ++ match frac with
           | Some f => "."%char :: f
           | None => []
           end.

(** Both parts are digits; without a decimal point the integer part is
    not empty. *)
Definition valid (whole : list ascii) (frac : option (list ascii)) : Prop :=
  allDigits whole = true /\
  allDigits (default [] frac) = true /\
  (frac = None -> whole <> []).

End AmountSpec.


(** ** Concrete batches *)

Module Scenario.

(** Token accounts named after the mint and the owner; the derivation
    never throws. *)
Definition tokenAccounts : SplToken :=
  {| getAssociatedTokenAddress :=
       fun mintKey owner => Normal ("ata(" +:+ mintKey +:+ "," +:+ owner +:+ ")") |}.

Definition alice : WalletRef :=
  {| name := "alice"; keypair := {| publicKey := "A"; secretKey := "a" |} |}.

Definition bob : WalletRef :=
  {| name := "bob"; keypair := {| publicKey := "B"; secretKey := "b" |} |}.

Definition plan : TransferPlan :=
  {| mint := "M"; destination := "D"; amountRaw := 1250000;
     priorityFeeMicrolamports := Some 7%Z |}.

Definition planNoFee : TransferPlan :=
  {| mint := "M"; destination := "D"; amountRaw := 5;
     priorityFeeMicrolamports := None |}.

Definition hash0 : BlockhashInfo := {| blockhash := "H0"; lastValidBlockHeight := 100 |}.
Definition hash1 : BlockhashInfo := {| blockhash := "H1"; lastValidBlockHeight := 250 |}.

Definition api : string := "http://localhost:8787".

(** A world in which nothing has happened yet. *)
Definition fresh (r : Relay) : World :=
  {| relay := r; calls := 0; txs := []; cachedBh := None; trace := [] |}.

(** The same with the first hash already cached. *)
Definition hashed (r : Relay) : World :=
  {| relay := r; calls := 0; txs := []; cachedBh := Some hash0; trace := [] |}.

(** The world in which alice's transaction has just been built from
    the cached hash. *)
Definition built (r : Relay) : World :=
  (run (Solana.buildTransferTx (token := tokenAccounts) (keypair alice) plan hash0)
     (hashed r)).2.

(** The relay cannot reach the ledger: no hash at all. *)
Definition relayDown : Relay :=
  {| blockhashReply := fun _ _ => NotOk 503 None;
     sendRawReply := fun _ _ _ => NotOk 503 None;
     balancesReply := fun _ _ _ => NotOk 503 None |}.

(** The first hash is served; alice's submissions are refused as stale
    and the refresh she then asks for fails; bob's are accepted. *)
Definition relayRefreshDown : Relay :=
  {| blockhashReply := fun n _ => match n with
                                  | 0 => Ok hash0
                                  | _ => NotOk 500 None
                                  end;
     sendRawReply := fun _ _ body =>
       match feePayer (bodyTx body) with
       | Some "A" => NotOk 500 (Some "Transaction simulation failed: Blockhash not found")
       | _ => Ok "5igB"
       end;
     balancesReply := fun _ _ _ => Ok None |}.

(** A submission bound to the first hash is refused as stale, one bound
    to another hash is accepted; hashes are served, the first then the
    second. *)
Definition relayStaleOnce : Relay :=
  {| blockhashReply := fun n _ => match n with
                                  | 0 => Ok hash0
                                  | _ => Ok hash1
                                  end;
     sendRawReply := fun _ _ body =>
       match bodyBlockhash body with
       | Some "H0" => NotOk 500 (Some "Blockhash not found")
       | _ => Ok "5igA"
       end;
     balancesReply := fun _ _ _ => Ok None |}.

(** Hashes are served; every submission fails, each time differently,
    never for staleness. *)
Definition relayRefusing : Relay :=
  {| blockhashReply := fun _ _ => Ok hash0;
     sendRawReply := fun n _ _ =>
       match n with
       | 0 => FetchFailed "Failed to fetch"
       | 1 => NotOk 500 (Some "insufficient funds")
       | _ => NotOk 502 None
       end;
     balancesReply := fun _ _ _ => Ok None |}.

(** The event loop always resumes the oldest running task. *)
Definition oldestFirst (steps : nat) : list nat := replicate steps 0.

(** The event loop resumes the running tasks in turn. *)
Definition roundRobin (steps : nat) : list nat := seq 0 steps.

End Scenario.

(** * Further vocabulary *)

From Stdlib Require Import DecimalZ DecimalPos.

(** ** Counting what a run did *)

Module TraceSpec.

(** The submissions and the fetches of a hash among the events. *)
Fixpoint submissionsIn (evs : list Event) : nat :=
  match evs with
  | [] => 0
  | EvSendRaw _ _ _ :: rest => S (submissionsIn rest)
  | _ :: rest => submissionsIn rest
  end.

Fixpoint refreshesIn (evs : list Event) : nat :=
  match evs with
  | [] => 0
  | EvBlockhash _ _ :: rest => S (refreshesIn rest)
  | _ :: rest => refreshesIn rest
  end.

(** The messages of the submissions that failed, in order. *)
Fixpoint failuresIn (evs : list Event) : list string :=
  match evs with
  | [] => []
  | EvSendRaw _ _ reply :: rest =>
      match RunSpec.failureOf reply with
      | Some msg => msg :: failuresIn rest
      | None => failuresIn rest
      end
  | _ :: rest => failuresIn rest
  end.

(** The outcomes handed to the observer, in order. *)
Fixpoint emittedIn (evs : list Event) : list WalletSendResult :=
  match evs with
  | [] => []
  | EvResult r :: rest => r :: emittedIn rest
  | _ :: rest => emittedIn rest
  end.

(** Total of the waits, in milliseconds. *)
Definition waitedIn (evs : list Event) : Z :=
  fold_right Z.add 0%Z (RunSpec.timeoutsIn evs).

End TraceSpec.

(** ** More concrete cases *)

Module Cases.

(** Token accounts that derive for every owner but the program-derived
    address ["PDA"], for which the library throws. *)
Definition strictAccounts : SplToken :=
  {| getAssociatedTokenAddress :=
       fun mintKey owner =>
         if String.eqb owner "PDA" then Throws "TokenOwnerOffCurveError"
         else Normal ("ata(" +:+ mintKey +:+ "," +:+ owner +:+ ")") |}.

Definition planToPda : TransferPlan :=
  {| mint := "M"; destination := "PDA"; amountRaw := 5;
     priorityFeeMicrolamports := None |}.

(** A relay that refuses the first two submissions, for reasons other
    than staleness, and accepts the third. *)
Definition relayThirdTime : Relay :=
  {| blockhashReply := fun _ _ => Ok Scenario.hash0;
     sendRawReply := fun n _ _ =>
       match n with
       | 0 => FetchFailed "Failed to fetch"
       | 1 => NotOk 429 (Some "Too many requests")
       | _ => Ok "5igC"
       end;
     balancesReply := fun _ _ _ => Ok None |}.

End Cases.

(** ** Signer runs that cannot build their transaction *)

Module DoomedSpec.

(** How far a slot is on the way to a rejection: a task that has
    thrown and not yet settled counts 1, a settled one 2. *)
Definition stage (s : Slot) : nat :=
  match s with
  | Queued _ => 0
  | Running (Throw _) => 1
  | Running _ => 0
  | Fulfilled _ | Rejected _ => 2
  end.

Definition progress (ss : list Slot) : nat := sum_list (map stage ss).

(** A task that reads the cached hash and then throws [msg]. *)
Definition readsThenThrows (msg : string) (body : Prog WalletSendResult) : Prop :=
  exists k, body = Vis ReadCachedBh k /\ forall info, k (Some info) = Throw msg.

(** A slot that holds such a task, at any point of its life. *)
Definition doomed (msg : string) (s : Slot) : Prop :=
  match s with
  | Queued body => readsThenThrows msg body
  | Running body => body = Throw msg \/ readsThenThrows msg body
  | Fulfilled _ => False
  | Rejected m => m = msg
  end.

End DoomedSpec.

(** ** What a task puts in the log *)

Module LogSpec.
Import TraceSpec.

(** The events one effect appends to the log. *)
Definition delta {X : Type} (e : Eff X) (w : World) : list Event :=
  match e with
  | HttpGetBlockhash req => [EvBlockhash req (blockhashReply (relay w) (calls w) req)]
  | HttpPostSendRaw req body =>
      [EvSendRaw req body (sendRawReply (relay w) (calls w) req body)]
  | HttpPostBalances req pubkeys =>
      [EvBalances req pubkeys (balancesReply (relay w) (calls w) req pubkeys)]
  | SetTimeout ms => [EvTimeout ms]
  | Emit r => [EvResult r]
  | _ => []
  end.

(** [behaves] with the log: the program ends within [n] effects in
    [G]-worlds, and the events it appended, with the value it returns
    or the message it throws, are in [Q] or in [E]. *)
Fixpoint logs {A : Type} (G : World -> Prop) (Q : list Event -> A -> Prop)
    (E : list Event -> string -> Prop) (n : nat) (p : Prog A) {struct p} : Prop :=
  match p with
  | Ret a => Q [] a
  | Throw msg => E [] msg
  | Vis e k =>
      match n with
      | 0 => False
      | S n' =>
          forall w, G w ->
            logs G (fun evs a => Q (delta e w ++ evs) a)
              (fun evs msg => E (delta e w ++ evs) msg) n' (k (handle e w).1)
      end
  end.

Fixpoint balancesIn (evs : list Event) : nat :=
  match evs with
  | [] => 0
  | EvBalances _ _ _ :: rest => S (balancesIn rest)
  | _ :: rest => balancesIn rest
  end.

(** The calls of the relay among the events. *)
Definition httpIn (evs : list Event) : nat :=
  submissionsIn evs + refreshesIn evs + balancesIn evs.

(** At most [s] submissions and [r] fetches of a hash, no other call
    of the relay and no outcome handed to the observer. *)
Definition costs (s r : nat) (evs : list Event) : Prop :=
  submissionsIn evs <= s /\ refreshesIn evs <= r /\
  balancesIn evs = 0 /\ emittedIn evs = [].

(** The log of a finished signer run that returned [r]: the attempts,
    then [r] handed to the observer when there is one. *)
Definition reported (onResult : bool) (walletName : string) (evs : list Event)
    (r : WalletSendResult) : Prop :=
  wallet r = walletName /\
  exists pre,
    evs = pre ++ (if onResult then [EvResult r] else []) /\
    costs Solana.defaultMaxRetries Solana.defaultMaxRetries pre.

(** What is known of a slot of the pool besides its task: the signer,
    the steps it may still take, the events it has appended. *)
Record Ghost : Type := { owner : string; budget : nat; seen : list Event }.

Definition slotLogged (onResult : bool) (g : Ghost) (s : Slot) : Prop :=
  match s with
  | Queued body | Running body =>
      match budget g with
      | 0 => False
      | S n =>
          logs BatchSpec.ready
            (fun evs r => reported onResult (owner g) (seen g ++ evs) r)
            (fun _ _ => False) n body
      end
  | Fulfilled r => reported onResult (owner g) (seen g) r
  | Rejected _ => False
  end.

End LogSpec.

(** ** What a task does to its transaction object *)

Module OwnSpec.

(** The transaction object a task has created, as the task left it;
    [None] before the task has created one. *)
Definition Owned : Type := option (nat * Transaction).

(** What a task that owns [own] may do: create its object once,
    read and update that object only, submit only what [Good] allows. *)
Definition allowed (Good : Request -> SendRawBody -> Prop) {X : Type} (e : Eff X)
    (own : Owned) : Prop :=
  match e with
  | NewTransaction => own = None
  | UpdateTx tx _ => exists t, own = Some (tx, t)
  | ReadTx tx => exists t, own = Some (tx, t)
  | HttpPostSendRaw req body => Good req body
  | _ => True
  end.

(** What the task gets back when nobody else touches its object, and
    what it owns then. *)
Definition after {X : Type} (e : Eff X) (own : Owned) : X -> Owned -> Prop :=
  match e in Eff T return T -> Owned -> Prop with
  | NewTransaction => fun x own' => own' = Some (x, emptyTransaction)
  | UpdateTx tx f => fun _ own' => exists t, own = Some (tx, t) /\ own' = Some (tx, f t)
  | ReadTx tx => fun x own' => own = Some (tx, x) /\ own' = own
  | _ => fun _ own' => own' = own
  end.

(** A program that keeps to that, whatever it gets back otherwise;
    [Q] holds of what it returns and owns then, [E] of what it throws
    and owns then. *)
Fixpoint safe {A : Type} (Good : Request -> SendRawBody -> Prop)
    (Q : A -> Owned -> Prop) (E : string -> Owned -> Prop) (own : Owned)
    (p : Prog A) {struct p} : Prop :=
  match p with
  | Ret a => Q a own
  | Throw msg => E msg own
  | Vis e k =>
      allowed Good e own /\
      forall x own', after e own x own' -> safe Good Q E own' (k x)
  end.

Definition slotSafe (Good : Request -> SendRawBody -> Prop) (own : Owned) (s : Slot)
    : Prop :=
  match s with
  | Queued body | Running body =>
      safe Good (fun _ _ => True) (fun _ _ => True) own body
  | _ => True
  end.

(** The objects of the tasks are in the store as the tasks left them,
    and no two tasks have the same object. *)
Definition stored (w : World) (owns : list Owned) : Prop :=
  (forall i x t, owns !! i = Some (Some (x, t)) -> txs w !! x = Some t) /\
  (forall i j x t x' t',
     owns !! i = Some (Some (x, t)) -> owns !! j = Some (Some (x', t')) ->
     i <> j -> x <> x').

(** The submissions among the events are all allowed by [Good]. *)
Definition submissionsAre (Good : Request -> SendRawBody -> Prop) (evs : list Event)
    : Prop :=
  Forall (fun ev => match ev with
                    | EvSendRaw req body _ => Good req body
                    | _ => True
                    end) evs.

(** A transfer of the plan by one of the wallets, built and signed,
    sent to the relay as the client sends it. *)
Definition signedTransfer `{token : SplToken} (wallets : list WalletRef)
    (plan : TransferPlan) (apiBase : string) (apiKey : option string)
    (req : Request) (body : SendRawBody) : Prop :=
  req = RunSpec.sendRawRequest apiBase apiKey /\
  exists wallet info fromAta toAta,
    In wallet wallets /\
    getAssociatedTokenAddress (mint plan) (publicKey (keypair wallet)) = Normal fromAta /\
    getAssociatedTokenAddress (mint plan) (destination plan) = Normal toAta /\
    body = RunSpec.bodyOf
             (RunSpec.expectedTransaction (keypair wallet) plan info fromAta toAta).

End OwnSpec.

(** ** The dashboard ([App], src/App.tsx) *)

(** [new PublicKey(value)] of the ledger library: it throws for a
    string that is not an address.  The decoding is not modelled. *)
Class Web3 : Type := {
  newPublicKey : string -> Completion PublicKey
}.

Module Ui.
Import JsString.

Definition AUTH_STORAGE_KEY : string := "evorape_auth_v1".

(** [names.includes(name)] *)
Definition includesName (nm : string) (names : list string) : bool :=
  existsb (String.eqb nm) names.

(** [selectedWallets]: the wallets whose names are ticked, all of them
    when nothing is ticked. *)
Definition selectedWallets (selected : list string) (wallets : list WalletRef)
    : list WalletRef :=
  match selected with
  | [] => wallets
  | _ => List.filter (fun w => includesName (name w) selected) wallets
  end.

(** The state update of [toggleWallet]. *)
Definition toggleWallet (nm : string) (prev : list string) : list string :=
  if includesName nm prev
  then List.filter (fun n => negb (String.eqb n nm)) prev
  else prev ++ [nm].

(** The state update that [handleExecute] gives to the dispatcher as
    its observer: the outcome replaces the row of the same wallet and
    goes last. *)
Definition recordResult (prev : list WalletSendResult) (res : WalletSendResult)
    : list WalletSendResult :=
  List.filter (fun p => negb (String.eqb (wallet p) (wallet res))) prev ++ [res].

(** The password gate: what the component keeps, and [localStorage]. *)
Record Session : Type := { isAuthed : bool; gateError : option string }.

Definition Storage : Type := gmap string string.

Definition handleGate (envGate gateInput : string) (s : Session) (store : Storage)
    : Session * Storage :=
  if negb (String.eqb envGate "") && negb (String.eqb gateInput envGate)
  then ({| isAuthed := isAuthed s; gateError := Some "Incorrect password" |}, store)
  else ({| isAuthed := true; gateError := None |},
        <[AUTH_STORAGE_KEY := "true"]> store).

(** The effect that restores the authentication when the component
    mounts. *)
Definition restoreAuth (s : Session) (store : Storage) : Session :=
  match store !! AUTH_STORAGE_KEY with
  | Some ok =>
      if String.eqb ok "true"
      then {| isAuthed := true; gateError := gateError s |}
      else s
  | None => s
  end.

(** A new page load: nothing is authenticated until the effect runs. *)
Definition mount (store : Storage) : Session :=
  restoreAuth {| isAuthed := false; gateError := None |} store.

(** Passwords tried one after the other in one session. *)
Fixpoint tryGate (envGate : string) (inputs : list string) (s : Session)
    (store : Storage) : Session * Storage :=
  match inputs with
  | [] => (s, store)
  | gateInput :: rest =>
      let (s', store') := handleGate envGate gateInput s store in
      tryGate envGate rest s' store'
  end.

(** [handleGenerateWallets]: [now idx] is what [Date.now()] returns
    for the wallet of index [idx] and [generate idx] the key pair that
    [Keypair.generate()] draws for it.  The result is the new value of
    [wallets] and of [selected]. *)
Definition generatedName (now : Z) (idx : nat) : string :=
  "bundle-" ++ ofZ now ++ "-" ++ ofZ (Z.of_nat idx + 1).

Definition handleGenerateWallets (generateCount : Z) (now : nat -> Z)
    (generate : nat -> Keypair) : list WalletRef * list string :=
  let count := Z.to_nat (Z.max 1 (Z.min App.MAX_WALLETS generateCount)) in
  let generated :=
    map (fun idx => {| name := generatedName (now idx) idx; keypair := generate idx |})
      (seq 0 count) in
  (generated, map name generated).

(** [envApiKey || undefined] *)
Definition optionalKey (envApiKey : string) : option string :=
  if String.eqb envApiKey "" then None else Some envApiKey.

(** [refreshBalances]: the value it leaves in [balances]. *)
Definition refreshBalances (current : list WalletRef) (apiBaseTrimmed envApiKey : string)
    : Prog (gmap string Z) :=
  match current with
  | [] => Ret ∅
  | _ =>
      if String.eqb apiBaseTrimmed "" then Ret ∅
      else
        tryCatch
          (Solana.fetchBalances (map (fun w => publicKey (keypair w)) current)
             apiBaseTrimmed (optionalKey envApiKey))
          (fun _ => Ret ∅)
  end.

(** What [handleExecute] reads: the environment and the form. *)
Record Form : Type := {
  apiBaseTrimmed : string;
  envApiKey : string;
  formMint : string;
  formDestination : string;
  formAmount : string;
  formDecimals : Z;
  formPriorityFee : Z;
  formConcurrency : Z
}.

(** What [handleExecute] leaves on the screen. *)
Record View : Type := {
  results : list WalletSendResult;
  isRunning : bool;
  shownError : option string
}.

(** The statements of the [try] block of [handleExecute] before the
    call of the dispatcher: the signers, the plan and the pool size it
    is called with, or the error thrown. *)
Definition prepare `{web3 : Web3} (form : Form) (selected : list string)
    (wallets : list WalletRef) : Completion (list WalletRef * TransferPlan * Z) :=
  if String.eqb (apiBaseTrimmed form) "" then Throws "API base URL is required"
  else if String.eqb (formMint form) "" || String.eqb (formDestination form) ""
  then Throws "Mint and destination are required"
  else
    match selectedWallets selected wallets with
    | [] => Throws "Select at least one wallet"
    | signers =>
        match newPublicKey (formMint form) with
        | Throws msg => Throws msg
        | Normal mintPk =>
            match newPublicKey (formDestination form) with
            | Throws msg => Throws msg
            | Normal destPk =>
                let decimalsInt := Z.to_nat (Z.max 0 (formDecimals form)) in
                match Amount.toRawAmount (formAmount form) decimalsInt with
                | Throws msg => Throws msg
                | Normal raw =>
                    let planPriority := formPriorityFee form in
                    Normal
                      (signers,
                       {| mint := mintPk; destination := destPk; amountRaw := raw;
                          priorityFeeMicrolamports :=
                            if (0 <? planPriority)%Z then Some planPriority else None |},
                       App.safeConcurrency (formConcurrency form))
                end
            end
        end
    end.

(** [handleExecute], seen when the event loop has taken the steps of
    [schedule]: the rows are the outcomes the observer was handed, the
    run is still on while the dispatcher has not settled. *)
Definition handleExecute `{web3 : Web3} `{token : SplToken} (form : Form)
    (selected : list string) (wallets : list WalletRef) (schedule : list nat)
    (w : World) : View * World :=
  match prepare form selected wallets with
  | Throws msg => ({| results := []; isRunning := false; shownError := Some msg |}, w)
  | Normal (signers, plan, poolSize) =>
      let (settled, w') :=
        Batch.executeBatch signers plan poolSize (apiBaseTrimmed form)
          (optionalKey (envApiKey form)) true schedule w in
      let rows :=
        fold_left recordResult
          (TraceSpec.emittedIn (drop (length (trace w)) (trace w'))) [] in
      match settled with
      | None => ({| results := rows; isRunning := true; shownError := None |}, w')
      | Some (Throws msg) =>
          ({| results := rows; isRunning := false; shownError := Some msg |}, w')
      | Some (Normal _) =>
          ({| results := rows; isRunning := false; shownError := None |}, w')
      end
  end.

End Ui.

(** ** Wallets given as text ([parseSecretKey], [parseWalletBatch]) *)

(** What the parsers take from the platform and from the libraries:
    [JSON.parse] and the values it makes, of which the program only asks
    whether one is an array and stores the elements in a [Uint8Array];
    [bs58.decode]; [Keypair.fromSecretKey].  Each of the three calls may
    throw; storing values made by [JSON.parse] in a [Uint8Array] does
    not. *)
Class KeyFormats : Type := {
  JsonValue : Type;
  jsonParse : string -> Completion JsonValue;
  asArray : JsonValue -> option (list JsonValue);
  toUint8 : JsonValue -> Byte.byte;
  bs58decode : string -> Completion (list Byte.byte);
  keypairFromSecretKey : list Byte.byte -> Completion Keypair
}.

Module WalletInput.
Import JsString.

Definition CR : ascii := ascii_of_nat 13.
Definition LF : ascii := ascii_of_nat 10.

(** [raw.split(/\r?\n/)] *)
Fixpoint splitLines (s : list ascii) : list (list ascii) :=
  match s with
  | [] => [[]]
  | c :: rest =>
      let continue :=
        match splitLines rest with
        | piece :: pieces => (c :: piece) :: pieces
        | [] => [[c]]
        end in
      if Ascii.eqb c LF then [] :: splitLines rest
      else if Ascii.eqb c CR then
        match rest with
        | d :: rest' => if Ascii.eqb d LF then [] :: splitLines rest' else continue
        | [] => continue
        end
      else continue
  end.

(** [.filter(Boolean)] on strings: the empty string is dropped. *)
Definition nonEmpty (line : list ascii) : bool :=
  match line with
  | [] => false
  | _ => true
  end.

(** The lines of the input that hold something, trimmed. *)
Definition linesOf (raw : string) : list (list ascii) :=
  List.filter nonEmpty (map trim (splitLines (chars raw))).

(** [line.indexOf(':')] with the two slices around it. *)
Fixpoint cutAtColon (line : list ascii) : option (list ascii * list ascii) :=
  match line with
  | [] => None
  | c :: rest =>
      if Ascii.eqb c ":"%char then Some ([], rest)
      else match cutAtColon rest with
           | Some (before, after) => Some (c :: before, after)
           | None => None
           end
  end.

Definition parseSecretKey `{formats : KeyFormats} (input : string)
    : Completion (list Byte.byte) :=
  match trim (chars input) with
  | [] => Throws "Empty secret key input"
  | trimmed =>
      let text := string_of_list_ascii trimmed in
      let fromJson :=
        match jsonParse text with
        | Normal parsed =>
            match asArray parsed with
            | Some (first :: others) => Some (map toUint8 (first :: others))
            | _ => None
            end
        | Throws _ => None
        end in
      match fromJson with
      | Some bytes => Normal bytes
      | None =>
          match bs58decode text with
          | Normal bytes => Normal bytes
          | Throws _ => Throws "Secret key must be JSON array or base58-encoded"
          end
      end
  end.

(** The name and the text of the key on a line: [maybeName ||
    `wallet-${idx + 1}`], trimmed, and [maybeKey || line]. *)
Definition nameOf (line : list ascii) (idx : nat) : string :=
  let fallback := chars ("wallet-" ++ ofZ (Z.of_nat idx + 1)) in
  string_of_list_ascii
    (trim match cutAtColon line with
          | Some (c :: before, _) => c :: before
          | _ => fallback
          end).

Definition keyTextOf (line : list ascii) : string :=
  string_of_list_ascii
    match cutAtColon line with
    | Some (_, c :: after) => c :: after
    | _ => line
    end.

(** The callback of [lines.map] for the line of index [idx]. *)
Definition parseLine `{formats : KeyFormats} (line : list ascii) (idx : nat)
    : Completion WalletRef :=
  let nm := nameOf line idx in
  match parseSecretKey (keyTextOf line) with
  | Throws msg => Throws msg
  | Normal secret =>
      if Nat.eqb (length secret) 64
      then match keypairFromSecretKey secret with
           | Throws msg => Throws msg
           | Normal kp => Normal {| name := nm; keypair := kp |}
           end
      else Throws ("Wallet " ++ nm ++ ": secret key must be 64 bytes, got "
                   ++ ofZ (Z.of_nat (length secret)))
  end.

(** [lines.map(...)] from index [idx] on: the first line that throws
    ends it. *)
Fixpoint parseLines `{formats : KeyFormats} (lines : list (list ascii)) (idx : nat)
    : Completion (list WalletRef) :=
  match lines with
  | [] => Normal []
  | line :: rest =>
      match parseLine line idx with
      | Throws msg => Throws msg
      | Normal w =>
          match parseLines rest (S idx) with
          | Throws msg => Throws msg
          | Normal ws => Normal (w :: ws)
          end
      end
  end.

Definition parseWalletBatch `{formats : KeyFormats} (raw : string)
    : Completion (list WalletRef) :=
  let lines := linesOf raw in
  match lines with
  | [] => Normal []
  | _ =>
      if (30 <? length lines)%nat then Throws "Provide at most 30 wallets"
      else parseLines lines 0
  end.

(** [handleLoadWallets] of the dashboard that loads wallets from text
    (an earlier [App]): the new [wallets] and [selected], or the error
    shown; [None] leaves the wallets as they were. *)
Definition handleLoadWallets `{formats : KeyFormats} (walletInput : string)
    : option (list WalletRef * list string) * option string :=
  match parseWalletBatch walletInput with
  | Normal parsed =>
      if (Z.of_nat (length parsed) >? App.MAX_WALLETS)%Z
      then (None, Some ("Limit " +:+ ofZ App.MAX_WALLETS +:+ " wallets; received "
                        +:+ ofZ (Z.of_nat (length parsed))))
      else (Some (parsed, map name parsed), None)
  | Throws msg => (None, Some msg)
  end.

End WalletInput.

(** ** The relay ([server], an Express application) *)

Module Server.

(** The node of the ledger behind the relay, while one request is
    handled: the calls of [Connection] that the handlers make.  Two
    fetches of the latest hash in one request may differ, hence the
    index.  [confirmTransaction] resolves with the error of the
    transaction, if it has one. *)
Record Rpc : Type := {
  getLatestBlockhash : nat -> Completion BlockhashInfo;
  sendRawTransaction : Transaction -> Completion string;
  confirmTransaction : string -> string -> Z -> Completion (option string);
  getMultipleAccountsInfo : list PublicKey -> Completion (list (option Z))
}.

(** [res.json(payload)], or [res.status(code).json({ error })]. *)
Inductive Response (A : Type) : Type :=
| Replied (payload : A)
| Refused (code : Z) (error : string).
Arguments Replied {A} payload.
Arguments Refused {A} code error.

(** The middleware that checks [x-api-key]: [API_KEY] is the key of
    the environment, [presented] the header of the request. *)
Definition requireApiKey (API_KEY : option string) (presented : option string) : bool :=
  match API_KEY with
  | None => true
  | Some key =>
      if String.eqb key "" then true
      else match presented with
           | Some given => String.eqb given key
           | None => false
           end
  end.

(** [GET /blockhash] *)
Definition getBlockhash (rpc : Rpc) : Response BlockhashInfo :=
  match getLatestBlockhash rpc 0 with
  | Normal info => Replied info
  | Throws msg => Refused 500 msg
  end.

(** [blockhash || ...] and [lastValidBlockHeight || ...]: the empty
    string and [0] are falsy. *)
Definition givenHash (sentHash : option string) : option string :=
  match sentHash with
  | Some b => if String.eqb b "" then None else Some b
  | None => None
  end.

Definition givenHeight (height : option Z) : option Z :=
  match height with
  | Some h => if (h =? 0)%Z then None else Some h
  | None => None
  end.

(** [POST /sendRaw]; [tx] is [None] when the body has no [tx] or a
    falsy one, [sentHash] and [sentHeight] are the [blockhash] and the
    [lastValidBlockHeight] of the body. *)
Definition postSendRaw (rpc : Rpc) (tx : option Transaction)
    (sentHash : option string) (sentHeight : option Z) : Response string :=
  match tx with
  | None => Refused 400 "tx (base64) required"
  | Some raw =>
      match sendRawTransaction rpc raw with
      | Throws msg => Refused 500 msg
      | Normal sig =>
          let hashFetched :=
            match givenHash sentHash with
            | Some b => (Normal b, 0)
            | None =>
                (match getLatestBlockhash rpc 0 with
                 | Normal info => Normal (blockhash info)
                 | Throws msg => Throws msg
                 end, 1)
            end in
          match hashFetched with
          | (Throws msg, _) => Refused 500 msg
          | (Normal bh, fetched) =>
              let height :=
                match givenHeight sentHeight with
                | Some h => Normal h
                | None =>
                    match getLatestBlockhash rpc fetched with
                    | Normal info => Normal (lastValidBlockHeight info)
                    | Throws msg => Throws msg
                    end
                end in
              match height with
              | Throws msg => Refused 500 msg
              | Normal lvh =>
                  match confirmTransaction rpc sig bh lvh with
                  | Throws msg => Refused 500 msg
                  | Normal _ => Replied sig
                  end
              end
          end
      end
  end.

(** [pubkeys.map((p) => new PublicKey(p))]: the first invalid key
    throws. *)
Fixpoint toKeys `{web3 : Web3} (pubkeys : list string) : Completion (list PublicKey) :=
  match pubkeys with
  | [] => Normal []
  | p :: rest =>
      match newPublicKey p with
      | Throws msg => Throws msg
      | Normal key =>
          match toKeys rest with
          | Throws msg => Throws msg
          | Normal keys => Normal (key :: keys)
          end
      end
  end.

(** [infos[idx]?.lamports ?? 0] *)
Definition lamportsAt (infos : list (option Z)) (idx : nat) : Z :=
  default 0%Z (mjoin (infos !! idx)).

(** [keys.reduce(...)] from index [idx] on. *)
Fixpoint collect (keys : list PublicKey) (idx : nat) (infos : list (option Z))
    (acc : gmap string Z) : gmap string Z :=
  match keys with
  | [] => acc
  | key :: rest => collect rest (S idx) infos (<[key := lamportsAt infos idx]> acc)
  end.

(** [POST /balances]; [pubkeys] is [None] when the body has no array
    of that name. *)
Definition postBalances `{web3 : Web3} (rpc : Rpc) (pubkeys : option (list string))
    : Response (gmap string Z) :=
  match pubkeys with
  | None => Refused 400 "pubkeys array required"
  | Some [] => Replied ∅
  | Some given =>
      if (30 <? length given)%nat then Refused 400 "max 30 pubkeys"
      else
        match toKeys given with
        | Throws msg => Refused 500 msg
        | Normal keys =>
            match getMultipleAccountsInfo rpc keys with
            | Throws msg => Refused 500 msg
            | Normal infos => Replied (collect keys 0 infos ∅)
            end
        end
  end.

(** [req.header('x-api-key')] of a request of the client. *)
Fixpoint presentedKey (headers : list (string * string)) : option string :=
  match headers with
  | [] => None
  | (field, value) :: rest =>
      if String.eqb field "x-api-key" then Some value else presentedKey rest
  end.

(** A route behind the middleware. *)
Definition guarded {A : Type} (API_KEY : option string) (req : Request)
    (handler : Response A) : Response A :=
  if requireApiKey API_KEY (presentedKey (headers req)) then handler
  else Refused 401 "Unauthorized".

(** What [fetch] and the reading of the body make of a response. *)
Definition received {A : Type} (r : Response A) : HttpReply A :=
  match r with
  | Replied payload => Ok payload
  | Refused code error => NotOk code (Some error)
  end.

(** The relay that the client talks to when it is this server, always
    reachable; [ledger n] is the node while the [n]-th request is
    handled. *)
Definition relayOf `{web3 : Web3} (API_KEY : option string) (ledger : nat -> Rpc)
    : Relay :=
  {| blockhashReply := fun n req =>
       received (guarded API_KEY req (getBlockhash (ledger n)));
     sendRawReply := fun n req body =>
       received (guarded API_KEY req
                   (postSendRaw (ledger n) (Some (bodyTx body)) (bodyBlockhash body)
                      (bodyLastValidBlockHeight body)));
     balancesReply := fun n req pubkeys =>
       match guarded API_KEY req (postBalances (ledger n) (Some pubkeys)) with
       | Replied balances => Ok (Some balances)
       | Refused code error => NotOk code (Some error)
       end |}.

End Server.

(** ** The dashboard with bundles (the later [App]) *)

Module Bundles.
Import JsString.

(** A bundle of generated wallets: its [id], its [label], its
    [wallets]. *)
Record WalletBundle : Type := {
  bundleId : string;
  bundleLabel : string;
  bundleWallets : list WalletRef
}.

(** [allWallets] *)
Definition allWallets (bundles : list WalletBundle) : list WalletRef :=
  flat_map bundleWallets bundles.

(** [.replace(/\s+/g, '-')]: each run of white space becomes one
    dash; [inRun] tells that the character before was white space. *)
Fixpoint dashed (inRun : bool) (s : list ascii) : list ascii :=
  match s with
  | [] => []
  | c :: rest =>
      if isSpace c
      then if inRun then dashed true rest else "-"%char :: dashed true rest
      else c :: dashed false rest
  end.

(** [label.toLowerCase().replace(/\s+/g, '-')] *)
Definition slug (label : string) : string :=
  string_of_list_ascii (dashed false (map toLower (chars label))).

(** [handleGenerateWallets]: a new bundle is added after the others
    and its wallets are added to the selection.  [now] is what
    [Date.now()] returns and [generate idx] the key pair drawn for the
    wallet of index [idx]. *)
Definition handleGenerateWallets (bundles : list WalletBundle) (prev : list string)
    (generateCount : Z) (now : Z) (generate : nat -> Keypair)
    : list WalletBundle * list string :=
  let count := Z.to_nat (Z.max 1 (Z.min App.MAX_WALLETS generateCount)) in
  let bundleIndex := (Z.of_nat (length bundles) + 1)%Z in
  let label := "Bundle " +:+ ofZ bundleIndex in
  let generated :=
    map (fun idx => {| name := slug label +:+ "-" +:+ ofZ (Z.of_nat idx + 1);
                       keypair := generate idx |})
      (seq 0 count) in
  (bundles ++ [{| bundleId := "bundle-" +:+ ofZ now; bundleLabel := label;
                  bundleWallets := generated |}],
   prev ++ map name generated).

(** The button pressed once per element of [requests], each time with
    that value of [generateCount]; [round] counts the presses. *)
Fixpoint generateMany (requests : list Z) (now : nat -> Z)
    (generate : nat -> nat -> Keypair) (round : nat)
    (bundles : list WalletBundle) (prev : list string)
    : list WalletBundle * list string :=
  match requests with
  | [] => (bundles, prev)
  | generateCount :: rest =>
      let (bundles', prev') :=
        handleGenerateWallets bundles prev generateCount (now round) (generate round) in
      generateMany rest now generate (S round) bundles' prev'
  end.

End Bundles.

(** ** Concrete cases for the dashboard, the parsers and the relay *)

Module Examples.
Import Scenario.

(** Every string is an address but one. *)
Definition addresses : Web3 :=
  {| newPublicKey := fun value =>
       if String.eqb value "not-a-key" then Throws "Invalid public key input"
       else Normal value |}.

Definition goodForm : Ui.Form :=
  {| Ui.apiBaseTrimmed := api; Ui.envApiKey := "";
     Ui.formMint := "M"; Ui.formDestination := "D";
     Ui.formAmount := "1.25"; Ui.formDecimals := 6;
     Ui.formPriorityFee := 7; Ui.formConcurrency := 0 |}.

Definition badForm : Ui.Form :=
  {| Ui.apiBaseTrimmed := api; Ui.envApiKey := "";
     Ui.formMint := "M"; Ui.formDestination := "D";
     Ui.formAmount := "1.2x"; Ui.formDecimals := 6;
     Ui.formPriorityFee := 0; Ui.formConcurrency := 8 |}.

(** Keys in base58 only, each of 64 bytes, but for the text ["short"]
    (3 bytes) and the text ["bad"] (not base58). *)
Definition textKeys : KeyFormats :=
  {| JsonValue := unit;
     jsonParse := fun _ => Throws "SyntaxError: Unexpected token";
     asArray := fun _ => None;
     toUint8 := fun _ => Byte.x00;
     bs58decode := fun text =>
       if String.eqb text "bad" then Throws "Non-base58 character"
       else if String.eqb text "short" then Normal (replicate 3 Byte.x00)
       else Normal (replicate 64 Byte.x00);
     keypairFromSecretKey := fun secret =>
       Normal {| publicKey := "P"; secretKey := "s" |} |}.

(** A node that takes every transaction and reports it as failed, and
    knows one account. *)
Definition node : Server.Rpc :=
  {| Server.getLatestBlockhash := fun _ => Normal hash0;
     Server.sendRawTransaction := fun _ => Normal "5igS";
     Server.confirmTransaction := fun _ _ _ => Normal (Some "InstructionError");
     Server.getMultipleAccountsInfo := fun _ => Normal [Some 5000%Z] |}.

(** The relay in front of it, with a key. *)
Definition keyedRelay : Relay :=
  Server.relayOf (web3 := addresses) (Some "secret") (fun _ => node).

End Examples.

(** * Properties *)

(** ** The amount normalizer *)

Section DecimalStrings.
Import JsString.
Local Open Scope Z_scope.

Lemma isDigit_not_point c : isDigit c = true -> Ascii.eqb c "."%char = false.
Proof.
  unfold isDigit. intros H.
  destruct (Ascii.eqb_spec c "."%char) as [->|]; [|done].
  vm_compute in H. discriminate.
Qed.

Lemma digitValue_range c : isDigit c = true -> 0 <= digitValue c <= 9.
Proof.
  unfold isDigit, digitValue. intros H.
  apply andb_true_iff in H as [H1 H2].
  apply Nat.leb_le in H1, H2. lia.
Qed.

Lemma split_digits s : allDigits s = true -> split "."%char s = [s].
Proof.
  induction s as [|c s IH]; simpl; [done|].
  intros H. apply andb_true_iff in H as [Hc Hs].
  rewrite (isDigit_not_point c Hc), (IH Hs). done.
Qed.

Lemma split_point whole rest :
  allDigits whole = true ->
  split "."%char (whole ++ "."%char :: rest) = whole :: split "."%char rest.
Proof.
  induction whole as [|c s IH]; simpl; [done|].
  intros H. apply andb_true_iff in H as [Hc Hs].
  rewrite (isDigit_not_point c Hc), (IH Hs). done.
Qed.

Lemma decimalValue_acc s acc :
  fold_left (fun a c => a * 10 + digitValue c) s acc
  = acc * 10 ^ Z.of_nat (length s) + decimalValue s.
Proof.
  unfold decimalValue. revert acc.
  induction s as [|c s IH]; intros acc; simpl fold_left.
  - simpl. lia.
  - rewrite IH, (IH (0 * 10 + digitValue c)).
    replace (Z.of_nat (length (c :: s))) with (Z.succ (Z.of_nat (length s)))
      by (simpl length; lia).
    rewrite Z.pow_succ_r by lia. ring.
Qed.

Lemma decimalValue_app a b :
  decimalValue (a ++ b) = decimalValue a * 10 ^ Z.of_nat (length b) + decimalValue b.
Proof.
  unfold decimalValue at 1. rewrite fold_left_app.
  fold (decimalValue a). apply decimalValue_acc.
Qed.

Lemma decimalValue_cons c s :
  decimalValue (c :: s) = digitValue c * 10 ^ Z.of_nat (length s) + decimalValue s.
Proof.
  change (c :: s) with ([c] ++ s). rewrite decimalValue_app.
  unfold decimalValue at 1. simpl. done.
Qed.

Lemma decimalValue_range s :
  allDigits s = true -> 0 <= decimalValue s < 10 ^ Z.of_nat (length s).
Proof.
  induction s as [|c s IH]; intros H.
  - unfold decimalValue. simpl. lia.
  - simpl in H. apply andb_true_iff in H as [Hc Hs].
    specialize (IH Hs). pose proof (digitValue_range c Hc).
    rewrite decimalValue_cons.
    replace (Z.of_nat (length (c :: s))) with (Z.succ (Z.of_nat (length s)))
      by (simpl length; lia).
    rewrite Z.pow_succ_r by lia. nia.
Qed.

Lemma decimalValue_zeros n : decimalValue (replicate n "0"%char) = 0.
Proof.
  induction n as [|n IH]; [done|].
  simpl replicate. rewrite decimalValue_cons, IH.
  change (digitValue "0"%char) with 0. lia.
Qed.

Lemma allDigits_app a b : allDigits (a ++ b) = allDigits a && allDigits b.
Proof. apply forallb_app. Qed.

Lemma allDigits_zeros n : allDigits (replicate n "0"%char) = true.
Proof. induction n; simpl; auto. Qed.

Lemma allDigits_take n s : allDigits s = true -> allDigits (take n s) = true.
Proof.
  revert n. induction s as [|c s IH]; intros [|n] H; simpl; try done.
  simpl in H. apply andb_true_iff in H as [Hc Hs].
  rewrite Hc. simpl. auto.
Qed.

(** Padding: exactly [d] digits, zeros appended or the excess cut. *)
Lemma padded_length (f : list ascii) d :
  length (take d (f ++ replicate d "0"%char)) = d.
Proof. rewrite length_take, length_app, length_replicate. lia. Qed.

Lemma padded_short (f : list ascii) d :
  (length f <= d)%nat ->
  take d (f ++ replicate d "0"%char) = f ++ replicate (d - length f) "0"%char.
Proof.
  intros H. rewrite take_app_ge by done. f_equal.
  rewrite take_replicate. f_equal. lia.
Qed.

Lemma padded_long (f : list ascii) d :
  (d <= length f)%nat -> take d (f ++ replicate d "0"%char) = take d f.
Proof. intros H. by rewrite take_app_le. Qed.

(** The padded fraction is the fraction scaled to [d] digits and cut,
    never rounded. *)
Lemma padded_value f d :
  allDigits f = true ->
  decimalValue (take d (f ++ replicate d "0"%char))
  = decimalValue f * 10 ^ Z.of_nat d / 10 ^ Z.of_nat (length f).
Proof.
  intros Hf. destruct (Nat.le_gt_cases (length f) d) as [Hle|Hgt].
  - rewrite padded_short by done.
    rewrite decimalValue_app, decimalValue_zeros, length_replicate, Z.add_0_r.
    replace (10 ^ Z.of_nat d)
      with (10 ^ Z.of_nat (d - length f) * 10 ^ Z.of_nat (length f))
      by (rewrite <- Z.pow_add_r by lia; f_equal; lia).
    rewrite Z.mul_assoc.
    rewrite Z.div_mul; [done|]. apply Z.pow_nonzero; lia.
  - rewrite padded_long by lia.
    rewrite <- (take_drop d f) at 2 3.
    rewrite decimalValue_app, length_app.
    assert (Hd : allDigits (drop d f) = true).
    { rewrite <- (take_drop d f) in Hf. rewrite allDigits_app in Hf.
      by apply andb_true_iff in Hf as [_ ?]. }
    pose proof (decimalValue_range _ Hd) as Hr.
    rewrite length_take, Nat.min_l by lia.
    set (x := decimalValue (take d f)) in *.
    set (y := decimalValue (drop d f)) in *.
    set (k := Z.of_nat (length (drop d f))) in *.
    replace (Z.of_nat (d + length (drop d f))) with (Z.of_nat d + k) by lia.
    rewrite Z.pow_add_r by lia.
    assert (0 < 10 ^ Z.of_nat d) by (apply Z.pow_pos_nonneg; lia).
    assert (0 < 10 ^ k) by (apply Z.pow_pos_nonneg; lia).
    rewrite (Z.mul_comm (_ + _)), Z.div_mul_cancel_l by lia.
    apply Z.div_unique with (r := y); lia.
Qed.

Lemma BigInt_digits s : allDigits s = true -> BigInt s = Normal (decimalValue s).
Proof. unfold BigInt. by intros ->. Qed.

End DecimalStrings.

Section Normalizer.
Import JsString Amount.
Local Open Scope Z_scope.

Lemma safeWhole_value whole :
  allDigits whole = true ->
  let safeWhole := match whole with [] => ["0"%char] | _ => whole end in
  someDigits safeWhole = true /\ BigInt safeWhole = Normal (decimalValue whole).
Proof.
  intros H. destruct whole as [|c s]; [by vm_compute|].
  split; [exact H|]. by apply BigInt_digits.
Qed.

Lemma padded_BigInt padded :
  allDigits padded = true ->
  BigInt (match padded with [] => ["0"%char] | _ => padded end)
  = Normal (decimalValue padded).
Proof.
  intros H. destruct padded as [|c s]; [by vm_compute|]. by apply BigInt_digits.
Qed.

(** [toRawAmount] once the two pieces it looks at are known. *)
Lemma toRawAmount_pieces (s : string) (d : nat) (parts : list (list ascii)) :
  trim (chars s) <> [] ->
  split "."%char (trim (chars s)) = parts ->
  allDigits (hd [] parts) = true ->
  allDigits (nth 1 parts []) = true ->
  toRawAmount s d
  = Normal (decimalValue (hd [] parts) * 10 ^ Z.of_nat d
            + decimalValue (take d (nth 1 parts [] ++ replicate d "0"%char))).
Proof.
  intros Hne Hsplit Hwhole Hfrac. unfold toRawAmount.
  destruct (trim (chars s)) as [|c rest] eqn:Htrim; [done|].
  cbv zeta. rewrite Hsplit.
  destruct (safeWhole_value _ Hwhole) as [Hsome Hbig].
  cbv zeta in Hsome, Hbig. rewrite Hsome, Hfrac, Hbig. simpl negb. simpl orb.
  rewrite padded_BigInt; [done|].
  apply allDigits_take. rewrite allDigits_app, Hfrac, allDigits_zeros. done.
Qed.

(** What [toRawAmount] does, in full: only the first two pieces of the
    split are looked at, and [BigInt] never throws. *)
Lemma toRawAmount_cases (s : string) (d : nat) :
  toRawAmount s d =
  match trim (chars s) with
  | [] => Throws "Amount is required"
  | _ =>
      let parts := split "."%char (trim (chars s)) in
      if allDigits (hd [] parts) && allDigits (nth 1 parts [])
      then Normal (decimalValue (hd [] parts) * 10 ^ Z.of_nat d
                   + decimalValue (take d (nth 1 parts [] ++ replicate d "0"%char)))
      else Throws "Amount must be numeric"
  end.
Proof.
  destruct (trim (chars s)) as [|c rest] eqn:Htrim.
  { unfold toRawAmount. by rewrite Htrim. }
  cbv zeta. rewrite <- Htrim.
  destruct (allDigits (hd [] (split "."%char (trim (chars s))))) eqn:Hwhole;
    [destruct (allDigits (nth 1 (split "."%char (trim (chars s))) [])) eqn:Hfrac|].
  - apply toRawAmount_pieces; try done. by rewrite Htrim.
  - unfold toRawAmount. rewrite Htrim, <- Htrim. cbv zeta. rewrite Hfrac.
    by rewrite orb_true_r.
  - unfold toRawAmount. rewrite Htrim, <- Htrim. cbv zeta.
    destruct (hd [] (split "."%char (trim (chars s)))) as [|c' rest'] eqn:Hhd;
      [done|].
    cbn [someDigits]. by rewrite Hwhole.
Qed.

Lemma render_pieces whole frac :
  AmountSpec.valid whole frac ->
  AmountSpec.render whole frac <> [] /\
  exists parts,
    split "."%char (AmountSpec.render whole frac) = parts /\
    hd [] parts = whole /\ nth 1 parts [] = default [] frac.
Proof.
  intros (Hw & Hf & Hne). unfold AmountSpec.render.
  destruct frac as [f|]; simpl in Hf.
  - split; [by destruct whole|].
    eexists. split; [rewrite split_point, split_digits by done; reflexivity|].
    done.
  - rewrite app_nil_r. split; [by apply Hne|].
    eexists. split; [rewrite split_digits by done; reflexivity|]. done.
Qed.

(** C3. The normalizer on the four sample inputs, and on every valid
    decimal string: the fraction is padded with zeros to exactly
    [decimals] digits or cut to them (the cut is a truncation, the
    value is the floor of the scaled fraction), and the result is
    integerPart * 10^decimals + paddedFraction. *)
Theorem toRawAmount_normalizes :
  toRawAmount "1.25" 6 = Normal 1250000 /\
  toRawAmount "5" 0 = Normal 5 /\
  toRawAmount "" 6 = Throws "Amount is required" /\
  toRawAmount "1.2x" 2 = Throws "Amount must be numeric" /\
  forall (s : string) (whole : list ascii) (frac : option (list ascii)) (d : nat),
    trim (chars s) = AmountSpec.render whole frac ->
    AmountSpec.valid whole frac ->
    let f := default [] frac in
    let padded := take d (f ++ replicate d "0"%char) in
    length padded = d /\
    ((length f <= d)%nat -> padded = f ++ replicate (d - length f) "0"%char) /\
    ((d <= length f)%nat -> padded = take d f) /\
    decimalValue padded = decimalValue f * 10 ^ Z.of_nat d / 10 ^ Z.of_nat (length f) /\
    toRawAmount s d = Normal (decimalValue whole * 10 ^ Z.of_nat d + decimalValue padded).
Proof.
  do 4 (split; [reflexivity|]).
  intros s whole frac d Htrim Hvalid f padded.
  destruct (render_pieces whole frac Hvalid) as (Hne & parts & Hsplit & Hhd & Hnth).
  pose proof Hvalid as (Hw & Hf & _).
  split; [apply padded_length|].
  split; [apply padded_short|].
  split; [apply padded_long|].
  split; [by apply padded_value|].
  rewrite <- Htrim in Hne, Hsplit.
  rewrite (toRawAmount_pieces s d parts Hne Hsplit); rewrite ?Hhd, ?Hnth; done.
Qed.

(** An amount with spaces around it and more fractional digits than
    decimals: 12.3456 at two decimals is 1234, not 1235. *)
Lemma toRawAmount_normalizes_witness :
  trim (chars " 12.3456 ") = AmountSpec.render (chars "12") (Some (chars "3456")) /\
  AmountSpec.valid (chars "12") (Some (chars "3456")) /\
  toRawAmount " 12.3456 " 2 = Normal 1234.
Proof.
  assert (Htrim : trim (chars " 12.3456 ")
                  = AmountSpec.render (chars "12") (Some (chars "3456")))
    by reflexivity.
  assert (Hvalid : AmountSpec.valid (chars "12") (Some (chars "3456"))).
  { split; [reflexivity | split; [reflexivity | discriminate]]. }
  split; [exact Htrim|]. split; [exact Hvalid|].
  pose proof (proj2 (proj2 (proj2 (proj2 toRawAmount_normalizes)))
                " 12.3456 "%string (chars "12") (Some (chars "3456")) 2%nat
                Htrim Hvalid) as H.
  cbv zeta in H. destruct H as (_ & _ & _ & _ & H). exact H.
Defined.

(** C4. More than one decimal point is accepted: only the first two
    pieces of the split are looked at, whatever follows the second
    point is ignored, digits or not. *)
Theorem toRawAmount_second_point_accepted :
  toRawAmount "1.2.3" 2 = Normal 120 /\
  toRawAmount "1.2.x" 2 = Normal 120 /\
  toRawAmount "1.2" 2 = Normal 120.
Proof. repeat split; reflexivity. Qed.

End Normalizer.

(** ** Running programs *)

Section Programs.

Lemma run_bind {A B : Type} (m : Prog A) (f : A -> Prog B) (w : World) :
  run (bind m f) w =
  match run m w with
  | (Normal a, w') => run (f a) w'
  | (Throws msg, w') => (Throws msg, w')
  end.
Proof.
  revert w. induction m as [a|msg|X e k IH]; intros w; simpl; try done.
  destruct (handle e w) as [x w']. apply IH.
Qed.

Lemma run_tryCatch {A : Type} (m : Prog A) (handler : string -> Prog A) (w : World) :
  run (tryCatch m handler) w =
  match run m w with
  | (Normal a, w') => (Normal a, w')
  | (Throws msg, w') => run (handler msg) w'
  end.
Proof.
  revert w. induction m as [a|msg|X e k IH]; intros w; simpl; try done.
  destruct (handle e w) as [x w']. apply IH.
Qed.

(** No effect replaces the relay, forgets an event or frees a
    transaction object. *)
Lemma handle_frame {X : Type} (e : Eff X) (w : World) :
  relay (handle e w).2 = relay w /\
  calls w <= calls (handle e w).2 /\
  length (txs w) <= length (txs (handle e w).2) /\
  exists evs, trace (handle e w).2 = trace w ++ evs.
Proof.
  destruct e; simpl; repeat split; try lia;
    try (rewrite ?length_app, ?length_alter; simpl; lia);
    try (by eexists); exists []; by rewrite app_nil_r.
Qed.

Lemma run_frame {A : Type} (m : Prog A) (w : World) :
  relay (run m w).2 = relay w /\
  calls w <= calls (run m w).2 /\
  length (txs w) <= length (txs (run m w).2) /\
  exists evs, trace (run m w).2 = trace w ++ evs.
Proof.
  revert w. induction m as [a|msg|X e k IH]; intros w; simpl.
  1,2: repeat split; try lia; exists []; by rewrite app_nil_r.
  pose proof (handle_frame e w) as (Hr & Hc & Ht & evs & Hevs).
  destruct (handle e w) as [x w1]. simpl in *.
  destruct (IH x w1) as (Hr' & Hc' & Ht' & evs' & Hevs').
  repeat split; [congruence | lia | lia |].
  exists (evs ++ evs'). rewrite Hevs', Hevs. by rewrite app_assoc.
Qed.

End Programs.

(** ** Bounded, non-throwing programs *)

Section Behaviour.
Context (G : World -> Prop).

Lemma behaves_mono {A : Type} (P : A -> Prop) (E : string -> Prop) (p : Prog A) :
  forall n n', n <= n' -> behaves G P E n p -> behaves G P E n' p.
Proof.
  induction p as [a|msg|X e k IH]; intros n n' Hle Hp; simpl in *; try done.
  destruct n as [|n]; simpl in *; [done|]. destruct n' as [|n']; [lia|].
  intros w Hw. apply (IH _ n); [lia|]. by apply Hp.
Qed.

Lemma behaves_weaken {A : Type} (P P' : A -> Prop) (E E' : string -> Prop)
    (p : Prog A) :
  (forall a, P a -> P' a) -> (forall msg, E msg -> E' msg) ->
  forall n, behaves G P E n p -> behaves G P' E' n p.
Proof.
  intros HP HE. induction p as [a|msg|X e k IH]; intros n Hp; simpl in *; auto.
  destruct n as [|n]; [done|]. intros w Hw. apply IH. by apply Hp.
Qed.

Lemma behaves_bind {A B : Type} (Q : A -> Prop) (P : B -> Prop) (E : string -> Prop)
    (m : Prog A) (f : A -> Prog B) (k : nat) :
  forall n,
    behaves G Q E n m ->
    (forall a, Q a -> behaves G P E k (f a)) ->
    behaves G P E (n + k) (bind m f).
Proof.
  induction m as [a|msg|X e c IH]; intros n Hm Hf; simpl in *.
  - apply (behaves_mono P E (f a) k); [lia | by apply Hf].
  - done.
  - destruct n as [|n]; [done|]. simpl. intros w Hw. apply IH; [by apply Hm | done].
Qed.

Lemma behaves_tryCatch {A : Type} (P : A -> Prop) (E E' : string -> Prop)
    (m : Prog A) (handler : string -> Prog A) (k : nat) :
  forall n,
    behaves G P E' n m ->
    (forall msg, E' msg -> behaves G P E k (handler msg)) ->
    behaves G P E (n + k) (tryCatch m handler).
Proof.
  induction m as [a|msg|X e c IH]; intros n Hm Hh; simpl in *.
  - done.
  - apply (behaves_mono P E (handler msg) k); [lia | by apply Hh].
  - destruct n as [|n]; [done|]. simpl. intros w Hw. apply IH; [by apply Hm | done].
Qed.

Lemma behaves_perform {X : Type} (P : X -> Prop) (E : string -> Prop) (e : Eff X) :
  (forall w, G w -> P (handle e w).1) -> behaves G P E 1 (perform e).
Proof. intros He. simpl. intros w Hw. by apply He. Qed.

End Behaviour.

(** ** The relay client *)

Section Client.
Import Solana.

(** C10. [fetchBalances] on an empty list of addresses is the empty
    mapping and performs no effect: the program is a bare return, and
    running it leaves the world (the relay's call count and the log of
    requests) as it was, for every [apiBase] and [apiKey]. *)
Theorem fetchBalances_empty (apiBase : string) (apiKey : option string) :
  fetchBalances [] apiBase apiKey = Ret ∅ /\
  forall w : World,
    run (fetchBalances [] apiBase apiKey) w = (Normal ∅, w).
Proof. split; [reflexivity | intros w; reflexivity]. Qed.

(** A list that is not empty does reach the relay. *)
Lemma fetchBalances_calls (key : PublicKey) (more : list PublicKey)
    (apiBase : string) (apiKey : option string) (w : World) :
  calls (run (fetchBalances (key :: more) apiBase apiKey) w).2 = S (calls w).
Proof.
  simpl. destruct (balancesReply _ _ _ _); reflexivity.
Qed.

End Client.

(** ** The transaction builder *)

Section Builder.
Import Solana RunSpec.
Context `{token : SplToken}.

Lemma alter_last {A : Type} (f : A -> A) (l : list A) (x : A) :
  alter f (length l) (l ++ [x]) = l ++ [f x].
Proof.
  replace (length l) with (length l + 0) by lia.
  by rewrite alter_app_r.
Qed.

Lemma run_applyBlockhash (tx : nat) (signer : Keypair) (info : BlockhashInfo) (w : World) :
  run (applyBlockhash tx signer info) w
  = (Normal tt, withTxs (alter (rebound signer info) tx (txs w)) w).
Proof.
  unfold applyBlockhash, rebound. simpl. unfold withTxs. simpl.
  do 2 f_equal. by rewrite !list_alter_alter_eq.
Qed.

Lemma behaves_applyBlockhash (G : World -> Prop) (E : string -> Prop) (tx : nat)
    (signer : Keypair) (info : BlockhashInfo) :
  behaves G (fun _ => True) E 3 (applyBlockhash tx signer info).
Proof. simpl. done. Qed.

(** The builder allocates one transaction object and leaves in it the
    transaction of the specification. *)
Lemma run_buildTransferTx (from : Keypair) (plan : TransferPlan) (info : BlockhashInfo)
    (fromAta toAta : PublicKey) (w : World) :
  getAssociatedTokenAddress (mint plan) (publicKey from) = Normal fromAta ->
  getAssociatedTokenAddress (mint plan) (destination plan) = Normal toAta ->
  run (buildTransferTx from plan info) w
  = (Normal (length (txs w)),
     withTxs (txs w ++ [expectedTransaction from plan info fromAta toAta]) w).
Proof.
  intros Hfrom Hto. unfold buildTransferTx. rewrite Hfrom, Hto.
  unfold expectedTransaction, expectedInstructions, wantsPriorityFee.
  destruct (priorityFeeMicrolamports plan) as [fee|]; [destruct (0 <? fee)%Z|];
    simpl; unfold withTxs; simpl; rewrite !alter_last; reflexivity.
Qed.


(** Rebinding a built transaction gives what the builder gives for the
    fresh hash. *)
Lemma rebound_expected (from : Keypair) (plan : TransferPlan)
    (info fresh : BlockhashInfo) (fromAta toAta : PublicKey) :
  rebound from fresh (expectedTransaction from plan info fromAta toAta)
  = expectedTransaction from plan fresh fromAta toAta.
Proof. reflexivity. Qed.

End Builder.

(** ** Submission with retry *)

Section Retry.
Import Solana RunSpec.

Variables (tx : nat) (walletName : string) (signer : Keypair).
Variables (apiBase : string) (apiKey : option string).

Local Abbreviation failed := (RunSpec.failed walletName).
Local Abbreviation confirmed := (RunSpec.confirmed walletName).
Local Abbreviation submitted := (RunSpec.submitted tx).
Local Abbreviation replyAt := (RunSpec.replyAt apiBase apiKey tx).
Local Abbreviation afterSubmit := (RunSpec.afterSubmit apiBase apiKey tx).

Lemma replyAt_0 (w : World) :
  replyAt w 0
  = sendRawReply (relay w) (calls w) (sendRawRequest apiBase apiKey) (submitted w).
Proof. unfold RunSpec.replyAt. by rewrite Nat.add_0_r. Qed.

Lemma run_submitOnce (w : World) :
  run (submitOnce tx walletName apiBase apiKey) w
  = (match replyAt w 0 with
     | Ok sig => Normal (Some (confirmed sig))
     | FetchFailed msg => Throws msg
     | NotOk status errorField => Throws (sendRawFailure status errorField)
     end, afterSubmit w).
Proof.
  unfold RunSpec.afterSubmit. rewrite replyAt_0.
  unfold RunSpec.submitted, bodyOf, sendRawRequest.
  simpl. destruct (sendRawReply _ _ _ _); reflexivity.
Qed.

(** One iteration of the loop: an accepted submission returns, a failed
    one enters the [catch] block with the failure message. *)
Lemma run_attempt (getBlockhash : Prog BlockhashInfo) (maxRetries attempt : nat)
    (w : World) :
  run (tryCatch (submitOnce tx walletName apiBase apiKey)
         (onFailure tx walletName signer getBlockhash maxRetries attempt)) w
  = match replyAt w 0 with
    | Ok sig => (Normal (Some (confirmed sig)), afterSubmit w)
    | reply =>
        run (onFailure tx walletName signer getBlockhash maxRetries attempt
               (default "" (failureOf reply))) (afterSubmit w)
    end.
Proof.
  rewrite run_tryCatch, run_submitOnce.
  destruct (replyAt w 0); reflexivity.
Qed.

Lemma run_sendLoop_step (getBlockhash : Prog BlockhashInfo)
    (maxRetries remaining attempt : nat) (w : World) :
  run (sendLoop (S remaining) attempt tx walletName signer apiBase apiKey
         getBlockhash maxRetries) w
  = match run (tryCatch (submitOnce tx walletName apiBase apiKey)
                 (onFailure tx walletName signer getBlockhash maxRetries attempt)) w with
    | (Normal (Some result), w') => (Normal result, w')
    | (Normal None, w') =>
        run (sendLoop remaining (S attempt) tx walletName signer apiBase apiKey
               getBlockhash maxRetries) w'
    | (Throws msg, w') => (Throws msg, w')
    end.
Proof.
  cbn [sendLoop]. rewrite run_bind.
  destruct (run (tryCatch _ _) w) as [[[result|]|msg] w']; reflexivity.
Qed.

(** The [catch] block on a failure that is not a staleness failure:
    no refresh; the last attempt returns the message, an earlier one
    waits [150 * attempt] milliseconds. *)
Lemma run_onFailure_other (getBlockhash : Prog BlockhashInfo)
    (maxRetries attempt : nat) (msg : string) (w : World) :
  needsHash msg = false ->
  run (onFailure tx walletName signer getBlockhash maxRetries attempt msg) w
  = if Nat.eqb attempt maxRetries then (Normal (Some (failed msg)), w)
    else (Normal None, logged (EvTimeout (150 * Z.of_nat attempt)) w).
Proof.
  intros Hmsg. unfold onFailure. rewrite Hmsg.
  destruct (Nat.eqb attempt maxRetries); reflexivity.
Qed.

(** The [catch] block on a staleness failure, with the refresh the
    dispatcher passes: the hash is fetched and cached and the
    transaction object is rebound where it is; a failed fetch is
    thrown out of the block. *)
Lemma run_onFailure_stale (maxRetries attempt : nat) (msg : string) (w : World) :
  needsHash msg = true ->
  run (onFailure tx walletName signer (Batch.nextBh apiBase apiKey)
         maxRetries attempt msg) w
  = let reply := blockhashReply (relay w) (calls w) (blockhashRequest apiBase apiKey) in
    let w1 := answered (EvBlockhash (blockhashRequest apiBase apiKey) reply) w in
    match reply with
    | Ok fresh =>
        let w2 := withTxs (alter (rebound signer fresh) tx (txs w))
                    (withCachedBh fresh w1) in
        if Nat.eqb attempt maxRetries then (Normal (Some (failed msg)), w2)
        else (Normal None, logged (EvTimeout (150 * Z.of_nat attempt)) w2)
    | FetchFailed e => (Throws e, w1)
    | NotOk status _ => (Throws ("Blockhash fetch failed: " ++ JsString.ofZ status), w1)
    end.
Proof.
  intros Hmsg. unfold onFailure. rewrite Hmsg. cbv zeta.
  rewrite run_bind. cbv iota. rewrite run_bind.
  unfold Batch.nextBh, fetchBlockhash, blockhashRequest. simpl run at 1.
  destruct (blockhashReply _ _ _) as [e|status errorField|fresh]; try reflexivity.
  cbn [run bind handle]. rewrite run_applyBlockhash.
  destruct (Nat.eqb attempt maxRetries); reflexivity.
Qed.

(** *** Failures that are not staleness failures *)

Lemma flat_map_seq_shift {A : Type} (f : nat -> list A) (n a : nat) :
  flat_map f (seq (S a) n) = flat_map (fun j => f (S j)) (seq a n).
Proof.
  revert a. induction n as [|n IH]; intros a; simpl; [done|]. by rewrite IH.
Qed.

Lemma replyAt_next (ev : Event) (w : World) (k : nat) :
  replyAt (logged ev (afterSubmit w)) k = replyAt w (S k).
Proof.
  unfold RunSpec.replyAt, RunSpec.submitted. simpl. f_equal. lia.
Qed.

Lemma attemptEvents_next (ev : Event) (w : World) (maxRetries first j : nat) :
  attemptEvents apiBase apiKey tx (logged ev (afterSubmit w)) maxRetries (S first) j
  = attemptEvents apiBase apiKey tx w maxRetries first (S j).
Proof.
  unfold attemptEvents. rewrite replyAt_next.
  replace (S first + j) with (first + S j) by lia. reflexivity.
Qed.

Lemma failureOf_default (reply : HttpReply string) (msg : string) :
  failureOf reply = Some msg -> default "" (failureOf reply) = msg.
Proof. by intros ->. Qed.

(** The loop from attempt [attempt] on, when every submission left
    fails for a reason other than staleness. *)
Lemma sendLoop_failures (getBlockhash : Prog BlockhashInfo) (maxRetries : nat) :
  forall (remaining attempt : nat) (w : World),
    attempt + remaining = S maxRetries ->
    1 <= remaining ->
    (forall k, k < remaining ->
       exists msg, failureOf (replyAt w k) = Some msg /\ needsHash msg = false) ->
    exists last w',
      run (sendLoop remaining attempt tx walletName signer apiBase apiKey
             getBlockhash maxRetries) w = (Normal (failed last), w') /\
      failureOf (replyAt w (remaining - 1)) = Some last /\
      trace w' = trace w ++
        flat_map (attemptEvents apiBase apiKey tx w maxRetries attempt) (seq 0 remaining).
Proof.
  induction remaining as [|remaining IH]; intros attempt w Hsum Hpos Hfail; [lia|].
  destruct (Hfail 0) as (msg & Hmsg & Hother); [lia|].
  rewrite run_sendLoop_step, run_attempt.
  assert (Hrun :
    match replyAt w 0 with
    | Ok sig => (Normal (Some (confirmed sig)), afterSubmit w)
    | reply =>
        run (onFailure tx walletName signer getBlockhash maxRetries attempt
               (default "" (failureOf reply))) (afterSubmit w)
    end
    = run (onFailure tx walletName signer getBlockhash maxRetries attempt msg)
        (afterSubmit w)).
  { destruct (replyAt w 0); simpl in Hmsg; by simplify_eq. }
  rewrite Hrun, run_onFailure_other by done. clear Hrun.
  destruct (Nat.eqb_spec attempt maxRetries) as [Heq|Hne].
  - assert (remaining = 0) as -> by lia.
    exists msg, (afterSubmit w). split; [done|]. split; [done|].
    simpl. unfold attemptEvents.
    replace (attempt + 0 <? maxRetries)%nat with false
      by (symmetry; apply Nat.ltb_ge; lia).
    by rewrite app_nil_r.
  - set (w1 := logged (EvTimeout (150 * Z.of_nat attempt)) (afterSubmit w)).
    destruct (IH (S attempt) w1) as (last & w' & Hrun & Hlast & Htrace);
      [lia | lia | |].
    { intros k Hk. unfold w1. rewrite replyAt_next. apply Hfail. lia. }
    exists last, w'. split; [done|]. split.
    { unfold w1 in Hlast. rewrite replyAt_next in Hlast.
      replace (S remaining - 1) with (S (remaining - 1)) by lia. done. }
    rewrite Htrace. cbn [seq flat_map]. rewrite flat_map_seq_shift.
    unfold w1 at 1. simpl trace. rewrite <- !app_assoc. f_equal.
    unfold attemptEvents at 2.
    replace (attempt + 0 <? maxRetries)%nat with true
      by (symmetry; apply Nat.ltb_lt; lia).
    rewrite Nat.add_0_r. simpl. do 2 f_equal.
    apply flat_map_ext. intros j. apply attemptEvents_next.
Qed.

Lemma timeoutsIn_attempts (w : World) (maxRetries first : nat) :
  forall n a,
    timeoutsIn (flat_map (attemptEvents apiBase apiKey tx w maxRetries first) (seq a n))
    = flat_map (fun j => if (first + j <? maxRetries)%nat
                         then [(150 * Z.of_nat (first + j))%Z] else []) (seq a n).
Proof.
  induction n as [|n IH]; intros a; [done|].
  cbn [seq flat_map]. rewrite <- IH. unfold attemptEvents at 1.
  destruct (first + a <? maxRetries)%nat; reflexivity.
Qed.

Lemma waits_before_last (maxRetries first : nat) :
  forall n a,
    first + a + n <= maxRetries ->
    flat_map (fun j => if (first + j <? maxRetries)%nat
                       then [(150 * Z.of_nat (first + j))%Z] else []) (seq a n)
    = map (fun j => (150 * Z.of_nat (first + j))%Z) (seq a n).
Proof.
  induction n as [|n IH]; intros a Hle; [done|].
  cbn [seq flat_map map]. rewrite IH by lia.
  replace (first + a <? maxRetries)%nat with true
    by (symmetry; apply Nat.ltb_lt; lia).
  reflexivity.
Qed.

(** C8. A signer run whose attempts all fail for a reason other than
    staleness: it submits [maxRetries] times, waits 150 ms times the
    attempt number after every attempt but the last (150, 300, ...: the
    wait grows linearly), and ends with the outcome whose error is the
    message of the last failure.  [defaultMaxRetries] is 3. *)
Theorem sendWithRetry_exhausts_with_linear_backoff
    (getBlockhash : Prog BlockhashInfo) (maxRetries : nat) (w : World) :
  1 <= maxRetries ->
  (forall k, k < maxRetries ->
     exists msg, failureOf (replyAt w k) = Some msg /\ needsHash msg = false) ->
  exists (last : string) (evs : list Event) (w' : World),
    run (sendWithRetry tx walletName signer apiBase apiKey getBlockhash maxRetries) w
      = (Normal (failed last), w') /\
    failureOf (replyAt w (maxRetries - 1)) = Some last /\
    trace w' = trace w ++ evs /\
    evs = flat_map (attemptEvents apiBase apiKey tx w maxRetries 1) (seq 0 maxRetries) /\
    timeoutsIn evs
      = map (fun attempt => (150 * Z.of_nat attempt)%Z) (seq 1 (maxRetries - 1)) /\
    defaultMaxRetries = 3.
Proof.
  intros Hpos Hfail. unfold sendWithRetry.
  destruct (sendLoop_failures getBlockhash maxRetries maxRetries 1 w)
    as (last & w' & Hrun & Hlast & Htrace); [lia | lia | done |].
  exists last, (flat_map (attemptEvents apiBase apiKey tx w maxRetries 1)
                  (seq 0 maxRetries)), w'.
  repeat split; try done.
  rewrite timeoutsIn_attempts.
  replace (seq 0 maxRetries) with (seq 0 (maxRetries - 1) ++ [maxRetries - 1]).
  2: { replace maxRetries with (S (maxRetries - 1)) at 3 by lia. by rewrite seq_S. }
  rewrite flat_map_app, waits_before_last by lia. cbn [flat_map].
  replace (1 + (maxRetries - 1) <? maxRetries)%nat with false
    by (symmetry; apply Nat.ltb_ge; lia).
  rewrite !app_nil_r, <- seq_shift, map_map. reflexivity.
Qed.

(** *** Every outcome, whatever is interleaved *)

Section Loop.
Variables (G : World -> Prop) (E : string -> Prop).
Variables (getBlockhash : Prog BlockhashInfo) (maxRetries : nat).

Local Abbreviation returning :=
  (fun step : option WalletSendResult =>
     forall r, step = Some r -> outcomeOf walletName r).

Lemma behaves_submitOnce :
  behaves G returning (fun _ => True) 2 (submitOnce tx walletName apiBase apiKey).
Proof.
  simpl. intros w _ w' _. destruct (sendRawReply _ _ _ _); simpl; try done.
  intros r [= <-]. split; [done|]. left. by split; [eexists|].
Qed.

Lemma behaves_onFailure (attempt : nat) (msg : string) :
  behaves G (fun _ => True) E 2 getBlockhash ->
  behaves G returning E 6
    (onFailure tx walletName signer getBlockhash maxRetries attempt msg).
Proof.
  intros Hrefresh. unfold onFailure.
  apply (behaves_bind G (fun _ => True) _ _ _ _ 1 5).
  - destruct (needsHash msg); [|done].
    apply (behaves_bind G (fun _ => True) _ _ _ _ 3 2 Hrefresh).
    intros fresh _. apply behaves_applyBlockhash.
  - intros _ _. destruct (Nat.eqb attempt maxRetries); simpl; [|done].
    intros r [= <-]. split; [done|]. right. by split; [|eexists].
Qed.

Lemma behaves_attempt (attempt : nat) :
  behaves G (fun _ => True) E 2 getBlockhash ->
  behaves G returning E 8
    (tryCatch (submitOnce tx walletName apiBase apiKey)
       (onFailure tx walletName signer getBlockhash maxRetries attempt)).
Proof.
  intros Hrefresh.
  apply (behaves_tryCatch G _ _ (fun _ => True) _ _ 6 2 behaves_submitOnce).
  intros msg _. by apply behaves_onFailure.
Qed.

(** The loop ends within eight effects per iteration, and what it
    returns is an outcome of this signer with exactly one field set. *)
Lemma behaves_sendLoop :
  behaves G (fun _ => True) E 2 getBlockhash ->
  forall remaining attempt,
    behaves G (outcomeOf walletName) E (8 * remaining)
      (sendLoop remaining attempt tx walletName signer apiBase apiKey
         getBlockhash maxRetries).
Proof.
  intros Hrefresh.
  induction remaining as [|remaining IH]; intros attempt.
  - simpl. split; [done|]. right. by split; [|eexists].
  - cbn [sendLoop].
    apply (behaves_mono G _ _ _ (8 + 8 * remaining)); [lia|].
    apply (behaves_bind G returning _ _ _ _ (8 * remaining) 8
             (behaves_attempt attempt Hrefresh)).
    intros [r|] Hr; [by apply Hr | apply IH].
Qed.

End Loop.

Lemma behaves_nextBh_any :
  behaves (fun _ => True) (fun _ => True) (fun _ => True) 2
    (Batch.nextBh apiBase apiKey).
Proof. simpl. intros w _. destruct (blockhashReply _ _ _); simpl; done. Qed.

(** *** Outcomes *)

Lemma acceptedIn_app_none (pre evs : list Event) :
  acceptedIn pre = None -> acceptedIn (pre ++ evs) = acceptedIn evs.
Proof.
  induction pre as [|ev pre IH]; [done|].
  destruct ev as [| req body [| |sig] | | |]; simpl; auto. done.
Qed.

(** One iteration with the dispatcher's refresh, by cases: what it
    logs, that it allocates no transaction, and how it ends. *)
Lemma attempt_cases (maxRetries attempt : nat) (w : World) :
  exists pre : list Event,
    let res := run (tryCatch (submitOnce tx walletName apiBase apiKey)
                      (onFailure tx walletName signer (Batch.nextBh apiBase apiKey)
                         maxRetries attempt)) w in
    trace res.2 = trace w ++ pre /\
    length (txs res.2) = length (txs w) /\
    match res.1 with
    | Normal (Some r) =>
        (exists sig, r = confirmed sig /\ acceptedIn pre = Some sig) \/
        (exists msg, r = failed msg /\ acceptedIn pre = None)
    | Normal None => acceptedIn pre = None
    | Throws _ => acceptedIn pre = None
    end.
Proof.
  rewrite run_attempt.
  destruct (replyAt w 0) as [e|status errorField|sig] eqn:Hreply.
  3: { eexists. cbv zeta. split; [reflexivity|]. split; [reflexivity|].
       left. exists sig. split; [done|]. simpl. by rewrite Hreply. }
  all: match goal with
       | |- context [run (onFailure _ _ _ _ _ _ ?m) _] =>
           destruct (needsHash m) eqn:Hstale
       end.
  all: rewrite ?run_onFailure_stale, ?run_onFailure_other by done; cbv zeta.
  all: try destruct (blockhashReply _ _ _) as [e'|status' errorField'|fresh].
  all: destruct (Nat.eqb attempt maxRetries).
  all: eexists; (split; [simpl; rewrite <- ?app_assoc; reflexivity|]).
  all: (split; [simpl; by rewrite ?length_alter|]).
  all: simpl; rewrite Hreply; try done.
  all: right; eexists; done.
Qed.

Lemma sendLoop_outcome (maxRetries : nat) :
  forall (remaining attempt : nat) (w : World),
    exists evs : list Event,
      let res := run (sendLoop remaining attempt tx walletName signer apiBase apiKey
                        (Batch.nextBh apiBase apiKey) maxRetries) w in
      trace res.2 = trace w ++ evs /\
      length (txs res.2) = length (txs w) /\
      match res.1 with
      | Normal r =>
          wallet r = walletName /\
          ((exists sig, signature r = Some sig /\ error r = None /\
                        acceptedIn evs = Some sig) \/
           (exists msg, signature r = None /\ error r = Some msg /\
                        acceptedIn evs = None))
      | Throws _ => acceptedIn evs = None
      end.
Proof.
  induction remaining as [|remaining IH]; intros attempt w.
  - exists []. simpl. rewrite app_nil_r. repeat split. right. by eexists.
  - destruct (attempt_cases maxRetries attempt w) as (pre & Htrace & Hlen & Hcase).
    cbv zeta in *. rewrite run_sendLoop_step.
    destruct (run (tryCatch _ _) w) as [[[r|]|msg] w1]; simpl in Htrace, Hlen, Hcase.
    + exists pre. simpl. repeat split; try done;
        destruct Hcase as [(sig & -> & Hacc)|(msg & -> & Hacc)]; try done.
      * left. by exists sig.
      * right. by exists msg.
    + destruct (IH (S attempt) w1) as (evs & Htrace' & Hlen' & Hres).
      exists (pre ++ evs). cbv zeta in *.
      rewrite Htrace', Htrace, Hlen', Hlen, app_assoc, acceptedIn_app_none by done.
      done.
    + by exists pre.
Qed.

(** C5. Every outcome of a signer run names the wallet and has exactly
    one of [signature] and [error] set, whatever the relay answers and
    whatever other runs do in between.  Run on its own: the signature
    is set when a submission of the run was accepted (it is the accepted
    submission's signature), the error when none was; and a run that
    ends without an outcome (the refresh threw) had no accepted
    submission either. *)
Theorem sendWithRetry_outcome_exclusive (maxRetries : nat) (w : World) :
  behaves (fun _ => True) (outcomeOf walletName) (fun _ => True) (8 * maxRetries)
    (sendWithRetry tx walletName signer apiBase apiKey
       (Batch.nextBh apiBase apiKey) maxRetries) /\
  exists evs : list Event,
    let res := run (sendWithRetry tx walletName signer apiBase apiKey
                      (Batch.nextBh apiBase apiKey) maxRetries) w in
    trace res.2 = trace w ++ evs /\
    match res.1 with
    | Normal r =>
        wallet r = walletName /\
        ((exists sig, signature r = Some sig /\ error r = None /\
                      acceptedIn evs = Some sig) \/
         (exists msg, signature r = None /\ error r = Some msg /\
                      acceptedIn evs = None))
    | Throws _ => acceptedIn evs = None
    end.
Proof.
  split.
  { apply behaves_sendLoop, behaves_nextBh_any. }
  destruct (sendLoop_outcome maxRetries maxRetries 1 w) as (evs & Htrace & _ & Hres).
  by exists evs.
Qed.

(** *** Staleness *)

(** Whatever follows, an iteration first logs its submission. *)
Lemma sendLoop_first_event (maxRetries remaining attempt : nat) (w : World) :
  exists rest : list Event,
    trace (run (sendLoop (S remaining) attempt tx walletName signer apiBase apiKey
                  (Batch.nextBh apiBase apiKey) maxRetries) w).2
    = trace (afterSubmit w) ++ rest.
Proof.
  rewrite run_sendLoop_step, run_attempt.
  assert (Hafter : forall (m : Prog (option WalletSendResult)),
    exists rest,
      trace (match run m (afterSubmit w) with
             | (Normal (Some result), w') => (Normal result, w')
             | (Normal None, w') =>
                 run (sendLoop remaining (S attempt) tx walletName signer apiBase
                        apiKey (Batch.nextBh apiBase apiKey) maxRetries) w'
             | (Throws msg, w') => (Throws msg, w')
             end).2 = trace (afterSubmit w) ++ rest).
  { intros m. pose proof (run_frame m (afterSubmit w)) as (_ & _ & _ & evs & Hevs).
    destruct (run m (afterSubmit w)) as [[[r|]|msg] w1]; simpl in *; try by exists evs.
    pose proof (run_frame (sendLoop remaining (S attempt) tx walletName signer apiBase
                  apiKey (Batch.nextBh apiBase apiKey) maxRetries) w1)
      as (_ & _ & _ & evs' & Hevs').
    exists (evs ++ evs'). by rewrite Hevs', Hevs, app_assoc. }
  destruct (replyAt w 0) as [e|status errorField|sig]; try apply Hafter.
  exists []. by rewrite app_nil_r.
Qed.

(** A refresh that fails is not caught: it ends the run with the
    refresh's error, whatever the attempt and however many are left. *)
Lemma sendWithRetry_refresh_failure_escapes (maxRetries : nat) (w : World)
    (msg : string) (status : Z) (errorField : option string) :
  1 <= maxRetries ->
  failureOf (replyAt w 0) = Some msg ->
  needsHash msg = true ->
  blockhashReply (relay w) (S (calls w)) (blockhashRequest apiBase apiKey)
    = NotOk status errorField ->
  (run (sendWithRetry tx walletName signer apiBase apiKey
          (Batch.nextBh apiBase apiKey) maxRetries) w).1
  = Throws ("Blockhash fetch failed: " ++ JsString.ofZ status).
Proof.
  intros Hmax Hfail Hstale Hrefresh. unfold sendWithRetry.
  destruct maxRetries as [|remaining]; [lia|].
  rewrite run_sendLoop_step, run_attempt.
  assert (Hrun :
    match replyAt w 0 with
    | Ok sig => (Normal (Some (confirmed sig)), afterSubmit w)
    | reply =>
        run (onFailure tx walletName signer (Batch.nextBh apiBase apiKey)
               (S remaining) 1 (default "" (failureOf reply))) (afterSubmit w)
    end
    = run (onFailure tx walletName signer (Batch.nextBh apiBase apiKey)
             (S remaining) 1 msg) (afterSubmit w)).
  { destruct (replyAt w 0); simpl in Hfail; by simplify_eq. }
  rewrite Hrun, run_onFailure_stale by done. cbv zeta.
  change (calls (afterSubmit w)) with (S (calls w)).
  change (relay (afterSubmit w)) with (relay w).
  by rewrite Hrefresh.
Qed.

(** C7, as the code has it.  When a submission fails with a staleness
    error and attempts remain, the run fetches a fresh hash and rebinds
    the transaction object it already holds: the object stays where it
    is and no transaction is allocated; its hash and expiry height are
    set to the fresh ones and it is signed again by the same signer,
    fee payer and instructions untouched.  The run then waits 150 ms
    times the attempt number and submits that object.  For a
    transaction that came from the builder, the rebound transaction is
    the one the builder gives for the same signer and plan with the
    fresh hash.  The statement is about the loop at any attempt but the
    last; [sendWithRetry] is the loop from attempt 1. *)
Theorem staleness_rebinds_in_place (maxRetries remaining attempt : nat) (w : World)
    (t : Transaction) (msg : string) (fresh : BlockhashInfo) :
  attempt + S (S remaining) = S maxRetries ->
  txs w !! tx = Some t ->
  failureOf (replyAt w 0) = Some msg ->
  needsHash msg = true ->
  blockhashReply (relay w) (S (calls w)) (blockhashRequest apiBase apiKey) = Ok fresh ->
  let patched := rebound signer fresh t in
  let w' := (run (sendLoop (S (S remaining)) attempt tx walletName signer apiBase
                    apiKey (Batch.nextBh apiBase apiKey) maxRetries) w).2 in
  length (txs w') = length (txs w) /\
  (exists (reply : HttpReply string) (rest : list Event),
     trace w' = trace w ++
       [ EvSendRaw (sendRawRequest apiBase apiKey) (bodyOf t) (replyAt w 0);
         EvBlockhash (blockhashRequest apiBase apiKey) (Ok fresh);
         EvTimeout (150 * Z.of_nat attempt);
         EvSendRaw (sendRawRequest apiBase apiKey) (bodyOf patched) reply ] ++ rest) /\
  feePayer patched = feePayer t /\
  instructions patched = instructions t /\
  recentBlockhash patched = Some (blockhash fresh) /\
  txLastValidBlockHeight patched = Some (lastValidBlockHeight fresh) /\
  signatures patched
    = [ {| sigPublicKey := publicKey signer; sigSecretKey := secretKey signer;
           sigMessage := Tx.compileMessage patched |} ] /\
  (forall (plan : TransferPlan) (info : BlockhashInfo) (fromAta toAta : PublicKey),
     t = expectedTransaction signer plan info fromAta toAta ->
     patched = expectedTransaction signer plan fresh fromAta toAta) /\
  sendWithRetry tx walletName signer apiBase apiKey (Batch.nextBh apiBase apiKey)
    maxRetries
  = sendLoop maxRetries 1 tx walletName signer apiBase apiKey
      (Batch.nextBh apiBase apiKey) maxRetries.
Proof.
  intros Hleft Htx Hfail Hstale Hfresh patched w'.
  split.
  { subst w'.
    by destruct (sendLoop_outcome maxRetries (S (S remaining)) attempt w)
      as (evs & _ & Hlen & _). }
  split; [|repeat split; intros; subst; reflexivity].
  subst w'.
  rewrite run_sendLoop_step, run_attempt.
  assert (Hsub : submitted w = bodyOf t).
  { unfold RunSpec.submitted. by rewrite Htx. }
  assert (Hrun :
    match replyAt w 0 with
    | Ok sig => (Normal (Some (confirmed sig)), afterSubmit w)
    | reply =>
        run (onFailure tx walletName signer (Batch.nextBh apiBase apiKey)
               maxRetries attempt (default "" (failureOf reply))) (afterSubmit w)
    end
    = run (onFailure tx walletName signer (Batch.nextBh apiBase apiKey)
             maxRetries attempt msg) (afterSubmit w)).
  { destruct (replyAt w 0); simpl in Hfail; by simplify_eq. }
  rewrite Hrun, run_onFailure_stale by done. clear Hrun. cbv zeta.
  change (calls (afterSubmit w)) with (S (calls w)).
  change (relay (afterSubmit w)) with (relay w).
  rewrite Hfresh.
  replace (Nat.eqb attempt maxRetries) with false
    by (symmetry; apply Nat.eqb_neq; lia).
  match goal with
  | |- context [run (sendLoop _ _ _ _ _ _ _ _ _) ?w1] => set (w1' := w1)
  end.
  destruct (sendLoop_first_event maxRetries remaining (S attempt) w1') as (rest & Hrest).
  exists (replyAt w1' 0), rest. cbn [fst snd]. rewrite Hrest.
  assert (Hsub' : submitted w1' = bodyOf patched).
  { unfold RunSpec.submitted, w1'. simpl txs.
    by rewrite list_lookup_alter_eq, Htx. }
  unfold RunSpec.afterSubmit at 1. rewrite Hsub'.
  unfold w1'. simpl trace. rewrite Hsub, <- !app_assoc. reflexivity.
Qed.

End Retry.

(** ** A signer run in a ready world *)

Section SignerRun.
Import Solana Batch BatchSpec.
Context `{token : SplToken}.

Lemma ready_handle {X : Type} (e : Eff X) (w : World) :
  ready w -> ready (handle e w).2.
Proof. intros [Hrelay Hcached]. destruct e; split; simpl; try done. Qed.

Lemma ready_run {A : Type} (m : Prog A) (w : World) :
  ready w -> ready (run m w).2.
Proof.
  revert w. induction m as [a|msg|X e k IH]; intros w Hw; simpl; try done.
  pose proof (ready_handle e w Hw) as Hw'.
  destruct (handle e w) as [x w']. by apply IH.
Qed.

Lemma behaves_fetchBlockhash (apiBase : string) (apiKey : option string) :
  behaves ready (fun _ => True) (fun _ => False) 1 (fetchBlockhash apiBase apiKey).
Proof.
  simpl. intros w [Hrelay _].
  destruct (Hrelay (calls w)
              {| url := apiBase ++ "/blockhash"; headers := apiKeyHeader apiKey |})
    as [info ->].
  done.
Qed.

Lemma behaves_nextBh (apiBase : string) (apiKey : option string) :
  behaves ready (fun _ => True) (fun _ => False) 2 (nextBh apiBase apiKey).
Proof.
  unfold nextBh.
  apply (behaves_bind ready (fun _ => True) _ _ _ _ 1 1 (behaves_fetchBlockhash _ _)).
  intros info _. simpl. done.
Qed.

Lemma behaves_buildTransferTx (from : Keypair) (plan : TransferPlan)
    (info : BlockhashInfo) (fromAta toAta : PublicKey) :
  getAssociatedTokenAddress (mint plan) (publicKey from) = Normal fromAta ->
  getAssociatedTokenAddress (mint plan) (destination plan) = Normal toAta ->
  behaves ready (fun _ => True) (fun _ => False) 7 (buildTransferTx from plan info).
Proof.
  intros Hfrom Hto. unfold buildTransferTx. rewrite Hfrom, Hto.
  destruct (wantsPriorityFee plan); simpl; done.
Qed.


(** In a ready world the run of a signer whose accounts derive returns
    an outcome for that signer, within [signerRunEffects] effects. *)
Lemma behaves_signerRun (wallet0 : WalletRef) (plan : TransferPlan)
    (apiBase : string) (apiKey : option string) (onResult : bool)
    (fromAta toAta : PublicKey) :
  getAssociatedTokenAddress (mint plan) (publicKey (keypair wallet0)) = Normal fromAta ->
  getAssociatedTokenAddress (mint plan) (destination plan) = Normal toAta ->
  behaves ready (fun r => wallet r = name wallet0) (fun _ => False) signerRunEffects
    (signerRun wallet0 plan apiBase apiKey onResult).
Proof.
  intros Hfrom Hto. unfold signerRun, signerRunEffects.
  change (1 + 7 + 8 * defaultMaxRetries + 1)
    with (S (7 + (8 * defaultMaxRetries + 1))).
  cbn [bind perform]. intros w [_ [info Hinfo]]. cbn [handle fst]. rewrite Hinfo.
  apply (behaves_bind ready (fun _ => True) _ _ _ _ (8 * defaultMaxRetries + 1) 7
           (behaves_buildTransferTx _ _ _ _ _ Hfrom Hto)).
  intros tx _.
  apply (behaves_bind ready (RunSpec.outcomeOf (name wallet0)) _ _ _ _ 1
           (8 * defaultMaxRetries)).
  { apply behaves_sendLoop, behaves_nextBh. }
  intros r [Hr _]. destruct onResult; simpl; done.
Qed.

End SignerRun.

(** ** The pool *)

Section Pool.
Import PLimit BatchSpec.

Lemma activeCount_promote (free : nat) (ss : list Slot) :
  activeCount ss <= activeCount (promote free ss) <= activeCount ss + free.
Proof.
  revert free. induction ss as [|s ss IH]; intros free; simpl; [lia|].
  destruct free as [|free]; [simpl; lia|].
  destruct s; simpl; try (specialize (IH (S free)); lia).
  specialize (IH free). lia.
Qed.

(** Refilling never takes the pool above its size. *)
Lemma activeCount_refill (limit : nat) (ss : list Slot) :
  activeCount ss <= limit -> activeCount (refill limit ss) <= limit.
Proof.
  intros Hle. unfold refill.
  pose proof (activeCount_promote (limit - activeCount ss) ss). lia.
Qed.

Lemma activeCount_advanceNth (k : nat) (ss : list Slot) (w : World) :
  activeCount (advanceNth k ss w).1.1 <= activeCount ss.
Proof.
  revert k. induction ss as [|s ss IH]; intros k; simpl; [lia|].
  destruct s as [body|body|r|msg]; simpl.
  2: destruct k as [|k].
  2: { destruct body as [r|msg|X e c]; simpl; try lia.
       destruct (handle e w) as [x w']. simpl. lia. }
  all: specialize (IH k); destruct (advanceNth k ss w) as [[ss' w'] rej]; simpl in *; lia.
Qed.

Lemma activeCount_poolStep (limit pick : nat) (p : Pool) :
  activeCount (slots p) <= limit ->
  activeCount (slots (poolStep limit pick p)) <= limit.
Proof.
  intros Hle. unfold poolStep.
  destruct (activeCount (slots p)) as [|n] eqn:Hactive; [lia|].
  pose proof (activeCount_advanceNth (pick mod S n) (slots p) (world p)) as Hadv.
  destruct (advanceNth _ _ _) as [[ss w] rej]. simpl in *.
  apply activeCount_refill. lia.
Qed.

(** At most [limit] tasks run at any time, whatever the schedule. *)
Lemma activeCount_runPool (limit : nat) (schedule : list nat) (p : Pool) :
  activeCount (slots p) <= limit ->
  activeCount (slots (runPool limit schedule p)) <= limit.
Proof.
  revert p. induction schedule as [|pick schedule IH]; intros p Hle; [done|].
  apply IH. by apply activeCount_poolStep.
Qed.

Lemma activeCount_start (limit : nat) (bodies : list (Prog WalletSendResult))
    (w : World) :
  activeCount (slots (start limit bodies w)) <= limit.
Proof.
  simpl. apply activeCount_refill.
  induction bodies as [|body bodies IH]; simpl; lia.
Qed.

(** While a task waits, a task runs. *)
Lemma refill_progress (limit : nat) (ss : list Slot) :
  1 <= limit ->
  existsb isQueued (refill limit ss) = true -> 1 <= activeCount (refill limit ss).
Proof.
  intros Hlimit. unfold refill.
  destruct (activeCount ss) as [|n] eqn:Hactive.
  - rewrite Nat.sub_0_r. destruct limit as [|free]; [lia|]. clear.
    induction ss as [|s ss IH]; simpl; [done|].
    destruct s; simpl; auto; lia.
  - intros _. pose proof (activeCount_promote (limit - S n) ss). lia.
Qed.

Lemma promote_slotOk (names : list string) (budgets : list nat) (ss : list Slot) :
  Forall3 slotOk names budgets ss ->
  forall free, Forall3 slotOk names budgets (promote free ss).
Proof.
  induction 1 as [|nm b s names budgets ss Hs Hrest IH]; intros free; simpl;
    [constructor|].
  destruct free as [|free]; [by constructor|].
  destruct s; constructor; auto.
Qed.

(** Advancing a running task uses up some of the budget and rejects
    nothing. *)
Lemma advanceNth_slotOk (names : list string) (budgets : list nat) (ss : list Slot) :
  Forall3 slotOk names budgets ss ->
  forall (k : nat) (w : World),
    ready w -> k < activeCount ss ->
    exists budgets' ss' w',
      advanceNth k ss w = (ss', w', None) /\
      Forall3 slotOk names budgets' ss' /\
      sum_list budgets' < sum_list budgets /\
      ready w'.
Proof.
  induction 1 as [|nm b s names budgets ss Hs Hrest IH]; intros k w Hw Hk;
    simpl in Hk; [lia|].
  assert (Hskip : isRunning s = false ->
    exists budgets' ss' w',
      (let '(rest', w', rej) := advanceNth k ss w in (s :: rest', w', rej))
      = (ss', w', None) /\
      Forall3 slotOk (nm :: names) budgets' ss' /\
      sum_list budgets' < sum_list (b :: budgets) /\ ready w').
  { intros Hs'. rewrite Hs' in Hk.
    destruct (IH k w Hw) as (budgets' & ss' & w' & -> & Hok & Hsum & Hw'); [lia|].
    exists (b :: budgets'), (s :: ss'), w'.
    split; [done|]. split; [by constructor|]. split; [simpl; lia | done]. }
  destruct s as [body|body|r|msg]; simpl; try (by apply Hskip).
  destruct k as [|k].
  - destruct b as [|n]; [done|]. simpl in Hs.
    destruct body as [r|msg|X e c]; simpl in *; [| done |].
    + exists (0 :: budgets), (Fulfilled r :: ss), w.
      split; [done|]. split; [by constructor|]. split; [simpl; lia | done].
    + destruct n as [|n]; [done|].
      pose proof (Hs w Hw) as Hnext. pose proof (ready_handle e w Hw) as Hw'.
      destruct (handle e w) as [x w']. simpl in *.
      exists (S n :: budgets), (Running (c x) :: ss), w'.
      split; [done|]. split; [by constructor|]. split; [simpl; lia | done].
  - simpl in Hk.
    destruct (IH k w Hw) as (budgets' & ss' & w' & -> & Hok & Hsum & Hw'); [lia|].
    exists (b :: budgets'), (Running body :: ss'), w'.
    split; [done|]. split; [by constructor|]. split; [simpl; lia | done].
Qed.

(** A rejection stays: [Promise.all] has rejected, whatever the other
    tasks still do. *)
Lemma rejection_runPool (limit : nat) (schedule : list nat) (p : Pool) (msg : string) :
  rejection p = Some msg ->
  promiseAll (runPool limit schedule p) = Some (Throws msg).
Proof.
  revert p. induction schedule as [|pick schedule IH]; intros p Hrej.
  - unfold promiseAll. simpl. by rewrite Hrej.
  - change (runPool limit (pick :: schedule) p)
      with (runPool limit schedule (poolStep limit pick p)).
    apply IH. unfold poolStep.
    destruct (activeCount (slots p)); [done|].
    destruct (advanceNth _ _ _) as [[ss w] rej]. simpl. by rewrite Hrej.
Qed.

(** Slots that neither run nor wait hold the signers' outcomes. *)
Lemma settled_values (names : list string) (budgets : list nat) (ss : list Slot) :
  Forall3 slotOk names budgets ss ->
  activeCount ss = 0 -> existsb isQueued ss = false ->
  exists rs, values ss = Some rs /\ map wallet rs = names.
Proof.
  induction 1 as [|nm b s names budgets ss Hs Hrest IH]; intros Hactive Hqueued.
  - by exists [].
  - destruct s as [body|body|r|msg]; simpl in *; try done.
    destruct IH as (rs & Hvalues & Hnames); [lia | done |].
    exists (r :: rs). rewrite Hvalues. simpl. by rewrite Hs, Hnames.
Qed.

Lemma spent_budget (names : list string) (budgets : list nat) (ss : list Slot) :
  Forall3 slotOk names budgets ss -> sum_list budgets = 0 ->
  activeCount ss = 0 /\ existsb isQueued ss = false.
Proof.
  induction 1 as [|nm b s names budgets ss Hs Hrest IH]; intros Hsum; [done|].
  simpl in Hsum. assert (b = 0) as -> by lia.
  destruct IH as [Hactive Hqueued]; [lia|].
  destruct s; simpl in *; done.
Qed.

Lemma runPool_idle (limit : nat) (schedule : list nat) (p : Pool) :
  activeCount (slots p) = 0 -> runPool limit schedule p = p.
Proof.
  intros Hidle. induction schedule as [|pick schedule IH]; [done|].
  change (runPool limit (pick :: schedule) p)
    with (runPool limit schedule (poolStep limit pick p)).
  replace (poolStep limit pick p) with p; [done|].
  unfold poolStep. by rewrite Hidle.
Qed.

(** Any schedule at least as long as the budget settles every task,
    each with the outcome of its signer. *)
Lemma runPool_settles (limit : nat) :
  1 <= limit ->
  forall (schedule : list nat) (names : list string) (budgets : list nat) (p : Pool),
    Forall3 slotOk names budgets (slots p) ->
    ready (world p) ->
    rejection p = None ->
    (existsb isQueued (slots p) = true -> 1 <= activeCount (slots p)) ->
    sum_list budgets <= length schedule ->
    exists rs,
      promiseAll (runPool limit schedule p) = Some (Normal rs) /\
      map wallet rs = names.
Proof.
  intros Hlimit.
  assert (Hidle : forall schedule names budgets p,
    Forall3 slotOk names budgets (slots p) -> rejection p = None ->
    activeCount (slots p) = 0 -> existsb isQueued (slots p) = false ->
    exists rs,
      promiseAll (runPool limit schedule p) = Some (Normal rs) /\
      map wallet rs = names).
  { intros schedule names budgets p Hok Hrej Hactive Hqueued.
    rewrite runPool_idle by done. unfold promiseAll. rewrite Hrej.
    destruct (settled_values _ _ _ Hok Hactive Hqueued) as (rs & -> & Hnames).
    by exists rs. }
  induction schedule as [|pick schedule IH];
    intros names budgets p Hok Hw Hrej Hprogress Hsum.
  - destruct (spent_budget _ _ _ Hok) as [Hactive Hqueued]; [simpl in Hsum; lia|].
    by apply (Hidle [] names budgets).
  - destruct (activeCount (slots p)) as [|n] eqn:Hactive.
    + apply (Hidle _ names budgets); try done.
      destruct (existsb isQueued (slots p)); [|done].
      specialize (Hprogress eq_refl). lia.
    + change (runPool limit (pick :: schedule) p)
        with (runPool limit schedule (poolStep limit pick p)).
      destruct (advanceNth_slotOk _ _ _ Hok (pick mod S n) (world p) Hw)
        as (budgets' & ss' & w' & Hadv & Hok' & Hsum' & Hw').
      { rewrite Hactive. apply Nat.mod_upper_bound. lia. }
      apply (IH names budgets').
      * unfold poolStep. rewrite Hactive, Hadv. simpl. by apply promote_slotOk.
      * unfold poolStep. by rewrite Hactive, Hadv.
      * unfold poolStep. by rewrite Hactive, Hadv, Hrej.
      * unfold poolStep. rewrite Hactive, Hadv. simpl. by apply refill_progress.
      * simpl in Hsum. lia.
Qed.

End Pool.

(** ** The batch dispatcher *)

Section Dispatcher.
Import Solana Batch PLimit BatchSpec.
Context `{token : SplToken}.

Lemma pLimit_max (concurrency : Z) :
  pLimit (Z.max 1 concurrency) = Normal (Z.to_nat (Z.max 1 concurrency)) /\
  1 <= Z.to_nat (Z.max 1 concurrency).
Proof.
  unfold pLimit. replace (1 <=? Z.max 1 concurrency)%Z with true; [split; [done|lia]|].
  symmetry. apply Z.leb_le. lia.
Qed.

(** The first fetch, when the relay answers it. *)
Lemma run_nextBh_ready (apiBase : string) (apiKey : option string) (w : World) :
  refreshable w ->
  exists info w1,
    run (nextBh apiBase apiKey) w = (Normal info, w1) /\ ready w1.
Proof.
  intros Hrelay. unfold nextBh, fetchBlockhash. simpl.
  destruct (Hrelay (calls w)
              {| url := apiBase ++ "/blockhash"; headers := apiKeyHeader apiKey |})
    as [info Hinfo].
  rewrite Hinfo. simpl. eexists _, _. split; [reflexivity|].
  split; [exact Hrelay | by eexists].
Qed.

Lemma tasks_slotOk (plan : TransferPlan) (apiBase : string) (apiKey : option string)
    (onResult : bool) (wallets : list WalletRef) :
  buildable wallets plan ->
  Forall3 slotOk (map name wallets)
    (replicate (length wallets) (S signerRunEffects))
    (map Queued (map (fun wallet => signerRun wallet plan apiBase apiKey onResult)
                   wallets)).
Proof.
  intros [Hfrom [toAta Hto]].
  induction wallets as [|wallet0 wallets IH]; simpl; [constructor|].
  constructor.
  - destruct (Hfrom wallet0) as [fromAta HfromAta]; [by left|].
    simpl. by apply (behaves_signerRun _ _ _ _ _ fromAta toAta).
  - apply IH. intros wallet1 Hin. apply Hfrom. by right.
Qed.


(** The first fetch failing, the dispatcher rejects before any signer
    runs. *)
Lemma executeBatch_first_fetch_fails (wallets : list WalletRef) (plan : TransferPlan)
    (concurrency : Z) (apiBase : string) (apiKey : option string) (onResult : bool)
    (schedule : list nat) (w : World) (status : Z) (errorField : option string) :
  blockhashReply (relay w) (calls w) (RunSpec.blockhashRequest apiBase apiKey)
    = NotOk status errorField ->
  (executeBatch wallets plan concurrency apiBase apiKey onResult schedule w).1
  = Some (Throws ("Blockhash fetch failed: " ++ JsString.ofZ status)).
Proof.
  intros Hreply. unfold executeBatch, nextBh, fetchBlockhash. simpl.
  unfold RunSpec.blockhashRequest in Hreply. by rewrite Hreply.
Qed.


End Dispatcher.

(** ** Concrete batches *)

Section Scenarios.
Import Solana Batch PLimit BatchSpec RunSpec Scenario.



(** C2, the failing input.  Alice's submission is refused as stale and
    the refresh she asks for fails: the error leaves her run, and
    [executeBatch] rejects with it.  No outcome is returned, not for
    alice and not for bob, whose transfer was accepted and whose outcome
    the observer did receive. *)
Theorem refresh_failure_rejects_batch :
  let res := executeBatch (token := tokenAccounts) [alice; bob] plan 8 api None true
               (oldestFirst 70) (fresh relayRefreshDown) in
  res.1 = Some (Throws "Blockhash fetch failed: 500") /\
  In (EvResult (confirmed "bob" "5igB")) (trace res.2) /\
  (forall r, In (EvResult r) (trace res.2) -> wallet r <> "alice") /\
  (executeBatch (token := tokenAccounts) [alice; bob] plan 1 api None true
     (roundRobin 70) (fresh relayRefreshDown)).1
  = Some (Throws "Blockhash fetch failed: 500").
Proof.
  vm_compute. split; [reflexivity|]. split; [|split; [|reflexivity]].
  - do 4 right. by left.
  - intros r Hin. repeat (destruct Hin as [Hin|Hin]; [by simplify_eq|]). done.
Qed.

(** C7, the claim as stated fails: after a staleness retry the object
    the first submission read is not as it was, it carries the fresh
    hash, and it is the only transaction that exists. *)
Lemma stale_retry_patches_the_object :
  let before := built relayStaleOnce in
  let after :=
    (run (sendWithRetry 0 "alice" (keypair alice) api None (nextBh api None)
            defaultMaxRetries) before).2 in
  ~ rederived before after 0 /\
  txs before = [expectedTransaction (keypair alice) plan hash0 "ata(M,A)" "ata(M,D)"] /\
  txs after = [expectedTransaction (keypair alice) plan hash1 "ata(M,A)" "ata(M,D)"].
Proof.
  cbv zeta. split; [|split; vm_compute; reflexivity].
  intros [_ Hlen]. vm_compute in Hlen. lia.
Qed.

(** Alice's transaction, built on the first hash and refused as stale. *)
Lemma staleness_rebinds_in_place_witness :
  let t := expectedTransaction (keypair alice) plan hash0 "ata(M,A)" "ata(M,D)" in
  let w := built relayStaleOnce in
  1 + S (S 1) = S defaultMaxRetries /\
  txs w !! 0 = Some t /\
  failureOf (replyAt api None 0 w 0) = Some "Blockhash not found" /\
  needsHash "Blockhash not found" = true /\
  blockhashReply (relay w) (S (calls w)) (blockhashRequest api None) = Ok hash1 /\
  length (txs (run (sendWithRetry 0 "alice" (keypair alice) api None
                      (nextBh api None) defaultMaxRetries) w).2) = length (txs w) /\
  rebound (keypair alice) hash1 t
  = expectedTransaction (keypair alice) plan hash1 "ata(M,A)" "ata(M,D)".
Proof.
  cbv zeta.
  assert (H1 : 1 + S (S 1) = S defaultMaxRetries) by reflexivity.
  assert (H2 : txs (built relayStaleOnce) !! 0
               = Some (expectedTransaction (keypair alice) plan hash0
                         "ata(M,A)" "ata(M,D)")) by reflexivity.
  assert (H3 : failureOf (replyAt api None 0 (built relayStaleOnce) 0)
               = Some "Blockhash not found") by reflexivity.
  assert (H4 : needsHash "Blockhash not found" = true) by reflexivity.
  assert (H5 : blockhashReply (relay (built relayStaleOnce))
                 (S (calls (built relayStaleOnce))) (blockhashRequest api None)
               = Ok hash1) by reflexivity.
  pose proof (staleness_rebinds_in_place 0 "alice" (keypair alice) api None
                defaultMaxRetries 1 1 (built relayStaleOnce) _ _ hash1
                H1 H2 H3 H4 H5)
    as (Hlen & _ & _ & _ & _ & _ & _ & Hbuilt & _).
  split; [exact H1|]. split; [exact H2|]. split; [exact H3|]. split; [exact H4|].
  split; [exact H5|]. split; [exact Hlen|].
  exact (Hbuilt plan hash0 "ata(M,A)" "ata(M,D)" eq_refl).
Defined.

(** Three refusals, each different: waits of 150 and 300 ms, and the
    error of the outcome is the third message. *)
Lemma sendWithRetry_exhausts_with_linear_backoff_witness :
  let w := built relayRefusing in
  1 <= defaultMaxRetries /\
  (forall k, k < defaultMaxRetries ->
     exists msg, failureOf (replyAt api None 0 w k) = Some msg /\
                 needsHash msg = false) /\
  exists (evs : list Event) (w' : World),
    run (sendWithRetry 0 "alice" (keypair alice) api None (nextBh api None)
           defaultMaxRetries) w
      = (Normal (failed "alice" "sendRaw failed: 502"), w') /\
    trace w' = trace w ++ evs /\
    timeoutsIn evs = [150; 300]%Z.
Proof.
  cbv zeta.
  assert (H1 : 1 <= defaultMaxRetries) by (vm_compute; lia).
  assert (H2 : forall k, k < defaultMaxRetries ->
            exists msg, failureOf (replyAt api None 0 (built relayRefusing) k) = Some msg /\
                        needsHash msg = false).
  { intros k Hk. destruct k as [|[|[|k]]]; [| | |vm_compute in Hk; lia];
      eexists; split; reflexivity. }
  split; [exact H1|]. split; [exact H2|].
  destruct (sendWithRetry_exhausts_with_linear_backoff 0 "alice" (keypair alice)
              api None (nextBh api None) defaultMaxRetries (built relayRefusing) H1 H2)
    as (last & evs & w' & Hrun & Hlast & Htrace & _ & Hwaits & _).
  exists evs, w'.
  assert (last = "sendRaw failed: 502") as -> by (vm_compute in Hlast; congruence).
  split; [exact Hrun|]. split; [exact Htrace|]. exact Hwaits.
Defined.


End Scenarios.

(** * Further properties *)

(** ** The amount normalizer, beyond valid inputs *)

Section NormalizerOutcomes.
Import JsString Amount.
Local Open Scope Z_scope.

Lemma toRawAmount_outcomes (s : string) (d : nat) :
  (exists v, toRawAmount s d = Normal v /\ 0 <= v) \/
  toRawAmount s d = Throws "Amount is required" \/
  toRawAmount s d = Throws "Amount must be numeric".
Proof.
  rewrite toRawAmount_cases.
  destruct (trim (chars s)) as [|c rest]; [by right; left|]. cbv zeta.
  set (parts := split "."%char (c :: rest)).
  destruct (allDigits (hd [] parts)) eqn:Hwhole; [|by right; right].
  destruct (allDigits (nth 1 parts [])) eqn:Hfrac; [|by right; right].
  left. eexists. split; [reflexivity|].
  pose proof (decimalValue_range _ Hwhole) as [Hw _].
  assert (Hpad : allDigits (take d (nth 1 parts [] ++ replicate d "0"%char)) = true).
  { apply allDigits_take. by rewrite allDigits_app, Hfrac, allDigits_zeros. }
  pose proof (decimalValue_range _ Hpad) as [Hp _].
  assert (0 <= 10 ^ Z.of_nat d) by (apply Z.pow_nonneg; lia).
  nia.
Qed.

(** Whatever the input, the normalizer either returns an amount that is
    not negative, or throws one of its two messages: no other error
    leaves it (the conversions to [bigint] never throw), and no input
    gives a negative amount. *)
Theorem toRawAmount_nonnegative_or_rejected (s : string) (d : nat) :
  match toRawAmount s d with
  | Normal v => 0 <= v
  | Throws msg => msg = "Amount is required" \/ msg = "Amount must be numeric"
  end.
Proof.
  destruct (toRawAmount_outcomes s d) as [(v & Hv & Hpos) | [Hthrow | Hthrow]].
  - by rewrite Hv.
  - rewrite Hthrow. by left.
  - rewrite Hthrow. by right.
Qed.

(** Normalizing to fewer decimals is truncating the finer result: when
    [amount] normalizes at [d + k] decimals it normalizes at [d], to the
    finer amount divided by [10^k], rounded down. *)
Theorem toRawAmount_coarsens (s : string) (d k : nat) (fine : Z) :
  toRawAmount s (d + k) = Normal fine ->
  toRawAmount s d = Normal (fine / 10 ^ Z.of_nat k).
Proof.
  rewrite !toRawAmount_cases.
  destruct (trim (chars s)) as [|c rest]; [done|]. cbv zeta.
  set (parts := split "."%char (c :: rest)).
  destruct (allDigits (hd [] parts)) eqn:Hwhole; [|done].
  destruct (allDigits (nth 1 parts [])) eqn:Hfrac; [|done].
  simpl andb. cbv iota. intros [= <-]. f_equal.
  rewrite !padded_value by done.
  set (W := decimalValue (hd [] parts)). set (F := decimalValue (nth 1 parts [])).
  set (n := Z.of_nat (length (nth 1 parts []))).
  replace (Z.of_nat (d + k)) with (Z.of_nat d + Z.of_nat k) by lia.
  rewrite Z.pow_add_r by lia.
  assert (0 < 10 ^ Z.of_nat k) by (apply Z.pow_pos_nonneg; lia).
  assert (0 < 10 ^ n) by (apply Z.pow_pos_nonneg; lia).
  rewrite (Z.mul_assoc W), Z.div_add_l by lia. f_equal.
  rewrite Z.div_div by lia.
  rewrite (Z.mul_assoc F), Z.div_mul_cancel_r by lia. reflexivity.
Qed.

(** 1.239 at three decimals is 1239, so at one decimal it is 12. *)
Lemma toRawAmount_coarsens_witness :
  toRawAmount "1.239" (1 + 2) = Normal 1239 /\
  toRawAmount "1.239" 1 = Normal (1239 / 10 ^ Z.of_nat 2).
Proof.
  assert (H : toRawAmount "1.239" (1 + 2) = Normal 1239) by reflexivity.
  split; [exact H|]. exact (toRawAmount_coarsens "1.239" 1 2 1239 H).
Defined.

End NormalizerOutcomes.

(** ** The staleness pattern *)

Section StalenessPattern.
Import JsString Solana.

Lemma chars_app (a b : string) : chars (a +:+ b) = chars a ++ chars b.
Proof.
  unfold chars. induction a as [|c a IH]; [done|].
  change (list_ascii_of_string (String c a +:+ b))
    with (c :: list_ascii_of_string (a +:+ b)).
  by rewrite IH.
Qed.

Lemma startsWith_app (p rest : list ascii) : startsWith p (p ++ rest) = true.
Proof.
  induction p as [|c p IH]; simpl; [done|].
  by rewrite Ascii.eqb_refl, IH.
Qed.

Lemma includes_infix (p pre post : list ascii) : includes p (pre ++ p ++ post) = true.
Proof.
  induction pre as [|c pre IH].
  - assert (Hunfold : forall s, includes p s = true \/ startsWith p s = false).
    { intros s. destruct (startsWith p s) eqn:Hs; [left|by right].
      destruct s; simpl; by rewrite Hs. }
    destruct (Hunfold (p ++ post)) as [H|H]; [exact H|].
    by rewrite startsWith_app in H.
  - cbn [app includes]. rewrite IH. by rewrite orb_true_r.
Qed.

Lemma startsWith_shorter (p q s : list ascii) :
  startsWith (p ++ q) s = true -> startsWith p s = true.
Proof.
  revert s. induction p as [|c p IH]; intros s; simpl; [by destruct s|].
  destruct s as [|c' s]; [done|].
  intros H. apply andb_true_iff in H as [-> H]. by rewrite (IH s H).
Qed.

Lemma includes_shorter (p q s : list ascii) :
  includes (p ++ q) s = true -> includes p s = true.
Proof.
  induction s as [|c s IH]; simpl; intros H; apply orb_true_iff in H as [H|H].
  - by rewrite (startsWith_shorter _ _ _ H).
  - done.
  - by rewrite (startsWith_shorter _ _ _ H).
  - by rewrite (IH H), orb_true_r.
Qed.

(** The pattern [/BlockhashNotFound|blockhash|expired/i], as it
    classifies: its first alternative adds nothing to the second, so a
    message needs a fresh hash exactly when it contains "blockhash" or
    "expired"; and it does so wherever the word stands in the message
    and however it is capitalised. *)
Theorem needsHash_is_a_word_search :
  (forall msg : string,
     needsHash msg
     = includesIgnoreCase "blockhash" msg || includesIgnoreCase "expired" msg) /\
  (forall pre word post : string,
     map toLower (chars word) = chars "blockhash" \/
     map toLower (chars word) = chars "expired" ->
     needsHash (pre +:+ word +:+ post) = true).
Proof.
  split.
  - intros msg. unfold needsHash.
    destruct (includesIgnoreCase "BlockhashNotFound" msg) eqn:Hfirst; [|done].
    unfold includesIgnoreCase in *.
    change (map toLower (chars "BlockhashNotFound"))
      with (map toLower (chars "blockhash") ++ chars "notfound") in Hfirst.
    by rewrite (includes_shorter _ _ _ Hfirst).
  - intros pre word post Hword. unfold needsHash, includesIgnoreCase.
    rewrite !chars_app, !map_app.
    destruct Hword as [-> | ->].
    + change (map toLower (chars "blockhash")) with (chars "blockhash").
      by rewrite includes_infix, orb_true_r.
    + change (map toLower (chars "expired")) with (chars "expired").
      by rewrite includes_infix, !orb_true_r.
Qed.

End StalenessPattern.

(** ** The retry loop, whatever the relay answers *)

Section RetryBounds.
Import Solana RunSpec TraceSpec.

Variables (tx : nat) (walletName : string) (signer : Keypair).
Variables (apiBase : string) (apiKey : option string).

Lemma submissionsIn_app (a b : list Event) :
  submissionsIn (a ++ b) = submissionsIn a + submissionsIn b.
Proof. induction a as [|[] a IH]; simpl; lia. Qed.

Lemma refreshesIn_app (a b : list Event) :
  refreshesIn (a ++ b) = refreshesIn a + refreshesIn b.
Proof. induction a as [|[] a IH]; simpl; lia. Qed.

Lemma timeoutsIn_app (a b : list Event) :
  timeoutsIn (a ++ b) = timeoutsIn a ++ timeoutsIn b.
Proof. induction a as [|[] a IH]; simpl; by rewrite ?IH. Qed.

Lemma waitedIn_app (a b : list Event) :
  waitedIn (a ++ b) = (waitedIn a + waitedIn b)%Z.
Proof.
  unfold waitedIn. rewrite timeoutsIn_app.
  induction (timeoutsIn a) as [|ms l IH]; simpl; lia.
Qed.

(** One iteration, counted: one submission, at most one refresh, and a
    wait of [150 * attempt] exactly when the loop goes on. *)
Lemma attempt_counts (maxRetries attempt : nat) (w : World) :
  exists pre : list Event,
    let res := run (tryCatch (submitOnce tx walletName apiBase apiKey)
                      (onFailure tx walletName signer (Batch.nextBh apiBase apiKey)
                         maxRetries attempt)) w in
    trace res.2 = trace w ++ pre /\
    submissionsIn pre = 1 /\
    refreshesIn pre <= 1 /\
    calls res.2 = calls w + 1 + refreshesIn pre /\
    match res.1 with
    | Normal None => waitedIn pre = (150 * Z.of_nat attempt)%Z /\ attempt <> maxRetries
    | _ => waitedIn pre = 0%Z
    end.
Proof.
  rewrite run_attempt.
  destruct (replyAt apiBase apiKey tx w 0) as [e|status errorField|sig] eqn:Hreply.
  3: { eexists. cbv zeta. split; [reflexivity|]. simpl. repeat split; lia. }
  all: match goal with
       | |- context [run (onFailure _ _ _ _ _ _ ?m) _] =>
           destruct (needsHash m) eqn:Hstale
       end.
  all: rewrite ?run_onFailure_stale, ?run_onFailure_other by done; cbv zeta.
  all: try destruct (blockhashReply _ _ _) as [e'|status' errorField'|fresh].
  all: destruct (Nat.eqb_spec attempt maxRetries).
  all: eexists; (split; [simpl; rewrite <- ?app_assoc; reflexivity|]).
  all: unfold waitedIn; simpl; repeat split; try lia; done.
Qed.

Lemma sendLoop_counts (maxRetries : nat) :
  forall (remaining attempt : nat) (w : World),
    attempt + S remaining = S maxRetries ->
    exists evs : list Event,
      let res := run (sendLoop (S remaining) attempt tx walletName signer apiBase
                        apiKey (Batch.nextBh apiBase apiKey) maxRetries) w in
      trace res.2 = trace w ++ evs /\
      submissionsIn evs <= S remaining /\
      refreshesIn evs <= submissionsIn evs /\
      calls res.2 = calls w + submissionsIn evs + refreshesIn evs /\
      (waitedIn evs
       <= 75 * (Z.of_nat maxRetries * (Z.of_nat maxRetries - 1)
                - Z.of_nat attempt * (Z.of_nat attempt - 1)))%Z.
Proof.
  induction remaining as [|remaining IH]; intros attempt w Hsum;
    destruct (attempt_counts maxRetries attempt w)
      as (pre & Htrace & Hsub & Href & Hcalls & Hwait);
    cbv zeta in *; rewrite run_sendLoop_step;
    destruct (run (tryCatch _ _) w) as [[[r|]|msg] w1];
    simpl in Htrace, Hcalls, Hwait.
  - exists pre. cbn [fst snd]. repeat split; first [done | lia | nia].
  - destruct Hwait as [_ Hne]. lia.
  - exists pre. cbn [fst snd]. repeat split; first [done | lia | nia].
  - exists pre. cbn [fst snd]. repeat split; first [done | lia | nia].
  - destruct Hwait as [Hwait Hne].
    destruct (IH (S attempt) w1) as (evs & Htrace' & Hsub' & Href' & Hcalls' & Hwait');
      [lia|].
    exists (pre ++ evs). cbv zeta in *.
    rewrite Htrace', Htrace, app_assoc, submissionsIn_app, refreshesIn_app,
      waitedIn_app.
    repeat split; first [done | lia | nia].
  - exists pre. cbn [fst snd]. repeat split; first [done | lia | nia].
Qed.

(** The retry bound.  Whatever the relay answers, a run of
    [sendWithRetry] submits at most [maxRetries] times, fetches a fresh
    hash at most once per submission, makes no other call of the relay,
    and waits at most 150 * (1 + ... + (maxRetries - 1)) ms in all, which
    is 450 ms for the default of three attempts. *)
Theorem sendWithRetry_bounded (maxRetries : nat) (w : World) :
  exists evs : list Event,
    let res := run (sendWithRetry tx walletName signer apiBase apiKey
                      (Batch.nextBh apiBase apiKey) maxRetries) w in
    trace res.2 = trace w ++ evs /\
    submissionsIn evs <= maxRetries /\
    refreshesIn evs <= submissionsIn evs /\
    calls res.2 = calls w + submissionsIn evs + refreshesIn evs /\
    (waitedIn evs <= 75 * (Z.of_nat maxRetries * (Z.of_nat maxRetries - 1)))%Z.
Proof.
  destruct maxRetries as [|remaining].
  { exists []. simpl. rewrite app_nil_r. unfold waitedIn. simpl.
    repeat split; lia. }
  destruct (sendLoop_counts (S remaining) remaining 1 w)
    as (evs & Htrace & Hsub & Href & Hcalls & Hwait); [lia|].
  exists evs. cbv zeta in *. repeat split; try done. lia.
Qed.

End RetryBounds.

(** ** Runs that end early, and runs that end late *)

Section RetryPaths.
Import Solana RunSpec.

Variables (tx : nat) (walletName : string) (signer : Keypair).
Variables (apiBase : string) (apiKey : option string).

Lemma sendLoop_accepted (getBlockhash : Prog BlockhashInfo) (maxRetries : nat)
    (sig : string) :
  forall (k remaining attempt : nat) (w : World),
    attempt + remaining = S maxRetries ->
    k < remaining ->
    (forall j, j < k ->
       exists msg, failureOf (replyAt apiBase apiKey tx w j) = Some msg /\
                   needsHash msg = false) ->
    replyAt apiBase apiKey tx w k = Ok sig ->
    exists w',
      run (sendLoop remaining attempt tx walletName signer apiBase apiKey
             getBlockhash maxRetries) w = (Normal (confirmed walletName sig), w') /\
      trace w' = trace w ++
        flat_map (attemptEvents apiBase apiKey tx w maxRetries attempt) (seq 0 k) ++
        [EvSendRaw (sendRawRequest apiBase apiKey) (submitted tx w) (Ok sig)] /\
      txs w' = txs w /\
      calls w' = calls w + S k.
Proof.
  induction k as [|k IH]; intros remaining attempt w Hsum Hk Hfail Hok;
    (destruct remaining as [|remaining]; [lia|]);
    rewrite run_sendLoop_step, run_attempt.
  - rewrite Hok. eexists. split; [reflexivity|].
    unfold afterSubmit. rewrite Hok. simpl. repeat split; lia.
  - destruct (Hfail 0) as (msg & Hmsg & Hother); [lia|].
    assert (Hrun :
      match replyAt apiBase apiKey tx w 0 with
      | Ok sig0 => (Normal (Some (confirmed walletName sig0)),
                    afterSubmit apiBase apiKey tx w)
      | reply =>
          run (onFailure tx walletName signer getBlockhash maxRetries attempt
                 (default "" (failureOf reply))) (afterSubmit apiBase apiKey tx w)
      end
      = run (onFailure tx walletName signer getBlockhash maxRetries attempt msg)
          (afterSubmit apiBase apiKey tx w)).
    { destruct (replyAt apiBase apiKey tx w 0); simpl in Hmsg; by simplify_eq. }
    rewrite Hrun, run_onFailure_other by done. clear Hrun.
    replace (Nat.eqb attempt maxRetries) with false
      by (symmetry; apply Nat.eqb_neq; lia).
    set (w1 := logged (EvTimeout (150 * Z.of_nat attempt))
                 (afterSubmit apiBase apiKey tx w)).
    destruct (IH remaining (S attempt) w1) as (w' & Hrun & Htrace & Htxs & Hcalls);
      [lia | lia | | |].
    { intros j Hj. unfold w1. rewrite replyAt_next. apply Hfail. lia. }
    { unfold w1. by rewrite replyAt_next. }
    exists w'. split; [exact Hrun|]. split; [|split].
    + rewrite Htrace. cbn [seq flat_map]. rewrite flat_map_seq_shift.
      unfold w1 at 1. simpl trace. rewrite <- !app_assoc. f_equal.
      unfold attemptEvents at 2.
      replace (attempt + 0 <? maxRetries)%nat with true
        by (symmetry; apply Nat.ltb_lt; lia).
      rewrite Nat.add_0_r. simpl. do 2 f_equal.
      f_equal.
      apply flat_map_ext. intros j. apply attemptEvents_next.
    + rewrite Htxs. reflexivity.
    + rewrite Hcalls. unfold w1. simpl. lia.
Qed.

(** A run that is accepted after [k] failures that were not staleness
    failures: it returns the signature, having submitted the same
    transaction [k + 1] times and waited 150, 300, ... ms between the
    submissions; it fetched no hash and left the transaction objects
    alone.  With [k = 0]: one call of the relay, no wait. *)
Theorem sendWithRetry_accepted_after_failures (getBlockhash : Prog BlockhashInfo)
    (maxRetries k : nat) (w : World) (sig : string) :
  k < maxRetries ->
  (forall j, j < k ->
     exists msg, failureOf (replyAt apiBase apiKey tx w j) = Some msg /\
                 needsHash msg = false) ->
  replyAt apiBase apiKey tx w k = Ok sig ->
  exists (evs : list Event) (w' : World),
    run (sendWithRetry tx walletName signer apiBase apiKey getBlockhash maxRetries) w
      = (Normal (confirmed walletName sig), w') /\
    trace w' = trace w ++ evs /\
    TraceSpec.submissionsIn evs = S k /\
    TraceSpec.refreshesIn evs = 0 /\
    timeoutsIn evs = map (fun attempt => (150 * Z.of_nat attempt)%Z) (seq 1 k) /\
    txs w' = txs w /\
    calls w' = calls w + S k.
Proof.
  intros Hk Hfail Hok. unfold sendWithRetry.
  destruct (sendLoop_accepted getBlockhash maxRetries sig k maxRetries 1 w)
    as (w' & Hrun & Htrace & Htxs & Hcalls); [lia | lia | done | done |].
  eexists _, w'. split; [exact Hrun|]. split; [exact Htrace|].
  assert (Hshape : forall n a,
    1 + a + n <= maxRetries ->
    TraceSpec.submissionsIn
      (flat_map (attemptEvents apiBase apiKey tx w maxRetries 1) (seq a n)) = n /\
    TraceSpec.refreshesIn
      (flat_map (attemptEvents apiBase apiKey tx w maxRetries 1) (seq a n)) = 0).
  { induction n as [|n IHn]; intros a Ha; [done|].
    cbn [seq flat_map]. unfold attemptEvents at 1 3.
    rewrite submissionsIn_app, refreshesIn_app.
    destruct (IHn (S a)) as [-> ->]; [lia|].
    destruct (1 + a <? maxRetries)%nat; simpl; lia. }
  destruct (Hshape k 0) as [Hsub Href]; [lia|].
  rewrite submissionsIn_app, refreshesIn_app, timeoutsIn_app, Hsub, Href.
  rewrite timeoutsIn_attempts, waits_before_last by lia.
  simpl. rewrite app_nil_r, <- seq_shift, map_map.
  repeat split; try done; lia.
Qed.

(** The last attempt of the loop, failing for staleness: the run has
    nothing left to submit, and still fetches a fresh hash, caches it
    and signs the transaction again before it returns the staleness
    message as the error of the outcome. *)
Theorem last_attempt_still_refreshes (maxRetries : nat) (w : World)
    (t : Transaction) (msg : string) (fresh : BlockhashInfo) :
  txs w !! tx = Some t ->
  failureOf (replyAt apiBase apiKey tx w 0) = Some msg ->
  needsHash msg = true ->
  blockhashReply (relay w) (S (calls w)) (blockhashRequest apiBase apiKey) = Ok fresh ->
  exists w',
    run (sendLoop 1 maxRetries tx walletName signer apiBase apiKey
           (Batch.nextBh apiBase apiKey) maxRetries) w
      = (Normal (failed walletName msg), w') /\
    trace w' = trace w ++
      [ EvSendRaw (sendRawRequest apiBase apiKey) (bodyOf t)
          (replyAt apiBase apiKey tx w 0);
        EvBlockhash (blockhashRequest apiBase apiKey) (Ok fresh) ] /\
    txs w' !! tx = Some (rebound signer fresh t) /\
    cachedBh w' = Some fresh /\
    calls w' = calls w + 2.
Proof.
  intros Htx Hfail Hstale Hfresh.
  rewrite run_sendLoop_step, run_attempt.
  assert (Hrun :
    match replyAt apiBase apiKey tx w 0 with
    | Ok sig0 => (Normal (Some (confirmed walletName sig0)),
                  afterSubmit apiBase apiKey tx w)
    | reply =>
        run (onFailure tx walletName signer (Batch.nextBh apiBase apiKey)
               maxRetries maxRetries (default "" (failureOf reply)))
          (afterSubmit apiBase apiKey tx w)
    end
    = run (onFailure tx walletName signer (Batch.nextBh apiBase apiKey)
             maxRetries maxRetries msg) (afterSubmit apiBase apiKey tx w)).
  { destruct (replyAt apiBase apiKey tx w 0); simpl in Hfail; by simplify_eq. }
  rewrite Hrun, run_onFailure_stale by done. clear Hrun. cbv zeta.
  change (calls (afterSubmit apiBase apiKey tx w)) with (S (calls w)).
  change (relay (afterSubmit apiBase apiKey tx w)) with (relay w).
  rewrite Hfresh, Nat.eqb_refl.
  eexists. split; [reflexivity|]. simpl.
  unfold submitted. rewrite Htx. simpl.
  split; [by rewrite <- app_assoc|].
  split; [by rewrite list_lookup_alter_eq, Htx|].
  split; [done | lia].
Qed.

End RetryPaths.

(** ** Where the error of an outcome comes from *)

Section FailedOutcome.
Import Solana RunSpec TraceSpec.

Variables (tx : nat) (walletName : string) (signer : Keypair).
Variables (apiBase : string) (apiKey : option string).

Lemma failuresIn_app (xs ys : list Event) :
  failuresIn (xs ++ ys) = failuresIn xs ++ failuresIn ys.
Proof.
  induction xs as [|[] xs IH]; simpl; try done.
  destruct (failureOf reply); simpl; by rewrite IH.
Qed.

Lemma attempt_failures (maxRetries attempt : nat) (w : World) :
  exists pre : list Event,
    let res := run (tryCatch (submitOnce tx walletName apiBase apiKey)
                      (onFailure tx walletName signer (Batch.nextBh apiBase apiKey)
                         maxRetries attempt)) w in
    trace res.2 = trace w ++ pre /\
    match res.1 with
    | Normal (Some r) =>
        (failuresIn pre = [] /\ error r = None) \/
        (exists msg, failuresIn pre = [msg] /\ error r = Some msg /\
                     attempt = maxRetries)
    | Normal None => (exists msg, failuresIn pre = [msg]) /\ attempt <> maxRetries
    | Throws _ => True
    end.
Proof.
  rewrite run_attempt.
  destruct (replyAt apiBase apiKey tx w 0) as [e|status errorField|sig] eqn:Hreply.
  3: { eexists. cbv zeta. split; [reflexivity|]. simpl. rewrite Hreply. by left. }
  all: match goal with
       | |- context [run (onFailure _ _ _ _ _ _ ?m) _] =>
           destruct (needsHash m) eqn:Hstale
       end.
  all: rewrite ?run_onFailure_stale, ?run_onFailure_other by done; cbv zeta.
  all: try destruct (blockhashReply _ _ _) as [e'|status' errorField'|fresh].
  all: destruct (Nat.eqb_spec attempt maxRetries).
  all: eexists; (split; [simpl; rewrite <- ?app_assoc; reflexivity|]).
  all: simpl; rewrite ?Hreply; simpl; try done.
  all: first [right; eexists; done | split; [by eexists | done]].
Qed.

Lemma sendLoop_failures_reported (maxRetries : nat) :
  forall (remaining attempt : nat) (w : World),
    attempt + S remaining = S maxRetries ->
    exists evs : list Event,
      let res := run (sendLoop (S remaining) attempt tx walletName signer apiBase
                        apiKey (Batch.nextBh apiBase apiKey) maxRetries) w in
      trace res.2 = trace w ++ evs /\
      match res.1 with
      | Normal r =>
          forall msg, error r = Some msg ->
            length (failuresIn evs) = S remaining /\ last (failuresIn evs) = Some msg
      | Throws _ => True
      end.
Proof.
  induction remaining as [|remaining IH]; intros attempt w Hsum.
  - rewrite run_sendLoop_step.
    destruct (attempt_failures maxRetries attempt w) as (pre & Hpre).
    cbv zeta in Hpre. destruct Hpre as (Htrace & Hend).
    destruct (run (tryCatch _ _) w) as [[[r|]|msg] w'] eqn:Hrun;
      cbn [fst snd] in Htrace, Hend.
    + exists pre. cbv zeta. cbn [fst snd]. split; [done|].
      intros msg Hmsg. destruct Hend as [[_ Hnone] | (msg' & -> & Herr & _)];
        [congruence|].
      split; [done|]. simpl. congruence.
    + destruct Hend as [_ Hne]. lia.
    + exists pre. by split.
  - rewrite run_sendLoop_step.
    destruct (attempt_failures maxRetries attempt w) as (pre & Hpre).
    cbv zeta in Hpre. destruct Hpre as (Htrace & Hend).
    destruct (run (tryCatch _ _) w) as [[[r|]|msg] w'] eqn:Hrun;
      cbn [fst snd] in Htrace, Hend.
    + exists pre. cbv zeta. cbn [fst snd]. split; [done|].
      intros msg Hmsg. destruct Hend as [[_ Hnone] | (msg' & _ & _ & Hlast)];
        [congruence | lia].
    + destruct Hend as [[first Hfirst] _].
      destruct (IH (S attempt) w') as (evs & Hevs); [lia|].
      cbv zeta in Hevs. destruct Hevs as (Htrace' & Hend').
      exists (pre ++ evs). cbv zeta.
      split; [by rewrite Htrace', Htrace, app_assoc|].
      destruct (run (sendLoop _ _ _ _ _ _ _ _ _) w') as [[r|msg] w''];
        cbn [fst snd] in *; [|done].
      intros msg Hmsg. destruct (Hend' msg Hmsg) as [Hlen Hlast].
      rewrite failuresIn_app, Hfirst. split; [simpl; by rewrite Hlen|].
      destruct (failuresIn evs) as [|m ms]; [done|]. exact Hlast.
    + exists pre. by split.
Qed.

(** The error of an outcome is always the message of the last failed
    submission, and an outcome has an error only when every one of the
    [maxRetries] submissions failed: with at least one attempt allowed
    the run never makes up a message of its own, and the message
    ['exhausted retries'] of the source is returned only when no attempt
    is allowed at all, without any call of the relay. *)
Theorem failed_outcome_reports_the_last_failure (maxRetries : nat) (w w' : World)
    (r : WalletSendResult) (msg : string) :
  run (sendWithRetry tx walletName signer apiBase apiKey
         (Batch.nextBh apiBase apiKey) maxRetries) w = (Normal r, w') ->
  error r = Some msg ->
  (maxRetries = 0 /\ msg = "exhausted retries" /\ w' = w) \/
  (1 <= maxRetries /\
   exists evs, trace w' = trace w ++ evs /\
               length (failuresIn evs) = maxRetries /\
               last (failuresIn evs) = Some msg).
Proof.
  unfold sendWithRetry. intros Hrun Hmsg.
  destruct maxRetries as [|remaining].
  - left. simpl in Hrun. injection Hrun as <- <-. simpl in Hmsg. split; [done|].
    split; [congruence | done].
  - right. split; [lia|].
    destruct (sendLoop_failures_reported (S remaining) remaining 1 w) as (evs & Hevs);
      [lia|].
    cbv zeta in Hevs. rewrite Hrun in Hevs. cbn [fst snd] in Hevs.
    destruct Hevs as [Htrace Hend]. exists evs. split; [done|]. by apply Hend.
Qed.

End FailedOutcome.

(** ** Batches that end before a submission *)

Section EarlyEnd.
Import Solana PLimit Batch BatchSpec DoomedSpec.
Context `{token : SplToken}.

(** The dispatcher's first step is one fetch of a reference hash,
    whatever the wallets are (none, too): when the relay does not answer
    it with a hash the batch rejects with that failure, having created
    no transaction and called no observer, and a batch with no wallet
    fulfils with no outcome only after the relay has served a hash. *)
Theorem executeBatch_starts_with_one_fetch (wallets : list WalletRef)
    (plan : TransferPlan) (concurrency : Z) (apiBase : string)
    (apiKey : option string) (onResult : bool) (schedule : list nat) (w : World) :
  let reply := blockhashReply (relay w) (calls w)
                 (RunSpec.blockhashRequest apiBase apiKey) in
  let res := executeBatch wallets plan concurrency apiBase apiKey onResult schedule w in
  let w1 := answered (EvBlockhash (RunSpec.blockhashRequest apiBase apiKey) reply) w in
  match reply with
  | Ok info =>
      wallets = [] -> res = (Some (Normal []), withCachedBh info w1)
  | FetchFailed msg => res = (Some (Throws msg), w1)
  | NotOk status _ =>
      res = (Some (Throws ("Blockhash fetch failed: " ++ JsString.ofZ status)), w1)
  end.
Proof.
  cbv zeta. unfold executeBatch, nextBh, fetchBlockhash, RunSpec.blockhashRequest.
  simpl.
  destruct (blockhashReply (relay w) (calls w) _) as [msg|status field|info];
    simpl; try done.
  intros ->. destruct (pLimit_max concurrency) as [-> _]. simpl.
  by rewrite runPool_idle.
Qed.

Lemma promote_doomed (msg : string) (ss : list Slot) :
  Forall (doomed msg) ss ->
  forall free, Forall (doomed msg) (promote free ss) /\
               progress (promote free ss) = progress ss.
Proof.
  induction 1 as [|s ss Hs Hss IH]; intros free; [done|].
  destruct free as [|free]; [by split; [constructor|]|].
  destruct s as [body|body|r|m]; simpl in *.
  - destruct (IH free) as [Hall Hsum]. split.
    + constructor; [by right | done].
    + destruct Hs as (k & -> & _). unfold progress in *. simpl. by rewrite Hsum.
  - destruct (IH (S free)) as [Hall Hsum]. split; [by constructor|].
    unfold progress in *. simpl. by rewrite Hsum.
  - done.
  - destruct (IH (S free)) as [Hall Hsum]. split; [by constructor|].
    unfold progress in *. simpl. by rewrite Hsum.
Qed.

Lemma advanceNth_doomed (msg : string) (info : BlockhashInfo) (ss : list Slot) :
  Forall (doomed msg) ss ->
  forall (k : nat) (w : World),
    cachedBh w = Some info -> k < activeCount ss ->
    exists ss' rej,
      advanceNth k ss w = (ss', w, rej) /\
      Forall (doomed msg) ss' /\
      progress ss' = S (progress ss) /\
      (rej = None \/ rej = Some msg) /\
      (rej = None -> Forall (fun s => stage s <= 1) ss ->
       Forall (fun s => stage s <= 1) ss').
Proof.
  induction 1 as [|s ss Hs Hss IH]; intros k w Hcached Hk; simpl in Hk; [lia|].
  destruct s as [body|body|r|m]; simpl in Hs.
  - destruct (IH k w Hcached) as (ss' & rej & Hadv & Hall & Hsum & Hrej & Hlow);
      [simpl in Hk; lia|].
    simpl. rewrite Hadv. eexists _, _. split; [reflexivity|].
    split; [by constructor|]. split; [|split; [done|]].
    + unfold progress in *. simpl. by rewrite Hsum.
    + intros Hnone Hle. inversion Hle; subst. constructor; [done | by apply Hlow].
  - destruct k as [|k].
    + destruct Hs as [-> | (c & -> & Hthrow)]; simpl.
      * eexists _, _. split; [reflexivity|]. split; [by constructor|].
        split; [done|]. split; [by right|]. done.
      * rewrite Hcached, Hthrow. eexists _, _. split; [reflexivity|].
        split; [constructor; [by left | done]|].
        split; [done|]. split; [by left|].
        intros _ Hle. inversion Hle; subst. constructor; [simpl; lia | done].
    + destruct (IH k w Hcached) as (ss' & rej & Hadv & Hall & Hsum & Hrej & Hlow);
        [simpl in Hk; lia|].
      simpl. rewrite Hadv. eexists _, _. split; [reflexivity|].
      split; [by constructor|]. split; [|split; [done|]].
      * unfold progress in *. simpl. rewrite Hsum. lia.
      * intros Hnone Hle. inversion Hle; subst. constructor; [done | by apply Hlow].
  - done.
  - destruct (IH k w Hcached) as (ss' & rej & Hadv & Hall & Hsum & Hrej & Hlow);
      [simpl in Hk; lia|].
    simpl. rewrite Hadv. eexists _, _. split; [reflexivity|].
    split; [by constructor|]. split; [|split; [done|]].
    + unfold progress in *. simpl. rewrite Hsum. lia.
    + intros Hnone Hle. inversion Hle; subst. constructor; [done | by apply Hlow].
Qed.

Lemma promote_low (ss : list Slot) :
  Forall (fun s => stage s <= 1) ss ->
  forall free, Forall (fun s => stage s <= 1) (promote free ss).
Proof.
  induction 1 as [|s ss Hs Hss IH]; intros free; [done|].
  destruct free as [|free]; [by constructor|].
  destruct s as [body|body|r|m]; simpl in *; constructor; try done; try apply IH.
  destruct body; simpl; lia.
Qed.

Lemma progress_low (ss : list Slot) :
  Forall (fun s => stage s <= 1) ss -> progress ss <= length ss.
Proof.
  induction 1 as [|s ss Hs Hss IH]; [done|].
  unfold progress in *. simpl. lia.
Qed.

Lemma low_active (msg : string) (ss : list Slot) :
  Forall (doomed msg) ss -> Forall (fun s => stage s <= 1) ss ->
  existsb isQueued ss = false -> activeCount ss = length ss.
Proof.
  induction 1 as [|s ss Hs Hss IH]; intros Hlow Hqueued; [done|].
  inversion Hlow; subst.
  destruct s as [body|body|r|m]; simpl in *; try done; try lia.
  f_equal. by apply IH.
Qed.

Lemma length_promote (free : nat) (ss : list Slot) :
  length (promote free ss) = length ss.
Proof.
  revert free. induction ss as [|s ss IH]; intros free; [done|].
  destruct free as [|free]; [done|].
  destruct s; simpl; by rewrite IH.
Qed.

Lemma length_advanceNth (k : nat) (ss : list Slot) (w : World) :
  length (advanceNth k ss w).1.1 = length ss.
Proof.
  revert k. induction ss as [|s ss IH]; intros k; [done|].
  destruct s as [body|body|r|m]; simpl.
  2: destruct k as [|k]; [by destruct (advanceSlot body w) as [[? ?] ?]|].
  all: specialize (IH k); destruct (advanceNth k ss w) as [[? ?] ?]; simpl in *;
    by rewrite IH.
Qed.

(** The pool of doomed tasks: the world never changes, and while
    [Promise.all] is not rejected every step is progress. *)
Lemma runPool_doomed (msg : string) (info : BlockhashInfo) (limit : nat) :
  1 <= limit ->
  forall (schedule : list nat) (p : Pool),
    Forall (doomed msg) (slots p) ->
    cachedBh (world p) = Some info ->
    slots p <> [] ->
    (existsb isQueued (slots p) = true -> 1 <= activeCount (slots p)) ->
    (rejection p = None -> Forall (fun s => stage s <= 1) (slots p)) ->
    (rejection p = None \/ rejection p = Some msg) ->
    length (slots p) < progress (slots p) + length schedule ->
    let p' := runPool limit schedule p in
    world p' = world p /\ rejection p' = Some msg.
Proof.
  intros Hlimit.
  induction schedule as [|pick schedule IH];
    intros p Hall Hcached Hne Hactive Hlow Hrej Hsteps; cbv zeta.
  - simpl in *. split; [done|].
    destruct Hrej as [Hnone|Hsome]; [|done].
    pose proof (progress_low _ (Hlow Hnone)). lia.
  - change (runPool limit (pick :: schedule) p)
      with (runPool limit schedule (poolStep limit pick p)).
    destruct (activeCount (slots p)) as [|n] eqn:Hcount.
    + (* nothing runs: every task has settled *)
      assert (Hidle : poolStep limit pick p = p) by (unfold poolStep; by rewrite Hcount).
      rewrite Hidle, runPool_idle by done. split; [done|].
      destruct Hrej as [Hnone|Hsome]; [|done].
      assert (Hq : existsb isQueued (slots p) = false).
      { destruct (existsb isQueued (slots p)); [|done]. specialize (Hactive eq_refl). lia. }
      pose proof (low_active msg _ Hall (Hlow Hnone) Hq) as Hlen.
      rewrite Hcount in Hlen.
      destruct (slots p); [done | simpl in Hlen; lia].
    + destruct (advanceNth_doomed msg info (slots p) Hall (pick mod S n) (world p))
        as (ss' & rej & Hadv & Hall' & Hsum & Hrej' & Hlow'); [done| |].
      { rewrite Hcount. apply Nat.mod_upper_bound. lia. }
      assert (Hstep : poolStep limit pick p
                = {| slots := refill limit ss'; world := world p;
                     rejection := match rejection p with
                                  | Some first => Some first
                                  | None => rej
                                  end |}).
      { unfold poolStep. by rewrite Hcount, Hadv. }
      rewrite Hstep.
      pose proof (length_advanceNth (pick mod S n) (slots p) (world p)) as Hlen.
      rewrite Hadv in Hlen. simpl in Hlen.
      destruct (promote_doomed msg ss' Hall' (limit - activeCount ss')) as [Hall'' Hsum''].
      destruct (IH {| slots := refill limit ss'; world := world p;
                      rejection := match rejection p with
                                   | Some first => Some first
                                   | None => rej
                                   end |}) as [Hworld Hfinal]; simpl.
      * exact Hall''.
      * exact Hcached.
      * unfold refill. intros Hnil.
        apply (f_equal length) in Hnil. rewrite length_promote, Hlen in Hnil.
        destruct (slots p); [done | simpl in Hnil; lia].
      * by apply refill_progress.
      * intros Hnone. unfold refill. apply promote_low.
        destruct (rejection p) eqn:Hp; [done|]. apply Hlow'; [done | by apply Hlow].
      * destruct Hrej as [-> | ->]; [exact Hrej' | by right].
      * unfold refill. rewrite length_promote, Hlen, Hsum'', Hsum.
        simpl in Hsteps. lia.
      * split; [exact Hworld | exact Hfinal].
Qed.

(** When the destination has no associated token account to derive (an
    owner off the curve, with the library's default), no signer can
    build its transaction: the batch rejects with the library's error as
    soon as the event loop has taken more steps than there are wallets,
    under every pool size and every schedule.  Nothing was submitted:
    the one call of the relay is the first fetch. *)
Theorem executeBatch_rejects_when_destination_underivable (wallets : list WalletRef)
    (plan : TransferPlan) (concurrency : Z) (apiBase : string)
    (apiKey : option string) (onResult : bool) (schedule : list nat) (w : World)
    (info : BlockhashInfo) (msg : string) :
  blockhashReply (relay w) (calls w) (RunSpec.blockhashRequest apiBase apiKey)
    = Ok info ->
  (forall wallet, In wallet wallets ->
     exists fromAta,
       getAssociatedTokenAddress (mint plan) (publicKey (keypair wallet))
       = Normal fromAta) ->
  getAssociatedTokenAddress (mint plan) (destination plan) = Throws msg ->
  wallets <> [] ->
  length wallets < length schedule ->
  executeBatch wallets plan concurrency apiBase apiKey onResult schedule w
  = (Some (Throws msg),
     withCachedBh info
       (answered (EvBlockhash (RunSpec.blockhashRequest apiBase apiKey) (Ok info)) w)).
Proof.
  intros Hreply Hfrom Hto Hne Hsteps.
  unfold executeBatch, nextBh, fetchBlockhash. simpl.
  unfold RunSpec.blockhashRequest in Hreply. rewrite Hreply. simpl.
  destruct (pLimit_max concurrency) as [-> Hlimit].
  set (limit := Z.to_nat (Z.max 1 concurrency)) in *.
  set (w1 := withCachedBh info _).
  set (tasks := map (fun wallet => signerRun wallet plan apiBase apiKey onResult) wallets).
  assert (Htasks : Forall (doomed msg) (map Queued tasks)).
  { unfold tasks. clear Hne Hsteps. induction wallets as [|wallet rest IH]; [constructor|].
    simpl. constructor; [|apply IH; intros; apply Hfrom; by right].
    destruct (Hfrom wallet) as [fromAta Hata]; [by left|].
    eexists. split; [reflexivity|]. intros info'. simpl.
    unfold buildTransferTx. by rewrite Hata, Hto. }
  destruct (promote_doomed msg _ Htasks (limit - activeCount (map Queued tasks)))
    as [Hall Hsum].
  assert (Hzero : progress (map Queued tasks) = 0).
  { unfold progress. clear. induction tasks as [|t ts IH]; [done | simpl; exact IH]. }
  assert (Hlen : length (slots (start limit tasks w1)) = length wallets).
  { simpl. unfold refill. rewrite length_promote. unfold tasks. by rewrite !length_map. }
  destruct (runPool_doomed msg info limit Hlimit schedule (start limit tasks w1))
    as [Hworld Hrej].
  - exact Hall.
  - done.
  - intros Hnil. rewrite Hnil in Hlen. destruct wallets; [done | simpl in Hlen; lia].
  - simpl. by apply refill_progress.
  - intros _. simpl. unfold refill. apply promote_low.
    clear. induction tasks as [|t ts IH]; constructor; [simpl; lia | exact IH].
  - by left.
  - rewrite Hlen. simpl. unfold refill. rewrite Hsum, Hzero. lia.
  - unfold promiseAll. rewrite Hrej. by rewrite Hworld.
Qed.

End EarlyEnd.

(** ** The log of a batch *)

Section Logs.
Import TraceSpec LogSpec.
Context (G : World -> Prop).

Lemma logs_weaken {A : Type} (p : Prog A) :
  forall (Q Q' : list Event -> A -> Prop) (E E' : list Event -> string -> Prop) n,
    (forall evs a, Q evs a -> Q' evs a) ->
    (forall evs msg, E evs msg -> E' evs msg) ->
    logs G Q E n p -> logs G Q' E' n p.
Proof.
  induction p as [a|msg|X e k IH]; intros Q Q' E E' n HQ HE Hp; simpl in *; auto.
  destruct n as [|n]; [done|]. intros w Hw.
  apply (IH _ (fun evs a => Q (delta e w ++ evs) a) _
              (fun evs msg => E (delta e w ++ evs) msg)); auto.
Qed.

Lemma logs_mono {A : Type} (p : Prog A) :
  forall (Q : list Event -> A -> Prop) (E : list Event -> string -> Prop) n n',
    n <= n' -> logs G Q E n p -> logs G Q E n' p.
Proof.
  induction p as [a|msg|X e k IH]; intros Q E n n' Hle Hp; simpl in *; try done.
  destruct n as [|n]; [done|]. destruct n' as [|n']; [lia|].
  intros w Hw. apply (IH _ _ _ n); [lia | by apply Hp].
Qed.

Lemma logs_bind {A B : Type} (m : Prog A) (f : A -> Prog B) (k : nat) :
  forall (Q1 : list Event -> A -> Prop) (Q : list Event -> B -> Prop)
         (E : list Event -> string -> Prop) n,
    logs G Q1 E n m ->
    (forall evs a, Q1 evs a ->
       logs G (fun evs' b => Q (evs ++ evs') b)
         (fun evs' msg => E (evs ++ evs') msg) k (f a)) ->
    logs G Q E (n + k) (bind m f).
Proof.
  induction m as [a|msg|X e c IH]; intros Q1 Q E n Hm Hf; simpl in *.
  - apply (logs_mono _ _ _ k); [lia|]. exact (Hf [] a Hm).
  - done.
  - destruct n as [|n]; [done|]. simpl. intros w Hw.
    apply (IH _ (fun evs a => Q1 (delta e w ++ evs) a)); [by apply Hm|].
    intros evs a Ha.
    apply (logs_weaken _ (fun evs' b => Q ((delta e w ++ evs) ++ evs') b) _
             (fun evs' msg => E ((delta e w ++ evs) ++ evs') msg));
      [| | by apply Hf].
    + intros evs' b. by rewrite <- app_assoc.
    + intros evs' msg. by rewrite <- app_assoc.
Qed.

Lemma logs_tryCatch {A : Type} (m : Prog A) (handler : string -> Prog A) (k : nat) :
  forall (Q : list Event -> A -> Prop) (E1 E : list Event -> string -> Prop) n,
    logs G Q E1 n m ->
    (forall evs msg, E1 evs msg ->
       logs G (fun evs' a => Q (evs ++ evs') a)
         (fun evs' msg' => E (evs ++ evs') msg') k (handler msg)) ->
    logs G Q E (n + k) (tryCatch m handler).
Proof.
  induction m as [a|msg|X e c IH]; intros Q E1 E n Hm Hh; simpl in *.
  - done.
  - apply (logs_mono _ _ _ k); [lia|]. exact (Hh [] msg Hm).
  - destruct n as [|n]; [done|]. simpl. intros w Hw.
    apply (IH _ _ (fun evs msg => E1 (delta e w ++ evs) msg)); [by apply Hm|].
    intros evs msg Hmsg.
    apply (logs_weaken _ (fun evs' a => Q ((delta e w ++ evs) ++ evs') a) _
             (fun evs' msg' => E ((delta e w ++ evs) ++ evs') msg'));
      [| | by apply Hh].
    + intros evs' a. by rewrite <- app_assoc.
    + intros evs' msg'. by rewrite <- app_assoc.
Qed.

Lemma balancesIn_app (xs ys : list Event) :
  balancesIn (xs ++ ys) = balancesIn xs + balancesIn ys.
Proof. induction xs as [|[] xs IH]; simpl; lia. Qed.

Lemma emittedIn_app (xs ys : list Event) :
  emittedIn (xs ++ ys) = emittedIn xs ++ emittedIn ys.
Proof. induction xs as [|[] xs IH]; simpl; by rewrite ?IH. Qed.

Lemma costs_app (s1 r1 s2 r2 : nat) (xs ys : list Event) :
  costs s1 r1 xs -> costs s2 r2 ys -> costs (s1 + s2) (r1 + r2) (xs ++ ys).
Proof.
  intros (Hs1 & Hr1 & Hb1 & He1) (Hs2 & Hr2 & Hb2 & He2). unfold costs.
  rewrite submissionsIn_app, refreshesIn_app, balancesIn_app, emittedIn_app, He1, He2.
  repeat split; first [lia | done].
Qed.

Lemma handle_log {X : Type} (e : Eff X) (w : World) :
  trace (handle e w).2 = trace w ++ delta e w /\
  calls (handle e w).2 = calls w + httpIn (delta e w).
Proof. destruct e; simpl; rewrite ?app_nil_r; split; try done; unfold httpIn; simpl; lia. Qed.

End Logs.

Section LoggedRun.
Import Solana RunSpec Batch BatchSpec TraceSpec LogSpec.
Context `{token : SplToken}.
Variables (walletName : string) (signer : Keypair).
Variables (apiBase : string) (apiKey : option string).

Local Abbreviation returning :=
  (fun step : option WalletSendResult =>
     forall r, step = Some r -> wallet r = walletName).

Lemma logs_submitOnce (tx : nat) :
  logs ready (fun evs step => costs 1 0 evs /\ returning step)
    (fun evs _ => costs 1 0 evs) 2 (submitOnce tx walletName apiBase apiKey).
Proof.
  simpl. intros w _ w' _. destruct (sendRawReply _ _ _ _); simpl; unfold costs; simpl;
    repeat split; try lia; try done.
  by intros r [= <-].
Qed.

Lemma logs_nextBh :
  logs ready (fun evs _ => costs 0 1 evs) (fun _ _ => False) 2 (nextBh apiBase apiKey).
Proof.
  simpl. intros w [Hrelay _].
  destruct (Hrelay (calls w)
              {| url := apiBase ++ "/blockhash"; headers := apiKeyHeader apiKey |})
    as [info ->].
  simpl. intros _ _. unfold costs. simpl. repeat split; try lia; done.
Qed.

Lemma logs_onFailure (tx maxRetries attempt : nat) (msg : string) :
  logs ready (fun evs step => costs 0 1 evs /\ returning step) (fun _ _ => False) 6
    (onFailure tx walletName signer (nextBh apiBase apiKey) maxRetries attempt msg).
Proof.
  unfold onFailure.
  apply (logs_bind ready _ _ 1 (fun evs _ => costs 0 1 evs) _ _ 5).
  - destruct (needsHash msg).
    + apply (logs_bind ready _ _ 3 (fun evs _ => costs 0 1 evs) _ _ 2 logs_nextBh).
      intros evs fresh Hevs. simpl. intros _ _ _ _ _ _. by rewrite !app_nil_r.
    + simpl. unfold costs. simpl. repeat split; try lia; done.
  - intros evs _ Hevs. destruct (Nat.eqb attempt maxRetries); simpl.
    + rewrite app_nil_r. split; [done|]. by intros r [= <-].
    + intros _ _. split; [|done].
      apply (costs_app 0 1 0 0 _ _ Hevs).
      unfold costs. simpl. repeat split; try lia; done.
Qed.

Lemma logs_attempt (tx maxRetries attempt : nat) :
  logs ready (fun evs step => costs 1 1 evs /\ returning step) (fun _ _ => False) 8
    (tryCatch (submitOnce tx walletName apiBase apiKey)
       (onFailure tx walletName signer (nextBh apiBase apiKey) maxRetries attempt)).
Proof.
  apply (logs_tryCatch ready _ _ 6 _ (fun evs _ => costs 1 0 evs) _ 2).
  - apply (logs_weaken ready _ (fun evs step => costs 1 0 evs /\ returning step) _
             (fun evs _ => costs 1 0 evs)); [| done | apply logs_submitOnce].
    intros evs step [Hevs Hstep]. split; [|done].
    destruct Hevs as (? & ? & ? & ?). unfold costs. repeat split; try lia; done.
  - intros evs msg Hevs.
    apply (logs_weaken ready _ (fun evs' step => costs 0 1 evs' /\ returning step) _
             (fun _ _ => False)); [| done | apply logs_onFailure].
    intros evs' step [Hevs' Hstep]. split; [|done].
    exact (costs_app 1 0 0 1 _ _ Hevs Hevs').
Qed.

Lemma logs_sendLoop (tx maxRetries : nat) :
  forall remaining attempt,
    logs ready (fun evs r => costs remaining remaining evs /\ wallet r = walletName)
      (fun _ _ => False) (8 * remaining)
      (sendLoop remaining attempt tx walletName signer apiBase apiKey
         (nextBh apiBase apiKey) maxRetries).
Proof.
  induction remaining as [|remaining IH]; intros attempt.
  - simpl. unfold costs. simpl. repeat split; try lia; done.
  - cbn [sendLoop].
    apply (logs_mono ready _ _ _ (8 + 8 * remaining)); [lia|].
    apply (logs_bind ready _ _ (8 * remaining)
             (fun evs step => costs 1 1 evs /\ returning step) _ _ 8
             (logs_attempt tx maxRetries attempt)).
    intros evs [r|] [Hevs Hr].
    + simpl. rewrite app_nil_r. split; [|by apply Hr].
      destruct Hevs as (? & ? & ? & ?). unfold costs. repeat split; try lia; done.
    + apply (logs_weaken ready _
               (fun evs' r => costs remaining remaining evs' /\ wallet r = walletName) _
               (fun _ _ => False)); [| done | apply IH].
      intros evs' r [Hevs' Hr']. split; [|done].
      exact (costs_app 1 1 remaining remaining _ _ Hevs Hevs').
Qed.

Lemma logs_buildTransferTx (from : Keypair) (plan : TransferPlan)
    (info : BlockhashInfo) (fromAta toAta : PublicKey) :
  getAssociatedTokenAddress (mint plan) (publicKey from) = Normal fromAta ->
  getAssociatedTokenAddress (mint plan) (destination plan) = Normal toAta ->
  logs ready (fun evs _ => evs = []) (fun _ _ => False) 7
    (buildTransferTx from plan info).
Proof.
  intros Hfrom Hto. unfold buildTransferTx. rewrite Hfrom, Hto.
  destruct (wantsPriorityFee plan); simpl; done.
Qed.

End LoggedRun.

Section LoggedPool.
Import Solana RunSpec PLimit Batch BatchSpec TraceSpec LogSpec.
Context `{token : SplToken}.

(** In a ready world the run of a signer whose accounts derive makes at
    most three submissions and three fetches of a hash, and hands the
    outcome it returns to the observer, last. *)
Lemma logs_signerRun (wallet0 : WalletRef) (plan : TransferPlan)
    (apiBase : string) (apiKey : option string) (onResult : bool)
    (fromAta toAta : PublicKey) :
  getAssociatedTokenAddress (mint plan) (publicKey (keypair wallet0)) = Normal fromAta ->
  getAssociatedTokenAddress (mint plan) (destination plan) = Normal toAta ->
  logs ready (reported onResult (name wallet0)) (fun _ _ => False) signerRunEffects
    (signerRun wallet0 plan apiBase apiKey onResult).
Proof.
  intros Hfrom Hto. unfold signerRun, signerRunEffects.
  change (1 + 7 + 8 * defaultMaxRetries + 1)
    with (S (7 + (8 * defaultMaxRetries + 1))).
  cbn [bind perform]. intros w [_ [info Hinfo]]. cbn [handle fst delta app].
  rewrite Hinfo.
  apply (logs_bind ready _ _ (8 * defaultMaxRetries + 1) (fun evs _ => evs = []) _ _ 7
           (logs_buildTransferTx _ _ _ _ _ Hfrom Hto)).
  intros evs tx ->. cbn [app].
  apply (logs_bind ready _ _ 1
           (fun evs r => costs defaultMaxRetries defaultMaxRetries evs /\
                         wallet r = name wallet0) _ _ (8 * defaultMaxRetries)).
  { apply logs_sendLoop. }
  intros evs r [Hevs Hr]. destruct onResult; simpl.
  - intros _ _. split; [done|]. by exists evs.
  - split; [done|]. exists evs. by rewrite !app_nil_r.
Qed.

End LoggedPool.

Section LoggedBatch.
Import Solana RunSpec PLimit Batch BatchSpec TraceSpec LogSpec.
Context `{token : SplToken}.
Variable onResult : bool.

Local Abbreviation budgets := (fun ghosts : list Ghost => sum_list (map budget ghosts)).
Local Abbreviation seenBy := (fun ghosts : list Ghost => concat (map seen ghosts)).

Lemma promote_logged (ghosts : list Ghost) (ss : list Slot) :
  Forall2 (slotLogged onResult) ghosts ss ->
  forall free, Forall2 (slotLogged onResult) ghosts (promote free ss).
Proof.
  induction 1 as [|g s ghosts ss Hs Hrest IH]; intros free; simpl; [constructor|].
  destruct free as [|free]; [by constructor|].
  destruct s; constructor; auto.
Qed.

(** Advancing a running task: its events go to the log and to its
    account, and nothing is rejected. *)
Lemma advanceNth_logged (ghosts : list Ghost) (ss : list Slot) :
  Forall2 (slotLogged onResult) ghosts ss ->
  forall (k : nat) (w : World),
    ready w -> k < activeCount ss ->
    exists ghosts' ss' w' d,
      advanceNth k ss w = (ss', w', None) /\
      Forall2 (slotLogged onResult) ghosts' ss' /\
      budgets ghosts' < budgets ghosts /\
      map owner ghosts' = map owner ghosts /\
      ready w' /\
      trace w' = trace w ++ d /\
      calls w' = calls w + httpIn d /\
      Permutation (seenBy ghosts ++ d) (seenBy ghosts').
Proof.
  induction 1 as [|g s ghosts ss Hs Hrest IH]; intros k w Hw Hk;
    simpl in Hk; [lia|].
  assert (Hskip : forall k', k' < activeCount ss ->
    exists ghosts' ss' w' d,
      (let '(rest', w', rej) := advanceNth k' ss w in (s :: rest', w', rej))
      = (ss', w', None) /\
      Forall2 (slotLogged onResult) ghosts' ss' /\
      budgets ghosts' < budgets (g :: ghosts) /\
      map owner ghosts' = map owner (g :: ghosts) /\
      ready w' /\
      trace w' = trace w ++ d /\
      calls w' = calls w + httpIn d /\
      Permutation (seenBy (g :: ghosts) ++ d) (seenBy ghosts')).
  { intros k' Hk'.
    destruct (IH k' w Hw Hk')
      as (ghosts' & ss' & w' & d & -> & Hok & Hsum & Hown & Hw' & Htrace & Hcalls & Hperm).
    exists (g :: ghosts'), (s :: ss'), w', d.
    split; [done|]. split; [by constructor|]. split; [simpl; lia|].
    split; [simpl; by rewrite Hown|]. split; [done|]. split; [done|]. split; [done|].
    simpl. rewrite <- app_assoc. by apply Permutation_app_head. }
  destruct s as [body|body|r|msg]; simpl; try (apply Hskip; simpl in Hk; lia).
  destruct k as [|k]; [|apply Hskip; simpl in Hk; lia].
  destruct g as [nm b acc]. simpl in Hs.
  destruct b as [|n]; [done|].
  destruct body as [r|msg|X e c]; simpl in *; [| done |].
  - exists ({| owner := nm; budget := 0; seen := acc |} :: ghosts),
           (Fulfilled r :: ss), w, [].
    split; [done|]. split; [constructor; [|done]; simpl; by rewrite app_nil_r in Hs|].
    split; [simpl; lia|]. split; [done|]. split; [done|].
    split; [by rewrite app_nil_r|]. split; [unfold httpIn; simpl; lia|].
    by rewrite app_nil_r.
  - destruct n as [|n]; [done|].
    pose proof (Hs w Hw) as Hnext. pose proof (ready_handle e w Hw) as Hw'.
    destruct (handle_log e w) as [Htrace Hcalls].
    destruct (handle e w) as [x w'] eqn:Hhandle. simpl in *.
    exists ({| owner := nm; budget := S n; seen := acc ++ delta e w |} :: ghosts),
           (Running (c x) :: ss), w', (delta e w).
    split; [done|]. split.
    { constructor; [|done]. simpl.
      apply (logs_weaken ready _
               (fun evs r => reported onResult nm (acc ++ delta e w ++ evs) r) _
               (fun _ _ => False)); [| done | exact Hnext].
      intros evs r. by rewrite app_assoc. }
    split; [simpl; lia|]. split; [done|]. split; [done|]. split; [done|].
    split; [done|]. simpl.
    rewrite <- !app_assoc. apply Permutation_app_head, Permutation_app_comm.
Qed.

(** Settled slots hold the outcomes, each with the log of its run. *)
Lemma settled_logged (ghosts : list Ghost) (ss : list Slot) :
  Forall2 (slotLogged onResult) ghosts ss ->
  activeCount ss = 0 -> existsb isQueued ss = false ->
  exists rs,
    values ss = Some rs /\
    Forall2 (fun g r => reported onResult (owner g) (seen g) r) ghosts rs.
Proof.
  induction 1 as [|g s ghosts ss Hs Hrest IH]; intros Hactive Hqueued.
  - by exists [].
  - destruct s as [body|body|r|msg]; simpl in *; try done.
    destruct IH as (rs & Hvalues & Hall); [lia | done |].
    exists (r :: rs). rewrite Hvalues. split; [done | by constructor].
Qed.

Lemma spent_logged (ghosts : list Ghost) (ss : list Slot) :
  Forall2 (slotLogged onResult) ghosts ss -> budgets ghosts = 0 ->
  activeCount ss = 0 /\ existsb isQueued ss = false.
Proof.
  induction 1 as [|g s ghosts ss Hs Hrest IH]; intros Hsum; [done|].
  simpl in Hsum. assert (Hb : budget g = 0) by lia.
  destruct IH as [Hactive Hqueued]; [lia|].
  destruct s; simpl in *; rewrite ?Hb in Hs; done.
Qed.

(** Any schedule at least as long as the budget settles every task;
    the log has grown by the events of the tasks, interleaved. *)
Lemma runPool_logged (limit : nat) :
  1 <= limit ->
  forall (schedule : list nat) (ghosts : list Ghost) (p : Pool),
    Forall2 (slotLogged onResult) ghosts (slots p) ->
    ready (world p) ->
    rejection p = None ->
    (existsb isQueued (slots p) = true -> 1 <= activeCount (slots p)) ->
    budgets ghosts <= length schedule ->
    exists ghosts' rs evs,
      promiseAll (runPool limit schedule p) = Some (Normal rs) /\
      Forall2 (fun g r => reported onResult (owner g) (seen g) r) ghosts' rs /\
      map owner ghosts' = map owner ghosts /\
      trace (world (runPool limit schedule p)) = trace (world p) ++ evs /\
      calls (world (runPool limit schedule p)) = calls (world p) + httpIn evs /\
      Permutation (seenBy ghosts ++ evs) (seenBy ghosts').
Proof.
  intros Hlimit.
  assert (Hidle : forall schedule ghosts p,
    Forall2 (slotLogged onResult) ghosts (slots p) -> rejection p = None ->
    activeCount (slots p) = 0 -> existsb isQueued (slots p) = false ->
    exists ghosts' rs evs,
      promiseAll (runPool limit schedule p) = Some (Normal rs) /\
      Forall2 (fun g r => reported onResult (owner g) (seen g) r) ghosts' rs /\
      map owner ghosts' = map owner ghosts /\
      trace (world (runPool limit schedule p)) = trace (world p) ++ evs /\
      calls (world (runPool limit schedule p)) = calls (world p) + httpIn evs /\
      Permutation (seenBy ghosts ++ evs) (seenBy ghosts')).
  { intros schedule ghosts p Hok Hrej Hactive Hqueued.
    rewrite runPool_idle by done. unfold promiseAll. rewrite Hrej.
    destruct (settled_logged _ _ Hok Hactive Hqueued) as (rs & -> & Hall).
    exists ghosts, rs, []. rewrite !app_nil_r.
    repeat split; first [done | unfold httpIn; simpl; lia]. }
  induction schedule as [|pick schedule IH];
    intros ghosts p Hok Hw Hrej Hprogress Hsum.
  - destruct (spent_logged _ _ Hok) as [Hactive Hqueued]; [simpl in Hsum; lia|].
    by apply (Hidle [] ghosts).
  - destruct (activeCount (slots p)) as [|n] eqn:Hactive.
    + apply (Hidle _ ghosts); try done.
      destruct (existsb isQueued (slots p)); [|done].
      specialize (Hprogress eq_refl). lia.
    + change (runPool limit (pick :: schedule) p)
        with (runPool limit schedule (poolStep limit pick p)).
      destruct (advanceNth_logged _ _ Hok (pick mod S n) (world p) Hw)
        as (ghosts1 & ss1 & w1 & d & Hadv & Hok1 & Hsum1 & Hown1 & Hw1
            & Htrace1 & Hcalls1 & Hperm1).
      { rewrite Hactive. apply Nat.mod_upper_bound. lia. }
      assert (Hstep : poolStep limit pick p
                = {| slots := refill limit ss1; world := w1; rejection := None |}).
      { unfold poolStep. by rewrite Hactive, Hadv, Hrej. }
      rewrite Hstep.
      destruct (IH ghosts1 {| slots := refill limit ss1; world := w1;
                              rejection := None |})
        as (ghosts2 & rs & evs & Hall & Hrep & Hown2 & Htrace2 & Hcalls2 & Hperm2).
      * simpl. by apply promote_logged.
      * done.
      * done.
      * simpl. by apply refill_progress.
      * simpl in Hsum. lia.
      * exists ghosts2, rs, (d ++ evs). simpl in *.
        split; [done|]. split; [done|]. split; [by rewrite Hown2|].
        split; [by rewrite Htrace2, Htrace1, app_assoc|].
        split.
        { rewrite Hcalls2, Hcalls1. unfold httpIn.
          rewrite submissionsIn_app, refreshesIn_app, balancesIn_app. lia. }
        rewrite app_assoc. rewrite <- Hperm2. by apply Permutation_app_tail.
Qed.

Lemma tasks_logged (plan : TransferPlan) (apiBase : string) (apiKey : option string)
    (wallets : list WalletRef) :
  buildable wallets plan ->
  Forall2 (slotLogged onResult)
    (map (fun wallet => {| owner := name wallet; budget := S signerRunEffects;
                           seen := [] |}) wallets)
    (map Queued (map (fun wallet => signerRun wallet plan apiBase apiKey onResult)
                   wallets)).
Proof.
  intros [Hfrom [toAta Hto]].
  induction wallets as [|wallet rest IH]; [constructor|].
  simpl. constructor.
  - destruct (Hfrom wallet) as [fromAta Hata]; [by left|].
    simpl. exact (logs_signerRun wallet plan apiBase apiKey onResult _ _ Hata Hto).
  - apply IH. intros wallet' Hin. apply Hfrom. by right.
Qed.

Lemma submissionsIn_Permutation (xs ys : list Event) :
  Permutation xs ys -> submissionsIn xs = submissionsIn ys.
Proof.
  induction 1 as [|x xs ys _ IH|x y xs|xs ys zs _ IH1 _ IH2]; simpl;
    [done | destruct x; by rewrite IH | by destruct x, y | congruence].
Qed.

Lemma refreshesIn_Permutation (xs ys : list Event) :
  Permutation xs ys -> refreshesIn xs = refreshesIn ys.
Proof.
  induction 1 as [|x xs ys _ IH|x y xs|xs ys zs _ IH1 _ IH2]; simpl;
    [done | destruct x; by rewrite IH | by destruct x, y | congruence].
Qed.

Lemma balancesIn_Permutation (xs ys : list Event) :
  Permutation xs ys -> balancesIn xs = balancesIn ys.
Proof.
  induction 1 as [|x xs ys _ IH|x y xs|xs ys zs _ IH1 _ IH2]; simpl;
    [done | destruct x; by rewrite IH | by destruct x, y | congruence].
Qed.

Lemma emittedIn_Permutation (xs ys : list Event) :
  Permutation xs ys -> Permutation (emittedIn xs) (emittedIn ys).
Proof.
  induction 1 as [|x xs ys _ IH|x y xs|xs ys zs _ IH1 _ IH2]; simpl.
  - done.
  - destruct x; by rewrite ?IH.
  - destruct x, y; try done. apply perm_swap.
  - by rewrite IH1.
Qed.

(** The accounts of finished runs, added up. *)
Lemma reported_total (ghosts : list Ghost) (rs : list WalletSendResult) :
  Forall2 (fun g r => reported onResult (owner g) (seen g) r) ghosts rs ->
  map wallet rs = map owner ghosts /\
  emittedIn (seenBy ghosts) = (if onResult then rs else []) /\
  submissionsIn (seenBy ghosts) <= defaultMaxRetries * length rs /\
  refreshesIn (seenBy ghosts) <= defaultMaxRetries * length rs /\
  balancesIn (seenBy ghosts) = 0.
Proof.
  induction 1 as [|g r ghosts rs (Hname & pre & Hseen & Hs & Hr & Hb & He) _ IH].
  - simpl. by destruct onResult.
  - destruct IH as (Hnames & Hemit & Hsub & Href & Hbal). simpl.
    rewrite emittedIn_app, submissionsIn_app, refreshesIn_app, balancesIn_app.
    rewrite Hseen, emittedIn_app, submissionsIn_app, refreshesIn_app, balancesIn_app.
    rewrite He, Hemit, Hb, Hbal, Hname, Hnames.
    unfold defaultMaxRetries in *.
    split; [done|]. destruct onResult; simpl; repeat split; try done; lia.
Qed.

(** What a batch leaves in the log. *)
Lemma executeBatch_logged (wallets : list WalletRef) (plan : TransferPlan)
    (concurrency : Z) (apiBase : string) (apiKey : option string)
    (schedule : list nat) (w : World) :
  refreshable w ->
  buildable wallets plan ->
  enoughSteps (length wallets) <= length schedule ->
  exists (results : list WalletSendResult) (evs : list Event) (w' : World),
    executeBatch wallets plan concurrency apiBase apiKey onResult schedule w
      = (Some (Normal results), w') /\
    map wallet results = map name wallets /\
    trace w' = trace w ++ evs /\
    calls w' = calls w + httpIn evs /\
    Permutation (emittedIn evs) (if onResult then results else []) /\
    submissionsIn evs <= defaultMaxRetries * length wallets /\
    refreshesIn evs <= 1 + defaultMaxRetries * length wallets /\
    balancesIn evs = 0.
Proof.
  intros Hrelay Hbuild Hsteps. unfold executeBatch.
  assert (Hfirst : exists info,
    run (nextBh apiBase apiKey) w
    = (Normal info,
       withCachedBh info
         (answered (EvBlockhash (blockhashRequest apiBase apiKey) (Ok info)) w))).
  { unfold nextBh, fetchBlockhash. simpl.
    destruct (Hrelay (calls w) (blockhashRequest apiBase apiKey)) as [info Hinfo].
    unfold blockhashRequest in Hinfo. rewrite Hinfo. by exists info. }
  destruct Hfirst as [info ->].
  set (w1 := withCachedBh info _).
  assert (Hw1 : ready w1) by (split; [exact Hrelay | by eexists]).
  destruct (pLimit_max concurrency) as [-> Hlimit].
  set (limit := Z.to_nat (Z.max 1 concurrency)) in *.
  set (tasks := map (fun wallet => signerRun wallet plan apiBase apiKey onResult) wallets).
  set (ghosts := map (fun wallet => {| owner := name wallet;
                                       budget := S signerRunEffects;
                                       seen := [] |}) wallets).
  destruct (runPool_logged limit Hlimit schedule ghosts (start limit tasks w1))
    as (ghosts' & results & evs & Hall & Hrep & Hown & Htrace & Hcalls & Hperm).
  - simpl. apply promote_logged. by apply tasks_logged.
  - done.
  - done.
  - simpl. by apply refill_progress.
  - unfold ghosts. rewrite map_map. simpl.
    replace (map (fun _ : WalletRef => S signerRunEffects) wallets)
      with (replicate (length wallets) (S signerRunEffects))
      by (clear; induction wallets as [|? ? IH]; simpl; by rewrite ?IH).
    rewrite sum_list_replicate. exact Hsteps.
  - assert (Hnone : seenBy ghosts = []).
    { unfold ghosts. clear. induction wallets as [|? ? IH]; [done | simpl; exact IH]. }
    rewrite Hnone in Hperm. simpl in Hperm.
    destruct (reported_total _ _ Hrep) as (Hnames & Hemit & Hsub & Href & Hbal).
    assert (Hlen : length results = length wallets).
    { rewrite <- (length_map wallet), Hnames, Hown. unfold ghosts.
      by rewrite !length_map. }
    exists results, (EvBlockhash (blockhashRequest apiBase apiKey) (Ok info) :: evs),
           (world (runPool limit schedule (start limit tasks w1))).
    rewrite Hall. split; [done|]. split.
    { rewrite Hnames, Hown. unfold ghosts. by rewrite map_map. }
    split; [rewrite Htrace; simpl; by rewrite <- app_assoc|].
    split; [rewrite Hcalls; unfold httpIn; simpl; lia|].
    split; [simpl; rewrite <- Hemit; by apply emittedIn_Permutation|].
    rewrite Hlen in Hsub, Href. unfold defaultMaxRetries in *. simpl.
    rewrite (submissionsIn_Permutation _ _ Hperm), (refreshesIn_Permutation _ _ Hperm),
      (balancesIn_Permutation _ _ Hperm).
    repeat split; try done; lia.
Qed.

End LoggedBatch.

Section BatchLog.
Import Solana RunSpec PLimit Batch BatchSpec TraceSpec LogSpec.
Context `{token : SplToken}.



End BatchLog.

(** ** Further concrete cases *)

Section FurtherScenarios.
Import Solana RunSpec PLimit Batch BatchSpec TraceSpec LogSpec Scenario Cases.

(** Refused twice, for other reasons than staleness, accepted the
    third time: three submissions, waits of 150 and 300 ms. *)
Lemma sendWithRetry_accepted_after_failures_witness :
  let w := built relayThirdTime in
  2 < defaultMaxRetries /\
  (forall j, j < 2 ->
     exists msg, failureOf (replyAt api None 0 w j) = Some msg /\
                 needsHash msg = false) /\
  replyAt api None 0 w 2 = Ok "5igC" /\
  exists (evs : list Event) (w' : World),
    run (sendWithRetry 0 "alice" (keypair alice) api None (nextBh api None)
           defaultMaxRetries) w
      = (Normal (confirmed "alice" "5igC"), w') /\
    TraceSpec.submissionsIn evs = 3 /\
    timeoutsIn evs = [150; 300]%Z.
Proof.
  cbv zeta.
  assert (H1 : 2 < defaultMaxRetries) by (vm_compute; lia).
  assert (H2 : forall j, j < 2 ->
            exists msg, failureOf (replyAt api None 0 (built relayThirdTime) j) = Some msg /\
                        needsHash msg = false).
  { intros j Hj. destruct j as [|[|j]]; [| |lia]; eexists; split; reflexivity. }
  assert (H3 : replyAt api None 0 (built relayThirdTime) 2 = Ok "5igC") by reflexivity.
  split; [exact H1|]. split; [exact H2|]. split; [exact H3|].
  destruct (sendWithRetry_accepted_after_failures 0 "alice" (keypair alice) api None
              (nextBh api None) defaultMaxRetries 2 (built relayThirdTime) "5igC"
              H1 H2 H3)
    as (evs & w' & Hrun & _ & Hsub & _ & Hwaits & _).
  exists evs, w'. split; [exact Hrun|]. split; [exact Hsub | exact Hwaits].
Defined.

(** One attempt allowed, refused as stale: the hash is fetched and the
    transaction signed again, and the outcome is the failure. *)
Lemma last_attempt_still_refreshes_witness :
  let t := expectedTransaction (keypair alice) plan hash0 "ata(M,A)" "ata(M,D)" in
  let w := built relayStaleOnce in
  txs w !! 0 = Some t /\
  failureOf (replyAt api None 0 w 0) = Some "Blockhash not found" /\
  needsHash "Blockhash not found" = true /\
  blockhashReply (relay w) (S (calls w)) (blockhashRequest api None) = Ok hash1 /\
  exists w',
    run (sendWithRetry 0 "alice" (keypair alice) api None (nextBh api None) 1) w
      = (Normal (failed "alice" "Blockhash not found"), w') /\
    txs w' !! 0 = Some (rebound (keypair alice) hash1 t) /\
    calls w' = calls w + 2.
Proof.
  cbv zeta.
  assert (H1 : txs (built relayStaleOnce) !! 0
               = Some (expectedTransaction (keypair alice) plan hash0
                         "ata(M,A)" "ata(M,D)")) by reflexivity.
  assert (H2 : failureOf (replyAt api None 0 (built relayStaleOnce) 0)
               = Some "Blockhash not found") by reflexivity.
  assert (H3 : needsHash "Blockhash not found" = true) by reflexivity.
  assert (H4 : blockhashReply (relay (built relayStaleOnce))
                 (S (calls (built relayStaleOnce))) (blockhashRequest api None)
               = Ok hash1) by reflexivity.
  split; [exact H1|]. split; [exact H2|]. split; [exact H3|]. split; [exact H4|].
  destruct (last_attempt_still_refreshes 0 "alice" (keypair alice) api None 1
              (built relayStaleOnce) _ _ hash1 H1 H2 H3 H4)
    as (w' & Hrun & _ & Htx & _ & Hcalls).
  exists w'. split; [exact Hrun|]. split; [exact Htx | exact Hcalls].
Defined.

(** A destination off the curve: the batch of alice and bob rejects
    and the relay has only served the first hash. *)
Lemma executeBatch_rejects_when_destination_underivable_witness :
  blockhashReply (relay (fresh relayRefusing)) (calls (fresh relayRefusing))
    (blockhashRequest api None) = Ok hash0 /\
  (forall wallet0, In wallet0 [alice; bob] ->
     exists fromAta,
       getAssociatedTokenAddress (SplToken := strictAccounts) (mint planToPda)
         (publicKey (keypair wallet0)) = Normal fromAta) /\
  getAssociatedTokenAddress (SplToken := strictAccounts) (mint planToPda)
    (destination planToPda) = Throws "TokenOwnerOffCurveError" /\
  [alice; bob] <> [] /\
  length [alice; bob] < length (roundRobin 3) /\
  let res := executeBatch (token := strictAccounts) [alice; bob] planToPda 8 api None
               true (roundRobin 3) (fresh relayRefusing) in
  res.1 = Some (Throws "TokenOwnerOffCurveError") /\ calls res.2 = 1.
Proof.
  assert (H1 : blockhashReply (relay (fresh relayRefusing)) (calls (fresh relayRefusing))
                 (blockhashRequest api None) = Ok hash0) by reflexivity.
  assert (H2 : forall wallet0, In wallet0 [alice; bob] ->
            exists fromAta,
              getAssociatedTokenAddress (SplToken := strictAccounts) (mint planToPda)
                (publicKey (keypair wallet0)) = Normal fromAta).
  { intros wallet0 [<- | [<- | []]]; eexists; reflexivity. }
  assert (H3 : getAssociatedTokenAddress (SplToken := strictAccounts) (mint planToPda)
                 (destination planToPda) = Throws "TokenOwnerOffCurveError")
    by reflexivity.
  assert (H4 : [alice; bob] <> []) by done.
  assert (H5 : length [alice; bob] < length (roundRobin 3)) by (vm_compute; lia).
  split; [exact H1|]. split; [exact H2|]. split; [exact H3|]. split; [exact H4|].
  split; [exact H5|]. cbv zeta.
  rewrite (executeBatch_rejects_when_destination_underivable (token := strictAccounts)
             [alice; bob] planToPda 8 api None true (roundRobin 3)
             (fresh relayRefusing) hash0 "TokenOwnerOffCurveError" H1 H2 H3 H4 H5).
  split; reflexivity.
Defined.



End FurtherScenarios.

(** ** The dashboard: selection and rows *)

Section Selection.
Import Ui.

Lemma includesName_In (nm : string) (names : list string) :
  includesName nm names = true <-> In nm names.
Proof.
  unfold includesName. rewrite existsb_exists. split.
  - intros (n & Hin & Heq). apply String.eqb_eq in Heq. by subst.
  - intros Hin. exists nm. split; [done | apply String.eqb_refl].
Qed.

Lemma includesName_not_In (nm : string) (names : list string) :
  includesName nm names = false <-> ~ In nm names.
Proof.
  rewrite <- includesName_In.
  destruct (includesName nm names); split; first [done | intros H; by destruct H].
Qed.

Lemma filter_sublist {A : Type} (f : A -> bool) (l : list A) :
  sublist (List.filter f l) l.
Proof.
  induction l as [|a l IH]; simpl; [constructor|].
  destruct (f a); by constructor.
Qed.

Lemma filter_all {A : Type} (f : A -> bool) (l : list A) :
  (forall a, In a l -> f a = true) -> List.filter f l = l.
Proof.
  induction l as [|a l IH]; intros Hall; simpl; [done|].
  rewrite (Hall a) by (by left). f_equal. apply IH. intros b Hb. apply Hall. by right.
Qed.

Lemma filter_none {A : Type} (f : A -> bool) (l : list A) :
  List.filter f l = [] <-> forall a, In a l -> f a = false.
Proof.
  induction l as [|a l IH]; simpl; [done|].
  destruct (f a) eqn:Hfa; split.
  - done.
  - intros Hall. specialize (Hall a (or_introl eq_refl)). congruence.
  - intros Hnil b [<- | Hb]; [done | by apply IH].
  - intros Hall. apply IH. intros b Hb. apply Hall. by right.
Qed.

Lemma NoDup_List_filter {A : Type} (f : A -> bool) (l : list A) :
  NoDup l -> NoDup (List.filter f l).
Proof.
  induction 1 as [|a l Ha Hl IH]; simpl; [constructor|].
  destruct (f a); [|done]. constructor; [|done].
  intros Hin. apply Ha. apply list_elem_of_In. apply list_elem_of_In in Hin.
  by apply filter_In in Hin as [? _].
Qed.

Lemma selectedWallets_sublist (selected : list string) (wallets : list WalletRef) :
  sublist (selectedWallets selected wallets) wallets.
Proof. destruct selected; simpl; [done | apply filter_sublist]. Qed.

(** The signers of a batch are the wallets in their order, without
    those that are not ticked; an empty selection stands for all the
    wallets, so that no wallet is selected only when there is none or
    when every ticked name is the name of no wallet. *)
Theorem selectedWallets_spec (selected : list string) (wallets : list WalletRef) :
  sublist (selectedWallets selected wallets) wallets /\
  (forall w, In w (selectedWallets selected wallets) <->
             In w wallets /\ (selected = [] \/ In (name w) selected)) /\
  (selectedWallets selected wallets = [] <->
   wallets = [] \/
   (selected <> [] /\ forall w, In w wallets -> ~ In (name w) selected)).
Proof.
  destruct selected as [|nm rest]; simpl.
  - split; [done|]. split.
    + intros w. split; [by split; [|left] | by intros [? _]].
    + split; [by left | by intros [-> | [? _]]].
  - split; [apply filter_sublist|]. split.
    + intros w. rewrite filter_In, (includesName_In (name w) (nm :: rest)).
      split; [intros [? ?]; split; [done | by right] | intros [? [? | ?]]; done].
    + rewrite filter_none. split.
      * intros Hall. right. split; [done|]. intros w Hw.
        apply (includesName_not_In (name w) (nm :: rest)). by apply Hall.
      * intros [-> | [_ Hall]]; [done|]. intros w Hw.
        apply (includesName_not_In (name w) (nm :: rest)). by apply Hall.
Qed.

Lemma toggleWallet_In (nm : string) (prev : list string) (n : string) :
  In n (toggleWallet nm prev) <->
  (n = nm /\ ~ In nm prev) \/ (n <> nm /\ In n prev).
Proof.
  unfold toggleWallet. destruct (includesName nm prev) eqn:Hin.
  - apply includesName_In in Hin. rewrite filter_In. split.
    + intros [Hn Hne]. right. split; [|done].
      intros ->. by rewrite String.eqb_refl in Hne.
    + intros [[_ Hno] | [Hne Hn]]; [done|]. split; [done|].
      apply negb_true_iff, String.eqb_neq. done.
  - apply includesName_not_In in Hin. rewrite in_app_iff. simpl. split.
    + intros [Hn | [<- | []]]; [|by left].
      right. split; [|done]. intros ->. done.
    + intros [[-> _] | [_ Hn]]; [right; by left | by left].
Qed.

(** Ticking a box flips that wallet and no other, and the list of
    ticked names keeps having no name twice. *)
Theorem toggleWallet_flips_one (nm : string) (prev : list string) :
  (In nm (toggleWallet nm prev) <-> ~ In nm prev) /\
  (forall n, n <> nm -> In n (toggleWallet nm prev) <-> In n prev) /\
  (NoDup prev -> NoDup (toggleWallet nm prev)).
Proof.
  split; [|split].
  - rewrite toggleWallet_In. split; [by intros [[_ ?] | [? _]] | by left].
  - intros n Hne. rewrite toggleWallet_In. split; [by intros [[? _] | [_ ?]] | by right].
  - intros Hnodup. unfold toggleWallet. destruct (includesName nm prev) eqn:Hin.
    + by apply NoDup_List_filter.
    + apply includesName_not_In in Hin. apply NoDup_app. split; [done|].
      split; [|apply NoDup_singleton].
      intros n Hn Hn'. apply list_elem_of_singleton in Hn'. subst.
      by apply list_elem_of_In in Hn.
Qed.

(** Unticking the only ticked wallet does not empty the batch: with
    nothing ticked every wallet is a signer again. *)
Theorem unticking_the_last_selects_all (nm : string) (prev : list string)
    (wallets : list WalletRef) :
  prev <> [] ->
  (forall n, In n prev -> n = nm) ->
  toggleWallet nm prev = [] /\
  selectedWallets (toggleWallet nm prev) wallets = wallets.
Proof.
  intros Hne Hall.
  assert (Hempty : toggleWallet nm prev = []).
  { unfold toggleWallet.
    assert (Hin : includesName nm prev = true).
    { apply includesName_In. destruct prev as [|n rest]; [done|].
      rewrite <- (Hall n); by left. }
    rewrite Hin. apply filter_none. intros n Hn.
    rewrite (Hall n Hn). by rewrite String.eqb_refl. }
  by rewrite Hempty.
Qed.

Lemma fold_recordResult_snoc (init rs : list WalletSendResult) (r : WalletSendResult) :
  fold_left recordResult (rs ++ [r]) init
  = recordResult (fold_left recordResult rs init) r.
Proof. by rewrite fold_left_app. Qed.

Lemma recordResult_names (rows : list WalletSendResult) (r : WalletSendResult) :
  map wallet (recordResult rows r)
  = List.filter (fun n => negb (String.eqb n (wallet r))) (map wallet rows) ++ [wallet r].
Proof.
  unfold recordResult. rewrite map_app. f_equal.
  induction rows as [|p rows IH]; simpl; [done|].
  destruct (negb (String.eqb (wallet p) (wallet r))); simpl; by rewrite IH.
Qed.

Lemma recordResult_fresh (rows : list WalletSendResult) (r : WalletSendResult) :
  ~ In (wallet r) (map wallet rows) -> recordResult rows r = rows ++ [r].
Proof.
  intros Hfresh. unfold recordResult. f_equal. apply filter_all.
  intros p Hp. apply negb_true_iff, String.eqb_neq. intros Heq.
  apply Hfresh. rewrite <- Heq. by apply in_map.
Qed.

Lemma rows_unique (rs init : list WalletSendResult) :
  NoDup (map wallet init) -> NoDup (map wallet (fold_left recordResult rs init)).
Proof.
  intros Hinit. induction rs as [|r rs IH] using rev_ind; [done|].
  rewrite fold_recordResult_snoc, recordResult_names.
  apply NoDup_app. split; [by apply NoDup_List_filter|].
  split; [|apply NoDup_singleton].
  intros n Hn Hn'. apply list_elem_of_singleton in Hn'. subst.
  apply list_elem_of_In, filter_In in Hn. destruct Hn as [_ Hn].
  by rewrite String.eqb_refl in Hn.
Qed.

Lemma rows_names (rs init : list WalletSendResult) (nm : string) :
  In nm (map wallet (fold_left recordResult rs init)) <->
  In nm (map wallet init) \/ In nm (map wallet rs).
Proof.
  induction rs as [|r rs IH] using rev_ind; [simpl; tauto|].
  rewrite fold_recordResult_snoc, recordResult_names, map_app, !in_app_iff, filter_In, IH.
  simpl. destruct (String.eqb nm (wallet r)) eqn:Heq.
  - apply String.eqb_eq in Heq. subst. simpl. split; [|by right; left].
    intros _. right. right. by left.
  - apply String.eqb_neq in Heq. simpl. split.
    + intros [[[? | ?] _] | [? | []]]; [by left | by right; left | by right; right; left].
    + intros [? | [? | [? | []]]]; [by left; split; [left|] | by left; split; [right|] |].
      by right; left.
Qed.

Lemma rows_last (pre post init : list WalletSendResult) (r : WalletSendResult) :
  ~ In (wallet r) (map wallet post) ->
  In r (fold_left recordResult (pre ++ r :: post) init).
Proof.
  induction post as [|x post IH] using rev_ind; intros Hlast.
  - rewrite fold_recordResult_snoc. unfold recordResult.
    apply in_app_iff. right. by left.
  - rewrite map_app, in_app_iff in Hlast. simpl in Hlast.
    change (pre ++ r :: post ++ [x]) with (pre ++ (r :: post) ++ [x]).
    rewrite app_assoc, fold_recordResult_snoc. unfold recordResult.
    apply in_app_iff. left. apply filter_In. split; [apply IH; tauto|].
    apply negb_true_iff, String.eqb_neq. intros Heq. apply Hlast. right. by left.
Qed.

Lemma rows_distinct (rs : list WalletSendResult) :
  NoDup (map wallet rs) -> fold_left recordResult rs [] = rs.
Proof.
  induction rs as [|r rs IH] using rev_ind; intros Hnodup; [done|].
  rewrite map_app in Hnodup. apply NoDup_app in Hnodup as (Hrs & Hfresh & _).
  rewrite fold_recordResult_snoc, IH by done.
  apply recordResult_fresh. intros Hin.
  apply (Hfresh (wallet r)); [by apply list_elem_of_In | simpl; by left].
Qed.

(** The rows of the result panel, whatever outcomes arrive and in
    whatever order: one row per wallet name, for the names that have
    reported, holding the latest outcome of its name; when every outcome
    has a name of its own the rows are the outcomes in order of arrival. *)
Theorem rows_keep_latest_outcome_per_name (rs init : list WalletSendResult) :
  let rows := fold_left recordResult rs init in
  (NoDup (map wallet init) -> NoDup (map wallet rows)) /\
  (forall nm, In nm (map wallet rows) <->
              In nm (map wallet init) \/ In nm (map wallet rs)) /\
  (forall pre r post, rs = pre ++ r :: post ->
     ~ In (wallet r) (map wallet post) -> In r rows) /\
  (NoDup (map wallet rs) -> fold_left recordResult rs [] = rs).
Proof.
  cbv zeta. split; [apply rows_unique|]. split; [apply rows_names|].
  split; [|apply rows_distinct].
  intros pre r post ->. apply rows_last.
Qed.

End Selection.

(** ** The dashboard: the password gate *)

Section Gate.
Import Ui.

Lemma tryGate_invariant (envGate : string) (inputs : list string) :
  forall (s : Session) (store : Storage),
    (isAuthed s = true <-> store !! AUTH_STORAGE_KEY = Some "true") ->
    let res := tryGate envGate inputs s store in
    (isAuthed res.1 = true <->
     isAuthed s = true \/ (inputs <> [] /\ envGate = "") \/ In envGate inputs) /\
    (isAuthed res.1 = true <-> res.2 !! AUTH_STORAGE_KEY = Some "true").
Proof.
  induction inputs as [|gateInput rest IH]; intros s store Hinv; cbv zeta.
  - simpl. split; [|done]. split; [by left | by intros [? | [[? _] | []]]].
  - simpl. unfold handleGate.
    destruct (String.eqb envGate "") eqn:Hnone; simpl.
    + apply String.eqb_eq in Hnone.
      destruct (IH {| isAuthed := true; gateError := None |}
                  (<[AUTH_STORAGE_KEY := "true"]> store)) as [Hauth Hstore].
      { split; [intros _; apply lookup_insert_eq | done]. }
      split; [|done]. rewrite Hauth. simpl. split; [|by left].
      intros _. right. by left.
    + destruct (String.eqb gateInput envGate) eqn:Hmatch; simpl.
      * apply String.eqb_eq in Hmatch.
        destruct (IH {| isAuthed := true; gateError := None |}
                    (<[AUTH_STORAGE_KEY := "true"]> store)) as [Hauth Hstore].
        { split; [intros _; apply lookup_insert_eq | done]. }
        split; [|done]. rewrite Hauth. simpl. split; [|by left].
        intros _. right. right. by left.
      * apply String.eqb_neq in Hmatch. apply String.eqb_neq in Hnone.
        destruct (IH {| isAuthed := isAuthed s;
                        gateError := Some "Incorrect password" |} store)
          as [Hauth Hstore]; [done|].
        split; [|done]. rewrite Hauth. simpl. split.
        -- intros [? | [[_ ?] | ?]]; [by left | done | by right; right; right].
        -- intros [? | [[_ ?] | [? | ?]]]; [by left | done | by subst |].
           by right; right.
Qed.

(** In a browser that was never authenticated, whatever passwords are
    tried, the dashboard opens exactly when no password is configured
    (and the button was pressed) or one of the passwords tried is the
    configured one; a wrong password changes nothing that is stored; and
    the next page load finds the dashboard as this session left it,
    open or closed. *)
Theorem gate_opens_for_the_password_only (envGate : string) (inputs : list string)
    (store : Storage) :
  let res := tryGate envGate inputs (mount store) store in
  match store !! AUTH_STORAGE_KEY with
  | Some _ => True
  | None =>
      (isAuthed res.1 = true <->
       (inputs <> [] /\ envGate = "") \/ In envGate inputs) /\
      isAuthed (mount res.2) = isAuthed res.1
  end.
Proof.
  cbv zeta. destruct (store !! AUTH_STORAGE_KEY) eqn:Hstore; [done|].
  assert (Hmount : mount store = {| isAuthed := false; gateError := None |}).
  { unfold mount, restoreAuth. by rewrite Hstore. }
  rewrite Hmount.
  destruct (tryGate_invariant envGate inputs
              {| isAuthed := false; gateError := None |} store) as [Hauth Hflag].
  { simpl. by rewrite Hstore. }
  split.
  - rewrite Hauth. simpl. split; [by intros [? | ?] | by right].
  - unfold mount, restoreAuth.
    destruct (isAuthed (tryGate envGate inputs _ store).1) eqn:Hopen.
    + destruct Hflag as [Hflag _]. by rewrite (Hflag eq_refl).
    + destruct ((tryGate envGate inputs _ store).2 !! AUTH_STORAGE_KEY) as [ok|] eqn:Hok;
        [|done].
      destruct (String.eqb ok "true") eqn:Htrue; [|done].
      apply String.eqb_eq in Htrue. subst.
      destruct Hflag as [_ Hflag]. by specialize (Hflag eq_refl).
Qed.

End Gate.

(** ** The dashboard: generated wallets *)

Section Generated.
Import JsString Ui.

Lemma ofZ_inj (a b : Z) : ofZ a = ofZ b -> a = b.
Proof.
  unfold ofZ. intros Heq. apply DecimalZ.to_int_inj.
  assert (Hok : forall z, NilZero.int_of_string (NilZero.string_of_int (Z.to_int z))
                          = Some (Z.to_int z)).
  { intros z. apply NilZero.isi; destruct z as [|p|p]; simpl; try done;
      intros [= Hnil]; by apply DecimalPos.Unsigned.to_uint_nonnil in Hnil. }
  pose proof (Hok a) as Ha. rewrite Heq, Hok in Ha. congruence.
Qed.

Lemma digits_of_uint (d : Decimal.uint) :
  Forall (fun c => c <> "-"%char) (chars (NilEmpty.string_of_uint d)).
Proof. induction d; simpl; constructor; done. Qed.

Lemma ofZ_no_dash (z : Z) :
  (0 < z)%Z -> Forall (fun c => c <> "-"%char) (chars (ofZ z)).
Proof.
  destruct z as [|p|p]; try lia. intros _. unfold ofZ. simpl.
  pose proof (digits_of_uint (Pos.to_uint p)) as Hdigits.
  unfold NilZero.string_of_uint. destruct (Pos.to_uint p); try done.
  repeat constructor; done.
Qed.

Lemma dash_free_prefix (x y a b : list ascii) :
  Forall (fun c => c <> "-"%char) x -> Forall (fun c => c <> "-"%char) y ->
  x ++ "-"%char :: a = y ++ "-"%char :: b -> x = y.
Proof.
  intros Hx. revert y. induction Hx as [|c x Hc Hx IH]; intros y Hy Heq.
  - destruct Hy as [|d y Hd Hy]; [done|]. simpl in Heq. congruence.
  - destruct Hy as [|d y Hd Hy]; simpl in Heq; [congruence|].
    injection Heq as -> Heq. f_equal. by apply IH.
Qed.

Lemma chars_inj (a b : string) : chars a = chars b -> a = b.
Proof.
  intros Heq. rewrite <- (string_of_list_ascii_of_string a),
    <- (string_of_list_ascii_of_string b). unfold chars in Heq. by rewrite Heq.
Qed.

(** The name of a generated wallet tells its index, whatever the clock
    says. *)
Lemma generatedName_inj (now now' : Z) (idx idx' : nat) :
  generatedName now idx = generatedName now' idx' -> idx = idx'.
Proof.
  unfold generatedName. intros Heq. apply (f_equal chars) in Heq.
  rewrite !chars_app in Heq. apply (f_equal (@rev ascii)) in Heq.
  rewrite !rev_app_distr in Heq.
  change (chars "-") with ["-"%char] in Heq. simpl rev at 2 5 in Heq.
  rewrite <- !app_assoc in Heq. simpl in Heq.
  apply dash_free_prefix in Heq.
  - apply (f_equal (@rev ascii)) in Heq. rewrite !rev_involutive in Heq.
    apply chars_inj, ofZ_inj in Heq. lia.
  - apply Forall_rev, ofZ_no_dash. lia.
  - apply Forall_rev, ofZ_no_dash. lia.
Qed.

(** A generated bundle has between 1 and 30 wallets, the number asked
    for when it is in that range; no two of its wallets have the same
    name, whatever the clock does while they are made; each has the key
    pair drawn for its index; and all of them are selected. *)
Theorem handleGenerateWallets_bundle (generateCount : Z) (now : nat -> Z)
    (generate : nat -> Keypair) :
  let res := handleGenerateWallets generateCount now generate in
  1 <= length res.1 <= 30 /\
  Z.of_nat (length res.1) = Z.max 1 (Z.min 30 generateCount) /\
  NoDup (map name res.1) /\
  map keypair res.1 = map generate (seq 0 (length res.1)) /\
  res.2 = map name res.1 /\
  selectedWallets res.2 res.1 = res.1.
Proof.
  cbv zeta. unfold handleGenerateWallets, App.MAX_WALLETS. cbn [fst snd].
  set (count := Z.to_nat (Z.max 1 (Z.min 30 generateCount))).
  assert (Hcount : 1 <= count <= 30) by lia.
  rewrite !length_map, length_seq.
  split; [done|]. split; [lia|]. split; [|split; [|split; [done|]]].
  - rewrite map_map. simpl. apply NoDup_fmap_2_strong; [|apply NoDup_seq].
    intros i j _ _ Heq. by apply generatedName_inj in Heq.
  - by rewrite map_map.
  - unfold selectedWallets.
    destruct (map name _) as [|nm rest] eqn:Hnames; [done|]. rewrite <- Hnames.
    apply filter_all. intros wallet0 Hin. apply includesName_In. by apply in_map.
Qed.

End Generated.

(** ** The dashboard: balances *)

Section Balances.
Import Solana Ui.

(** Refreshing the balances never throws and calls the relay at most
    once, not at all without wallets or without the address of the
    relay; the balances it shows are those of a 2xx reply, and it shows
    none after any failure. *)
Theorem refreshBalances_never_throws (current : list WalletRef)
    (apiBase apiKeyEnv : string) (w : World) :
  exists (shown : gmap string Z) (w' : World),
    run (refreshBalances current apiBase apiKeyEnv) w = (Normal shown, w') /\
    calls w <= calls w' <= S (calls w) /\
    (current = [] \/ apiBase = "" -> shown = ∅ /\ w' = w) /\
    (shown <> ∅ ->
     balancesReply (relay w) (calls w)
       {| url := apiBase ++ "/balances"; headers := jsonHeaders (optionalKey apiKeyEnv) |}
       (map (fun wallet0 => publicKey (keypair wallet0)) current)
     = Ok (Some shown)).
Proof.
  unfold refreshBalances.
  destruct current as [|wallet0 rest].
  { exists ∅, w. simpl. repeat split; try done; lia. }
  destruct (String.eqb apiBase "") eqn:Hbase.
  { exists ∅, w. simpl. repeat split; try done; lia. }
  apply String.eqb_neq in Hbase.
  rewrite run_tryCatch. unfold fetchBalances. cbn [map].
  set (keys := publicKey (keypair wallet0) :: map _ rest).
  simpl.
  destruct (balancesReply (relay w) (calls w) _ keys) as [msg|status field|[data|]] eqn:Hreply;
    simpl; eexists _, _; (split; [reflexivity|]); simpl;
    (split; [lia|]); (split; [by intros [? | ?]|]); try done.
Qed.

End Balances.

(** ** The dashboard: running a batch *)

Section Execute.
Import Solana Amount PLimit Batch BatchSpec TraceSpec LogSpec Ui.
Context `{web3 : Web3} `{token : SplToken}.

Lemma prepare_Normal (form : Form) (selected : list string) (wallets : list WalletRef)
    (signers : list WalletRef) (plan : TransferPlan) (poolSize : Z) :
  prepare form selected wallets = Normal (signers, plan, poolSize) ->
  apiBaseTrimmed form <> "" /\
  formMint form <> "" /\ formDestination form <> "" /\
  signers = selectedWallets selected wallets /\ signers <> [] /\
  newPublicKey (formMint form) = Normal (mint plan) /\
  newPublicKey (formDestination form) = Normal (destination plan) /\
  toRawAmount (formAmount form) (Z.to_nat (Z.max 0 (formDecimals form)))
    = Normal (amountRaw plan) /\
  priorityFeeMicrolamports plan
    = (if (0 <? formPriorityFee form)%Z then Some (formPriorityFee form) else None) /\
  poolSize = App.safeConcurrency (formConcurrency form).
Proof.
  unfold prepare.
  destruct (String.eqb (apiBaseTrimmed form) "") eqn:Hbase; [done|].
  destruct (String.eqb (formMint form) "") eqn:Hmint; [done|].
  destruct (String.eqb (formDestination form) "") eqn:Hdest; [done|]. simpl.
  apply String.eqb_neq in Hbase, Hmint, Hdest.
  destruct (selectedWallets selected wallets) as [|s0 rest] eqn:Hsel; [done|].
  destruct (newPublicKey (formMint form)) as [mintPk|?]; [|done].
  destruct (newPublicKey (formDestination form)) as [destPk|?]; [|done].
  destruct (toRawAmount _ _) as [raw|?]; [|done].
  intros [= <- <- <-]. simpl. repeat split; done.
Qed.

(** Whatever the form holds, when [handleExecute] calls the dispatcher
    the signers are the selected wallets, at least one; the amount is
    the normalized one and is not negative; the plan carries a priority
    fee only when the fee of the form is positive, so that the
    builder's own test of the fee never changes anything; and the pool
    size is between 1 and 30. *)
Theorem handleExecute_plan_is_sane (form : Form) (selected : list string)
    (wallets : list WalletRef) (signers : list WalletRef) (plan : TransferPlan)
    (poolSize : Z) :
  prepare form selected wallets = Normal (signers, plan, poolSize) ->
  signers = selectedWallets selected wallets /\
  signers <> [] /\
  sublist signers wallets /\
  (0 <= amountRaw plan)%Z /\
  wantsPriorityFee plan = priorityFeeMicrolamports plan /\
  (forall fee, priorityFeeMicrolamports plan = Some fee ->
               (0 < fee)%Z /\ fee = formPriorityFee form) /\
  (1 <= poolSize <= 30)%Z.
Proof.
  intros Hprep.
  destruct (prepare_Normal _ _ _ _ _ _ Hprep)
    as (_ & _ & _ & Hsel & Hne & _ & _ & Hraw & Hfee & Hpool).
  split; [done|]. split; [done|].
  split; [rewrite Hsel; apply selectedWallets_sublist|].
  split.
  { destruct (toRawAmount_outcomes (formAmount form)
                (Z.to_nat (Z.max 0 (formDecimals form))))
      as [(v & Hv & Hpos) | [Hthrow | Hthrow]]; congruence. }
  unfold wantsPriorityFee. rewrite Hfee.
  destruct (0 <? formPriorityFee form)%Z eqn:Hpos.
  - rewrite Hpos. apply Z.ltb_lt in Hpos. split; [done|]. split.
    + by intros fee [= <-].
    + rewrite Hpool. unfold App.safeConcurrency, App.MAX_WALLETS. lia.
  - split; [done|]. split; [done|].
    rewrite Hpool. unfold App.safeConcurrency, App.MAX_WALLETS. lia.
Qed.

(** An input that [handleExecute] rejects: the message is shown, the
    rows are cleared, the run is over, and nothing was asked of the
    relay.  The message is one of the program's five, or the one the
    ledger library gave for the mint or for the destination. *)
Theorem handleExecute_rejects_bad_input (form : Form) (selected : list string)
    (wallets : list WalletRef) (schedule : list nat) (w : World) (msg : string) :
  prepare form selected wallets = Throws msg ->
  handleExecute form selected wallets schedule w
    = ({| results := []; isRunning := false; shownError := Some msg |}, w) /\
  (msg = "API base URL is required" \/
   msg = "Mint and destination are required" \/
   msg = "Select at least one wallet" \/
   newPublicKey (formMint form) = Throws msg \/
   newPublicKey (formDestination form) = Throws msg \/
   msg = "Amount is required" \/
   msg = "Amount must be numeric").
Proof.
  intros Hprep. split; [unfold handleExecute; by rewrite Hprep|].
  revert Hprep. unfold prepare.
  destruct (String.eqb (apiBaseTrimmed form) ""); [intros [= <-]; tauto|].
  destruct (String.eqb (formMint form) "" || String.eqb (formDestination form) "");
    [intros [= <-]; tauto|].
  destruct (selectedWallets selected wallets) as [|s0 rest]; [intros [= <-]; tauto|].
  destruct (newPublicKey (formMint form)) as [mintPk|?]; [|intros [= <-]; tauto].
  destruct (newPublicKey (formDestination form)) as [destPk|?]; [|intros [= <-]; tauto].
  destruct (toRawAmount_outcomes (formAmount form)
              (Z.to_nat (Z.max 0 (formDecimals form))))
    as [(v & -> & _) | [-> | ->]]; [done | |]; intros [= <-]; tauto.
Qed.


End Execute.

(** ** Wallets given as text *)

Section Trimming.
Import JsString.

Lemma trimStart_head (l : list ascii) (c : ascii) (rest : list ascii) :
  trimStart l = c :: rest -> isSpace c = false.
Proof.
  induction l as [|a l IH]; simpl; [done|].
  destruct (isSpace a) eqn:Ha; [exact IH|]. by intros [= <- _].
Qed.

Lemma trimStart_keeps (c : ascii) (l : list ascii) :
  isSpace c = false -> trimStart (c :: l) = c :: l.
Proof. intros Hc. simpl. by rewrite Hc. Qed.

Lemma trimStart_snoc (l : list ascii) (c : ascii) :
  isSpace c = false -> trimStart (l ++ [c]) = trimStart l ++ [c].
Proof.
  intros Hc. induction l as [|a l IH]; simpl; [by rewrite Hc|].
  by destruct (isSpace a).
Qed.

Lemma trimEnd_cons (c : ascii) (l : list ascii) :
  isSpace c = false -> trimEnd (c :: l) = c :: trimEnd l.
Proof.
  intros Hc. unfold trimEnd. simpl rev at 2.
  by rewrite trimStart_snoc, rev_app_distr.
Qed.

Lemma trimEnd_last (l : list ascii) (rest : list ascii) (c : ascii) :
  trimEnd l = rest ++ [c] -> isSpace c = false.
Proof.
  unfold trimEnd. intros Heq. apply (f_equal (@rev ascii)) in Heq.
  rewrite rev_involutive, rev_app_distr in Heq. simpl in Heq.
  by apply trimStart_head in Heq.
Qed.

Lemma trimEnd_keeps (l : list ascii) (c : ascii) :
  isSpace c = false -> trimEnd (l ++ [c]) = l ++ [c].
Proof.
  intros Hc. unfold trimEnd. rewrite rev_app_distr. simpl.
  rewrite Hc. simpl. by rewrite rev_involutive.
Qed.

(** A trimmed string that is not empty begins and ends with
    characters that are not white space. *)
Lemma trim_ends (x : list ascii) :
  trim x = [] \/
  exists first last middle,
    isSpace first = false /\ isSpace last = false /\
    (trim x = [first] /\ first = last /\ middle = [] \/
     trim x = first :: middle ++ [last]).
Proof.
  unfold trim. destruct (trimStart x) as [|c y] eqn:Hstart; [by left|].
  pose proof (trimStart_head _ _ _ Hstart) as Hc.
  rewrite trimEnd_cons by done. right.
  destruct (trimEnd y) as [|d z] eqn:Hend using rev_ind.
  - exists c, c, []. split; [done|]. split; [done|]. by left.
  - exists c, d, z. split; [done|].
    split; [by apply (trimEnd_last y z)|]. by right.
Qed.

End Trimming.

Section WalletText.
Import JsString WalletInput.
Context `{formats : KeyFormats}.

(** A string that begins and ends with characters that are not white
    space. *)
Local Abbreviation tidy :=
  (fun l : list ascii =>
     (exists c rest, l = c :: rest /\ isSpace c = false) /\
     (exists rest d, l = rest ++ [d] /\ isSpace d = false)).

Lemma trim_tidy (x : list ascii) : trim x <> [] -> tidy (trim x).
Proof.
  intros Hne.
  destruct (trim_ends x)
    as [? | (first & last & middle & Hfirst & Hlast & [(-> & <- & _) | ->])]; [done| |].
  - split; [by exists first, [] | by exists [], first].
  - split; [by eexists _, _|]. exists (first :: middle), last. done.
Qed.

Lemma tidy_trim (l : list ascii) : tidy l -> trim l = l.
Proof.
  intros [(c & rest & -> & Hc) (rest' & d & Heq & Hd)]. unfold trim.
  rewrite trimStart_keeps by done. rewrite Heq. by apply trimEnd_keeps.
Qed.

Lemma head_trim (c : ascii) (l : list ascii) :
  isSpace c = false -> exists rest, trim (c :: l) = c :: rest.
Proof.
  intros Hc. unfold trim. rewrite trimStart_keeps, trimEnd_cons by done. by eexists.
Qed.

Lemma last_trim (l : list ascii) (d : ascii) :
  isSpace d = false -> trim (l ++ [d]) <> [].
Proof.
  intros Hd. unfold trim. rewrite trimStart_snoc by done.
  destruct (trimStart l ++ [d]) as [|e s] eqn:Heq; [by destruct (trimStart l)|].
  assert (He : isSpace e = false).
  { rewrite <- trimStart_snoc in Heq by done. by apply trimStart_head in Heq. }
  by rewrite trimEnd_cons.
Qed.

Lemma linesOf_tidy (raw : string) (line : list ascii) :
  In line (linesOf raw) -> tidy line.
Proof.
  unfold linesOf. rewrite filter_In, in_map_iff.
  intros [(x & <- & _) Hne]. apply trim_tidy. by destruct (trim x).
Qed.

Lemma cutAtColon_split (line before after : list ascii) :
  cutAtColon line = Some (before, after) -> line = before ++ ":"%char :: after.
Proof.
  revert before. induction line as [|c line IH]; intros before; simpl; [done|].
  destruct (Ascii.eqb c ":") eqn:Hc.
  - apply Ascii.eqb_eq in Hc. by intros [= <- <-]; subst.
  - destruct (cutAtColon line) as [[b a]|]; [|done].
    intros [= <- <-]. simpl. f_equal. by apply IH.
Qed.

Lemma chars_of_list (l : list ascii) : chars (string_of_list_ascii l) = l.
Proof. apply list_ascii_of_string_of_list_ascii. Qed.

(** The text of the key on a line is never blank. *)
Lemma keyTextOf_not_blank (line : list ascii) :
  tidy line -> trim (chars (keyTextOf line)) <> [].
Proof.
  intros Htidy. unfold keyTextOf. rewrite chars_of_list.
  destruct (cutAtColon line) as [[before [|c after]]|] eqn:Hcut;
    try (rewrite tidy_trim by done; destruct Htidy as [(? & ? & -> & _) _]; done).
  apply cutAtColon_split in Hcut.
  destruct Htidy as [_ (rest & d & Hlast & Hd)].
  destruct (exists_last (l := c :: after)) as (key & d' & Hkey); [done|].
  rewrite Hkey. apply last_trim.
  rewrite Hkey in Hcut.
  change (before ++ ":"%char :: key ++ [d']) with (before ++ (":"%char :: key) ++ [d'])
    in Hcut.
  rewrite app_assoc, Hlast in Hcut. apply app_inj_tail in Hcut as [_ ->]. done.
Qed.

Lemma nonspace_of_uint (d : Decimal.uint) :
  Forall (fun c => isSpace c = false) (chars (NilEmpty.string_of_uint d)).
Proof. induction d; simpl; constructor; done. Qed.

Lemma ofZ_tidy (z : Z) : (0 < z)%Z -> tidy (chars (ofZ z)) .
Proof.
  destruct z as [|p|p]; try lia. intros _. unfold ofZ. simpl.
  pose proof (nonspace_of_uint (Pos.to_uint p)) as Hall.
  pose proof (DecimalPos.Unsigned.to_uint_nonnil p) as Hnil.
  unfold NilZero.string_of_uint.
  assert (Hne : chars (NilEmpty.string_of_uint (Pos.to_uint p)) <> []).
  { destruct (Pos.to_uint p); done. }
  assert (Heq : chars match Pos.to_uint p with
                      | Decimal.Nil => "0"
                      | _ => NilEmpty.string_of_uint (Pos.to_uint p)
                      end = chars (NilEmpty.string_of_uint (Pos.to_uint p))).
  { destruct (Pos.to_uint p); done. }
  rewrite Heq. clear Heq.
  destruct (chars (NilEmpty.string_of_uint (Pos.to_uint p))) as [|c rest] eqn:Hchars;
    [done|].
  split.
  - exists c, rest. split; [done|]. by inversion Hall.
  - destruct (exists_last (l := c :: rest)) as (body & d & Hbody); [done|].
    exists body, d. split; [done|]. rewrite Hbody in Hall.
    apply Forall_app in Hall as [_ Hd]. by inversion Hd.
Qed.

Lemma fallback_name (idx : nat) :
  trim (chars ("wallet-" +:+ ofZ (Z.of_nat idx + 1)))
  = chars ("wallet-" +:+ ofZ (Z.of_nat idx + 1)).
Proof.
  apply tidy_trim. rewrite chars_app.
  destruct (ofZ_tidy (Z.of_nat idx + 1)) as [_ (rest & d & Heq & Hd)]; [lia|].
  split.
  - by eexists _, _.
  - exists (chars "wallet-" ++ rest), d. split; [|done].
    by rewrite Heq, app_assoc.
Qed.

(** The name given to a line: never empty; the numbered default when
    the line names no wallet. *)
Lemma nameOf_spec (line : list ascii) (idx : nat) :
  tidy line ->
  nameOf line idx <> "" /\
  (cutAtColon line = None \/ (exists after, cutAtColon line = Some ([], after)) ->
   nameOf line idx = "wallet-" +:+ ofZ (Z.of_nat idx + 1)).
Proof.
  intros [(c & rest & Hline & Hc) _]. unfold nameOf.
  assert (Hdefault :
    string_of_list_ascii (trim (chars ("wallet-" +:+ ofZ (Z.of_nat idx + 1))))
    = "wallet-" +:+ ofZ (Z.of_nat idx + 1)).
  { rewrite fallback_name. apply string_of_list_ascii_of_string. }
  destruct (cutAtColon line) as [[[|b before] after]|] eqn:Hcut.
  - rewrite Hdefault. split; [done | by intros _].
  - apply cutAtColon_split in Hcut. rewrite Hline in Hcut. injection Hcut as <- _.
    destruct (head_trim c before Hc) as [tail ->]. split; [done|].
    intros [? | [? ?]]; done.
  - rewrite Hdefault. split; [done | by intros _].
Qed.

Lemma parseSecretKey_throws (input msg : string) :
  parseSecretKey input = Throws msg ->
  (trim (chars input) = [] /\ msg = "Empty secret key input") \/
  msg = "Secret key must be JSON array or base58-encoded".
Proof.
  unfold parseSecretKey. destruct (trim (chars input)) as [|c rest]; [by intros [= <-]; left|].
  destruct (jsonParse _) as [parsed|?].
  - destruct (asArray parsed) as [[|first others]|]; try done;
      destruct (bs58decode _); try done; intros [= <-]; by right.
  - destruct (bs58decode _); try done; intros [= <-]; by right.
Qed.

Lemma parseLines_spec (lines : list (list ascii)) :
  forall (idx : nat) (ws : list WalletRef),
    parseLines lines idx = Normal ws ->
    length ws = length lines /\
    forall i line, lines !! i = Some line ->
      exists w secret,
        ws !! i = Some w /\
        name w = nameOf line (idx + i) /\
        parseSecretKey (keyTextOf line) = Normal secret /\
        length secret = 64 /\
        keypairFromSecretKey secret = Normal (keypair w).
Proof.
  induction lines as [|line lines IH]; intros idx ws; simpl.
  - intros [= <-]. by split.
  - unfold parseLine.
    destruct (parseSecretKey (keyTextOf line)) as [secret|?] eqn:Hsecret; [|done].
    destruct (Nat.eqb (length secret) 64) eqn:Hlen; [|done].
    apply Nat.eqb_eq in Hlen.
    destruct (keypairFromSecretKey secret) as [kp|?] eqn:Hkp; [|done].
    destruct (parseLines lines (S idx)) as [rest|?] eqn:Hrest; [|done].
    intros [= <-]. destruct (IH _ _ Hrest) as [Hlength Heach].
    split; [simpl; by rewrite Hlength|].
    intros [|i] line' Hline'; simpl in Hline'.
    + injection Hline' as <-. eexists _, secret. split; [done|]. simpl.
      by rewrite Nat.add_0_r.
    + destruct (Heach i line' Hline') as (w & secret' & ? & Hname & ?).
      exists w, secret'. split; [done|]. split; [|done].
      rewrite Hname. f_equal. lia.
Qed.

Lemma parseLines_throws (lines : list (list ascii)) :
  Forall (fun line => tidy line) lines ->
  forall (idx : nat) (msg : string),
    parseLines lines idx = Throws msg ->
    msg = "Secret key must be JSON array or base58-encoded" \/
    (exists nm n, n <> 64 /\
       msg = "Wallet " +:+ nm +:+ ": secret key must be 64 bytes, got "
             +:+ ofZ (Z.of_nat n)) \/
    (exists secret, length secret = 64 /\ keypairFromSecretKey secret = Throws msg).
Proof.
  induction 1 as [|line lines Hline _ IH]; intros idx msg; simpl; [done|].
  unfold parseLine.
  destruct (parseSecretKey (keyTextOf line)) as [secret|e] eqn:Hsecret.
  - destruct (Nat.eqb (length secret) 64) eqn:Hlen.
    + apply Nat.eqb_eq in Hlen.
      destruct (keypairFromSecretKey secret) as [kp|e] eqn:Hkp.
      * destruct (parseLines lines (S idx)) as [rest|e] eqn:Hrest; [done|].
        intros [= <-]. by apply (IH (S idx)).
      * intros [= <-]. right. right. by exists secret.
    + apply Nat.eqb_neq in Hlen. intros [= <-]. right. left. by eexists _, _.
  - intros [= <-]. apply parseSecretKey_throws in Hsecret as [[Hblank _] | ->]; [|by left].
    by apply keyTextOf_not_blank in Hblank.
Qed.

Lemma parseWalletBatch_accepts_length (raw : string) (ws : list WalletRef) :
  parseWalletBatch raw = Normal ws ->
  length ws = length (linesOf raw) /\ length ws <= 30.
Proof.
  unfold parseWalletBatch.
  destruct (linesOf raw) as [|line0 rest] eqn:Hlines.
  { intros [= <-]. simpl. lia. }
  rewrite <- Hlines.
  destruct (30 <? length (linesOf raw))%nat eqn:Hmany; [done|].
  apply Nat.ltb_ge in Hmany. intros Hparsed.
  destruct (parseLines_spec _ _ _ Hparsed) as [Hlength _]. lia.
Qed.

(** What [parseWalletBatch] accepts: one wallet per line that holds
    something, in the order of the lines and at most 30; the wallet of
    a line has a name that is not empty, the numbered default when the
    line names none, and the key pair of a secret key of 64 bytes read
    from the line. *)
Theorem parseWalletBatch_accepts (raw : string) (ws : list WalletRef) :
  parseWalletBatch raw = Normal ws ->
  length ws = length (linesOf raw) /\
  length ws <= 30 /\
  forall i line, linesOf raw !! i = Some line ->
    exists w secret,
      ws !! i = Some w /\
      name w = nameOf line i /\
      name w <> "" /\
      (cutAtColon line = None \/ (exists after, cutAtColon line = Some ([], after)) ->
       name w = "wallet-" +:+ ofZ (Z.of_nat i + 1)) /\
      parseSecretKey (keyTextOf line) = Normal secret /\
      length secret = 64 /\
      keypairFromSecretKey secret = Normal (keypair w).
Proof.
  unfold parseWalletBatch.
  destruct (linesOf raw) as [|line0 rest] eqn:Hlines.
  { intros [= <-]. split; [done|]. split; [simpl; lia|]. by intros i line. }
  rewrite <- Hlines.
  destruct (30 <? length (linesOf raw))%nat eqn:Hmany; [done|].
  apply Nat.ltb_ge in Hmany. intros Hparsed.
  destruct (parseLines_spec _ _ _ Hparsed) as [Hlength Heach].
  split; [done|]. split; [lia|].
  intros i line Hline.
  destruct (Heach i line Hline) as (w & secret & Hw & Hname & Hsecret & Hlen & Hkp).
  assert (Htidy : tidy line).
  { apply (linesOf_tidy raw). apply list_elem_of_In. by eapply list_elem_of_lookup_2. }
  destruct (nameOf_spec line i Htidy) as [Hne Hdefault].
  exists w, secret. simpl in Hname. rewrite Hname.
  repeat split; done.
Qed.

Lemma splitLines_pieces (P : ascii -> Prop) (s : list ascii) :
  Forall P s -> Forall (Forall P) (splitLines s).
Proof.
  induction 1 as [|c s Hc Hs IH]; [by repeat constructor|].
  assert (Hcontinue : Forall (Forall P)
            match splitLines s with
            | piece :: pieces => (c :: piece) :: pieces
            | [] => [[c]]
            end).
  { destruct (splitLines s) as [|piece pieces]; [by repeat constructor|].
    inversion IH; subst. constructor; [by constructor | done]. }
  cbn [splitLines]. destruct (Ascii.eqb c LF); [by constructor|].
  destruct (Ascii.eqb c CR); [|done].
  destruct s as [|d s']; [done|].
  destruct (Ascii.eqb d LF) eqn:Hd; [|done].
  constructor; [done|]. cbn [splitLines] in IH. rewrite Hd in IH. by inversion IH.
Qed.

Lemma trimStart_blank (l : list ascii) :
  Forall (fun c => isSpace c = true) l -> trimStart l = [].
Proof. induction 1 as [|c l Hc _ IH]; simpl; [done|]. by rewrite Hc. Qed.

(** What [parseWalletBatch] refuses, and what it does not: text with
    more than 30 lines that hold something is refused whatever the
    lines are; the other errors are about a key that cannot be decoded,
    a secret key that is not 64 bytes long, or a secret key the ledger
    library refuses; text that is only white space is no error, it
    gives no wallet. *)
Theorem parseWalletBatch_rejects (raw : string) :
  (30 < length (linesOf raw) ->
   parseWalletBatch raw = Throws "Provide at most 30 wallets") /\
  (forall msg, parseWalletBatch raw = Throws msg ->
     msg = "Provide at most 30 wallets" \/
     msg = "Secret key must be JSON array or base58-encoded" \/
     (exists nm n, n <> 64 /\
        msg = "Wallet " +:+ nm +:+ ": secret key must be 64 bytes, got "
              +:+ ofZ (Z.of_nat n)) \/
     (exists secret, length secret = 64 /\ keypairFromSecretKey secret = Throws msg)) /\
  (Forall (fun c => isSpace c = true) (chars raw) -> parseWalletBatch raw = Normal []).
Proof.
  unfold parseWalletBatch. split; [|split].
  - intros Hmany. destruct (linesOf raw) as [|line0 rest] eqn:Hlines; [simpl in Hmany; lia|].
    apply Nat.ltb_lt in Hmany. by rewrite Hmany.
  - intros msg. destruct (linesOf raw) as [|line0 rest] eqn:Hlines; [done|].
    destruct (30 <? length (line0 :: rest))%nat; [intros [= <-]; by left|].
    intros Hthrow. right. apply (parseLines_throws (line0 :: rest)) in Hthrow; [done|].
    rewrite <- Hlines. apply Forall_forall. intros line Hin.
    apply (linesOf_tidy raw). by apply list_elem_of_In.
  - intros Hblank.
    assert (Hnone : linesOf raw = []).
    { unfold linesOf. apply filter_none. intros line Hin.
      apply in_map_iff in Hin as (piece & <- & Hpiece).
      pose proof (splitLines_pieces _ _ Hblank) as Hpieces.
      rewrite Forall_forall in Hpieces.
      apply list_elem_of_In in Hpiece.
      unfold trim. by rewrite (trimStart_blank piece (Hpieces piece Hpiece)). }
    by rewrite Hnone.
Qed.

(** The limit that [handleLoadWallets] checks after parsing is never
    what stops it: the parser has refused longer texts, so the wallets
    it returns are loaded, all selected, and the only errors shown are
    the parser's. *)
Theorem handleLoadWallets_limit_is_dead (walletInput : string) :
  handleLoadWallets walletInput
  = match parseWalletBatch walletInput with
    | Normal parsed => (Some (parsed, map name parsed), None)
    | Throws msg => (None, Some msg)
    end.
Proof.
  unfold handleLoadWallets.
  destruct (parseWalletBatch walletInput) as [parsed|msg] eqn:Hparsed; [|done].
  destruct (parseWalletBatch_accepts_length walletInput parsed Hparsed) as [_ Hmax].
  replace (Z.of_nat (length parsed) >? App.MAX_WALLETS)%Z with false; [done|].
  symmetry. unfold App.MAX_WALLETS. rewrite Z.gtb_ltb. apply Z.ltb_ge. lia.
Qed.

End WalletText.

(** ** The client in front of the relay *)

Section ThroughTheRelay.
Import Solana RunSpec Batch Server.
Context `{web3 : Web3} `{token : SplToken}.

Lemma presentedKey_client (apiKey : option string) :
  presentedKey (apiKeyHeader apiKey)
  = match apiKey with
    | Some key => if String.eqb key "" then None else Some key
    | None => None
    end.
Proof. destruct apiKey as [key|]; [|done]. simpl. by destruct (String.eqb key ""). Qed.

Lemma presentedKey_json (apiKey : option string) :
  presentedKey (jsonHeaders apiKey) = presentedKey (apiKeyHeader apiKey).
Proof. done. Qed.

(** When the relay lets a client in. *)
Lemma requireApiKey_client (API_KEY apiKey : option string) :
  requireApiKey API_KEY (presentedKey (apiKeyHeader apiKey)) = false <->
  exists key, API_KEY = Some key /\ key <> "" /\ apiKey <> Some key.
Proof.
  rewrite presentedKey_client. unfold requireApiKey.
  destruct API_KEY as [key|]; [|split; [done | by intros (? & ? & _)]].
  destruct (String.eqb key "") eqn:Hkey.
  { apply String.eqb_eq in Hkey. split; [done|]. intros (? & [= <-] & ? & _). done. }
  apply String.eqb_neq in Hkey.
  destruct apiKey as [given|].
  - destruct (String.eqb given "") eqn:Hgiven.
    + apply String.eqb_eq in Hgiven. subst. split; [|done].
      intros _. exists key. split; [done|]. split; [done|]. by intros [= <-].
    + destruct (String.eqb given key) eqn:Hsame.
      * apply String.eqb_eq in Hsame. subst. split; [done|].
        intros (? & [= <-] & _ & ?). done.
      * apply String.eqb_neq in Hsame. split; [|done].
        intros _. exists key. split; [done|]. split; [done|]. by intros [= ->].
  - split; [|done]. intros _. by exists key.
Qed.

(** A relay that has a key and a client that does not present it, in
    whatever way (no key, the empty key, another key): every batch is
    rejected at its first step and every fetch of balances throws, both
    with the status 401; the dashboard then shows no balance.  Nothing
    else keeps a client out: without a key of its own the relay serves
    everyone. *)
Theorem client_without_the_key_gets_401 (API_KEY apiKey : option string)
    (ledger : nat -> Rpc) (apiBase : string) (w : World) :
  relay w = relayOf API_KEY ledger ->
  (requireApiKey API_KEY (presentedKey (apiKeyHeader apiKey)) = false <->
   exists key, API_KEY = Some key /\ key <> "" /\ apiKey <> Some key) /\
  (requireApiKey API_KEY (presentedKey (apiKeyHeader apiKey)) = false ->
   (forall wallets plan concurrency onResult schedule,
      (executeBatch wallets plan concurrency apiBase apiKey onResult schedule w).1
      = Some (Throws "Blockhash fetch failed: 401")) /\
   (forall pubkeys, pubkeys <> [] ->
      (run (fetchBalances pubkeys apiBase apiKey) w).1
      = Throws "Balance fetch failed: 401")).
Proof.
  intros Hrelay. split; [apply requireApiKey_client|].
  intros Hout. split.
  - intros wallets plan concurrency onResult schedule.
    unfold executeBatch, nextBh, fetchBlockhash. simpl.
    rewrite Hrelay. simpl. unfold guarded. simpl. by rewrite Hout.
  - intros [|key more] Hne; [done|]. simpl.
    rewrite Hrelay. simpl. unfold guarded. simpl.
    rewrite ?presentedKey_json. by rewrite Hout.
Qed.

Lemma collect_other (keys : list PublicKey) (key : PublicKey) :
  ~ In key keys ->
  forall idx infos acc, collect keys idx infos acc !! key = acc !! key.
Proof.
  induction keys as [|k keys IH]; intros Hnot idx infos acc; simpl; [done|].
  rewrite IH by (intros ?; apply Hnot; by right).
  apply lookup_insert_ne. intros ->. apply Hnot. by left.
Qed.

Lemma collect_some (keys : list PublicKey) (key : PublicKey) :
  In key keys ->
  forall idx infos acc, is_Some (collect keys idx infos acc !! key).
Proof.
  induction keys as [|k keys IH]; intros Hin idx infos acc; simpl; [done|].
  destruct (in_dec String.string_dec key keys) as [Hlater|Hlast]; [by apply IH|].
  rewrite collect_other by done.
  destruct Hin as [-> | ?]; [|done]. rewrite lookup_insert_eq. by eexists.
Qed.

Lemma collect_at (keys : list PublicKey) :
  NoDup keys ->
  forall i key idx infos acc,
    keys !! i = Some key ->
    collect keys idx infos acc !! key = Some (lamportsAt infos (idx + i)).
Proof.
  induction 1 as [|k keys Hk Hkeys IH]; intros i key idx infos acc Hi; [done|].
  simpl. destruct i as [|i]; simpl in Hi.
  - injection Hi as ->. rewrite collect_other.
    + rewrite lookup_insert_eq. by rewrite Nat.add_0_r.
    + intros Hin. apply Hk. by apply list_elem_of_In.
  - rewrite (IH i key (S idx)) by done. do 2 f_equal. lia.
Qed.

(** The balances of the dashboard, end to end, for a client the relay
    lets in: more than 30 keys are refused with the status 400; up to 30
    valid keys get a balance each and nothing else, the lamports the
    node reports for the key or 0 when it knows no such account. *)
Theorem balances_through_the_relay (API_KEY apiKey : option string)
    (ledger : nat -> Rpc) (apiBase : string) (w : World) (pubkeys : list string) :
  relay w = relayOf API_KEY ledger ->
  requireApiKey API_KEY (presentedKey (apiKeyHeader apiKey)) = true ->
  (30 < length pubkeys ->
   (run (fetchBalances pubkeys apiBase apiKey) w).1
   = Throws "Balance fetch failed: 400") /\
  (forall keys infos,
     pubkeys <> [] -> length pubkeys <= 30 ->
     toKeys pubkeys = Normal keys ->
     getMultipleAccountsInfo (ledger (calls w)) keys = Normal infos ->
     exists shown,
       (run (fetchBalances pubkeys apiBase apiKey) w).1 = Normal shown /\
       (forall key, is_Some (shown !! key) <-> In key keys) /\
       (NoDup keys -> forall i key, keys !! i = Some key ->
          shown !! key = Some (lamportsAt infos i))).
Proof.
  intros Hrelay Hin.
  assert (Hreply : forall key more,
    pubkeys = key :: more ->
    (run (fetchBalances pubkeys apiBase apiKey) w).1
    = match postBalances (ledger (calls w)) (Some pubkeys) with
      | Replied balances => Normal balances
      | Refused code _ => Throws ("Balance fetch failed: " ++ JsString.ofZ code)
      end).
  { intros key more ->. unfold fetchBalances.
    cbn [bind perform run handle fst snd]. rewrite Hrelay.
    cbn [balancesReply relayOf]. unfold guarded. cbn [headers].
    rewrite presentedKey_json, Hin.
    by destruct (postBalances (ledger (calls w)) (Some (key :: more))). }
  split.
  - intros Hmany. destruct pubkeys as [|key more]; [simpl in Hmany; lia|].
    rewrite (Hreply key more eq_refl). unfold postBalances.
    apply Nat.ltb_lt in Hmany. by rewrite Hmany.
  - intros keys infos Hne Hfew Hkeys Hinfos.
    destruct pubkeys as [|key more]; [done|].
    rewrite (Hreply key more eq_refl). unfold postBalances.
    replace (30 <? length (key :: more))%nat with false
      by (symmetry; apply Nat.ltb_ge; lia).
    rewrite Hkeys, Hinfos. eexists. split; [reflexivity|]. split.
    + intros k. split.
      * intros Hsome. destruct (in_dec String.string_dec k keys) as [?|Hnot]; [done|].
        rewrite collect_other in Hsome by done. by destruct Hsome.
      * intros Hk. by apply collect_some.
    + intros Hnodup i k Hi. by rewrite (collect_at keys Hnodup i k 0 infos ∅ Hi).
Qed.

(** What a signature in an outcome means, end to end: the node took
    the transaction and the wait for its confirmation came back.  The
    relay does not look at what the confirmation says, so the outcome of
    a transaction that failed on the ledger carries its signature and no
    error, after one submission. *)
Theorem signature_means_submitted (API_KEY apiKey : option string)
    (ledger : nat -> Rpc) (apiBase : string) (w : World) (tx : nat)
    (walletName : string) (signer : Keypair) (getBlockhash : Prog BlockhashInfo)
    (maxRetries : nat) (t : Transaction) (bh : string) (height : Z) (sig : string)
    (verdict : option string) :
  relay w = relayOf API_KEY ledger ->
  requireApiKey API_KEY (presentedKey (apiKeyHeader apiKey)) = true ->
  txs w !! tx = Some t ->
  recentBlockhash t = Some bh -> bh <> "" ->
  txLastValidBlockHeight t = Some height -> height <> 0%Z ->
  sendRawTransaction (ledger (calls w)) t = Normal sig ->
  confirmTransaction (ledger (calls w)) sig bh height = Normal verdict ->
  run (sendWithRetry tx walletName signer apiBase apiKey getBlockhash (S maxRetries)) w
  = (Normal (confirmed walletName sig), afterSubmit apiBase apiKey tx w) /\
  calls (afterSubmit apiBase apiKey tx w) = S (calls w).
Proof.
  intros Hrelay Hin Htx Hbh Hbh' Hheight Hheight' Hsent Hconfirmed.
  assert (Hreply : replyAt apiBase apiKey tx w 0 = Ok sig).
  { unfold replyAt, submitted, bodyOf, sendRawRequest.
    rewrite Nat.add_0_r, Htx, Hrelay. simpl. unfold guarded. simpl.
    rewrite ?presentedKey_json, Hin. unfold postSendRaw.
    rewrite Hsent, Hbh, Hheight. simpl.
    apply String.eqb_neq in Hbh'. rewrite Hbh'.
    apply Z.eqb_neq in Hheight'. rewrite Hheight'.
    by rewrite Hconfirmed. }
  split; [|done]. unfold sendWithRetry.
  rewrite run_sendLoop_step, run_attempt. by rewrite Hreply.
Qed.

End ThroughTheRelay.

(** ** What a batch submits *)

Section Ownership.
Import Solana RunSpec PLimit Batch OwnSpec.
Context (Good : Request -> SendRawBody -> Prop).

Lemma safe_weaken {A : Type} (p : Prog A) :
  forall (Q Q' : A -> Owned -> Prop) (E E' : string -> Owned -> Prop) own,
    (forall a o, Q a o -> Q' a o) -> (forall msg o, E msg o -> E' msg o) ->
    safe Good Q E own p -> safe Good Q' E' own p.
Proof.
  induction p as [a|msg|X e k IH]; intros Q Q' E E' own HQ HE; simpl; auto.
  intros [Hallowed Hnext]. split; [done|].
  intros x own' Hafter. apply (IH x Q Q' E E'); auto.
Qed.

Lemma safe_bind {A B : Type} (m : Prog A) (f : A -> Prog B) :
  forall (Q1 : A -> Owned -> Prop) (Q : B -> Owned -> Prop)
         (E : string -> Owned -> Prop) own,
    safe Good Q1 E own m ->
    (forall a o, Q1 a o -> safe Good Q E o (f a)) ->
    safe Good Q E own (bind m f).
Proof.
  induction m as [a|msg|X e k IH]; intros Q1 Q E own Hm Hf; simpl in *; auto.
  destruct Hm as [Hallowed Hnext]. split; [done|].
  intros x own' Hafter. apply (IH x Q1); auto.
Qed.

Lemma safe_tryCatch {A : Type} (m : Prog A) (handler : string -> Prog A) :
  forall (Q : A -> Owned -> Prop) (E1 E : string -> Owned -> Prop) own,
    safe Good Q E1 own m ->
    (forall msg o, E1 msg o -> safe Good Q E o (handler msg)) ->
    safe Good Q E own (tryCatch m handler).
Proof.
  induction m as [a|msg|X e k IH]; intros Q E1 E own Hm Hh; simpl in *; auto.
  destruct Hm as [Hallowed Hnext]. split; [done|].
  intros x own' Hafter. apply (IH x Q E1); auto.
Qed.

Lemma safe_applyBlockhash (tx : nat) (signer : Keypair) (info : BlockhashInfo)
    (t : Transaction) (Q : unit -> Owned -> Prop) (E : string -> Owned -> Prop) :
  Q tt (Some (tx, rebound signer info t)) ->
  safe Good Q E (Some (tx, t)) (applyBlockhash tx signer info).
Proof.
  intros HQ. unfold applyBlockhash, rebound. simpl.
  split; [by eexists|]. intros [] own1 (t1 & [= <-] & ->).
  split; [by eexists|]. intros [] own2 (t2 & [= <-] & ->).
  split; [by eexists|]. intros [] own3 (t3 & [= <-] & ->).
  done.
Qed.

Lemma safe_nextBh (apiBase : string) (apiKey : option string)
    (Q : BlockhashInfo -> Owned -> Prop) (E : string -> Owned -> Prop) (own : Owned) :
  (forall info, Q info own) -> (forall msg, E msg own) ->
  safe Good Q E own (nextBh apiBase apiKey).
Proof.
  intros HQ HE. unfold nextBh, fetchBlockhash. simpl.
  split; [done|]. intros res own1 ->.
  destruct res as [msg|status field|info]; simpl; try apply HE.
  split; [done|]. intros [] own2 ->. apply HQ.
Qed.

(** Where the [k]-th running task is. *)
Lemma advanceNth_locate (ss : list Slot) :
  forall (k : nat) (w : World),
    k < activeCount ss ->
    exists i body,
      ss !! i = Some (Running body) /\
      advanceNth k ss w
      = (let '(s, w', rej) := advanceSlot body w in (<[i := s]> ss, w', rej)).
Proof.
  induction ss as [|s ss IH]; intros k w Hk; simpl in Hk; [lia|].
  assert (Hskip : forall k', k' < activeCount ss ->
    exists i body,
      (s :: ss) !! i = Some (Running body) /\
      (let '(rest', w', rej) := advanceNth k' ss w in (s :: rest', w', rej))
      = (let '(s', w', rej) := advanceSlot body w in (<[i := s']> (s :: ss), w', rej))).
  { intros k' Hk'. destruct (IH k' w Hk') as (i & body & Hi & ->).
    exists (S i), body. split; [done|]. by destruct (advanceSlot body w) as [[? ?] ?]. }
  destruct s as [body|body|r|msg]; simpl; try (apply Hskip; simpl in Hk; lia).
  destruct k as [|k]; [|apply Hskip; simpl in Hk; lia].
  exists 0, body. split; [done|]. by destruct (advanceSlot body w) as [[? ?] ?].
Qed.

Lemma promote_slotSafe (owns : list Owned) (ss : list Slot) :
  Forall2 (slotSafe Good) owns ss ->
  forall free, Forall2 (slotSafe Good) owns (promote free ss).
Proof.
  induction 1 as [|own s owns ss Hs Hrest IH]; intros free; simpl; [constructor|].
  destruct free as [|free]; [by constructor|].
  destruct s; constructor; auto.
Qed.

Lemma stored_same (w w' : World) (owns : list Owned) :
  txs w' = txs w -> stored w owns -> stored w' owns.
Proof. intros Heq [Hheld Hapart]. split; [|done]. intros i x t. rewrite Heq. apply Hheld. Qed.

Lemma submissionsAre_one (ev : Event) :
  match ev with
  | EvSendRaw req body _ => Good req body
  | _ => True
  end -> submissionsAre Good [ev].
Proof. intros Hev. by constructor. Qed.

(** One effect of a task that keeps to its object: the objects of the
    other tasks are as they were, and what it submits is allowed. *)
Lemma handle_safe {X : Type} (e : Eff X) (w : World) (owns : list Owned) (i : nat)
    (own : Owned) :
  owns !! i = Some own ->
  stored w owns ->
  allowed Good e own ->
  exists own' d,
    after e own (handle e w).1 own' /\
    stored (handle e w).2 (<[i := own']> owns) /\
    trace (handle e w).2 = trace w ++ d /\
    submissionsAre Good d.
Proof.
  intros Hi Hstored Hallowed.
  assert (Hkeep : <[i := own]> owns = owns) by (by apply list_insert_id).
  destruct e; simpl in *.
  - exists own, [EvBlockhash req (blockhashReply (relay w) (calls w) req)].
    rewrite Hkeep. split; [done|]. split; [by apply (stored_same w)|].
    split; [done | by apply submissionsAre_one].
  - exists own, [EvSendRaw req body (sendRawReply (relay w) (calls w) req body)].
    rewrite Hkeep. split; [done|]. split; [by apply (stored_same w)|].
    split; [done | by apply submissionsAre_one].
  - exists own, [EvBalances req pubkeys (balancesReply (relay w) (calls w) req pubkeys)].
    rewrite Hkeep. split; [done|]. split; [by apply (stored_same w)|].
    split; [done | by apply submissionsAre_one].
  - exists own, [EvTimeout ms].
    rewrite Hkeep. split; [done|]. split; [by apply (stored_same w)|].
    split; [done | by apply submissionsAre_one].
  - (* a new object *)
    subst own. destruct Hstored as [Hheld Hapart].
    exists (Some (length (txs w), emptyTransaction)), [].
    split; [done|]. split; [|split; [by rewrite app_nil_r | constructor]].
    split.
    + intros j x t Hj. simpl.
      apply list_lookup_insert_Some in Hj as [(-> & [= <- <-] & _) | [Hne Hj]].
      * by rewrite lookup_app_r, Nat.sub_diag by lia.
      * rewrite lookup_app_l; [by eapply Hheld|].
        apply lookup_lt_is_Some. eexists. by eapply Hheld.
    + intros j j' x t x' t' Hj Hj' Hne.
      apply list_lookup_insert_Some in Hj as [(-> & [= <- <-] & _) | [Hne1 Hj]];
        apply list_lookup_insert_Some in Hj' as [(-> & [= <- <-] & _) | [Hne2 Hj']];
        try done.
      * apply Hheld in Hj'. apply lookup_lt_Some in Hj'. lia.
      * apply Hheld in Hj. apply lookup_lt_Some in Hj. lia.
      * by eapply Hapart.
  - (* the object is read *)
    destruct Hallowed as [t ->]. destruct Hstored as [Hheld Hapart].
    exists (Some (tx, t)), []. rewrite Hkeep.
    rewrite (Hheld i tx t Hi). simpl.
    split; [done|]. split; [done|]. split; [by rewrite app_nil_r | constructor].
  - (* the object is updated *)
    destruct Hallowed as [t ->]. destruct Hstored as [Hheld Hapart].
    exists (Some (tx, f t)), [].
    split; [by exists t|]. split; [|split; [by rewrite app_nil_r | constructor]].
    split.
    + intros j x t' Hj. simpl.
      apply list_lookup_insert_Some in Hj as [(-> & [= <- <-] & _) | [Hne Hj]].
      * by rewrite list_lookup_alter_eq, (Hheld j tx t Hi).
      * rewrite list_lookup_alter_ne; [by eapply Hheld|].
        intros <-. by apply (Hapart i j tx t tx t' Hi Hj).
    + intros j j' x t1 x' t2 Hj Hj' Hne.
      apply list_lookup_insert_Some in Hj as [(-> & [= <- <-] & _) | [Hne1 Hj]];
        apply list_lookup_insert_Some in Hj' as [(-> & [= <- <-] & _) | [Hne2 Hj']];
        try done.
      all: eapply Hapart; eauto.
  - exists own, []. rewrite Hkeep. split; [done|].
    split; [done|]. split; [by rewrite app_nil_r | constructor].
  - exists own, []. rewrite Hkeep. split; [done|].
    split; [by apply (stored_same w)|]. split; [by rewrite app_nil_r | constructor].
  - exists own, [EvResult r]. rewrite Hkeep. split; [done|].
    split; [by apply (stored_same w)|]. split; [done | by apply submissionsAre_one].
Qed.

(** One step of a running task. *)
Lemma advanceSlot_safe (owns : list Owned) (ss : list Slot) (w : World) (i : nat)
    (body : Prog WalletSendResult) :
  Forall2 (slotSafe Good) owns ss ->
  stored w owns ->
  ss !! i = Some (Running body) ->
  exists owns' d,
    Forall2 (slotSafe Good) owns' (<[i := (advanceSlot body w).1.1]> ss) /\
    stored (advanceSlot body w).1.2 owns' /\
    trace (advanceSlot body w).1.2 = trace w ++ d /\
    submissionsAre Good d.
Proof.
  intros Hall Hstored Hi.
  destruct (Forall2_lookup_r _ _ _ _ _ Hall Hi) as (own & Hown & Hsafe).
  assert (Hkeep : <[i := own]> owns = owns) by (by apply list_insert_id).
  destruct body as [r|msg|X e k]; simpl in *.
  - exists owns, []. split; [|split; [done|split; [by rewrite app_nil_r | constructor]]].
    rewrite <- Hkeep. by apply Forall2_insert.
  - exists owns, []. split; [|split; [done|split; [by rewrite app_nil_r | constructor]]].
    rewrite <- Hkeep. by apply Forall2_insert.
  - destruct Hsafe as [Hallowed Hnext].
    destruct (handle_safe e w owns i own Hown Hstored Hallowed)
      as (own' & d & Hafter & Hstored' & Htrace & Hgood).
    destruct (handle e w) as [x w'] eqn:Hhandle. simpl in *.
    exists (<[i := own']> owns), d. split; [|done].
    apply Forall2_insert; [done|]. simpl. by apply Hnext.
Qed.

(** The pool of tasks that keep to their objects. *)
Lemma runPool_safe (limit : nat) (schedule : list nat) :
  forall (p : Pool) (owns : list Owned),
    Forall2 (slotSafe Good) owns (slots p) ->
    stored (world p) owns ->
    exists evs,
      trace (world (runPool limit schedule p)) = trace (world p) ++ evs /\
      submissionsAre Good evs.
Proof.
  induction schedule as [|pick schedule IH]; intros p owns Hall Hstored.
  - exists []. split; [by rewrite app_nil_r | constructor].
  - change (runPool limit (pick :: schedule) p)
      with (runPool limit schedule (poolStep limit pick p)).
    unfold poolStep. destruct (activeCount (slots p)) as [|n] eqn:Hactive.
    + by apply (IH p owns).
    + destruct (advanceNth_locate (slots p) (pick mod S n) (world p))
        as (i & body & Hi & Hadv).
      { rewrite Hactive. apply Nat.mod_upper_bound. lia. }
      rewrite Hadv.
      destruct (advanceSlot_safe owns (slots p) (world p) i body Hall Hstored Hi)
        as (owns' & d & Hall' & Hstored' & Htrace & Hgood).
      destruct (advanceSlot body (world p)) as [[s w'] rej]. simpl in *.
      destruct (IH {| slots := refill limit (<[i := s]> (slots p)); world := w';
                      rejection := match rejection p with
                                   | Some first => Some first
                                   | None => rej
                                   end |} owns') as (evs & Htrace' & Hgood').
      * simpl. by apply promote_slotSafe.
      * done.
      * exists (d ++ evs). simpl in Htrace'. rewrite Htrace', Htrace, app_assoc.
        split; [done|]. by apply Forall_app.
Qed.

End Ownership.

Section SignedTransfers.
Import Solana RunSpec PLimit Batch OwnSpec.
Context `{token : SplToken}.
Variables (wallets : list WalletRef) (plan : TransferPlan).
Variables (apiBase : string) (apiKey : option string).

Local Abbreviation Good := (signedTransfer wallets plan apiBase apiKey).

(** The task owns the transfer of [wallet0], bound to some hash. *)
Local Abbreviation transferOf :=
  (fun (wallet0 : WalletRef) (fromAta toAta : PublicKey) (tx : nat) (own : Owned) =>
     exists info,
       own = Some (tx, expectedTransaction (keypair wallet0) plan info fromAta toAta)).

Lemma safe_sendLoop (wallet0 : WalletRef) (fromAta toAta : PublicKey) (tx : nat)
    (maxRetries : nat) :
  In wallet0 wallets ->
  getAssociatedTokenAddress (mint plan) (publicKey (keypair wallet0)) = Normal fromAta ->
  getAssociatedTokenAddress (mint plan) (destination plan) = Normal toAta ->
  forall remaining attempt own,
    transferOf wallet0 fromAta toAta tx own ->
    safe Good (fun _ _ => True) (fun _ _ => True) own
      (sendLoop remaining attempt tx (name wallet0) (keypair wallet0) apiBase apiKey
         (nextBh apiBase apiKey) maxRetries).
Proof.
  intros Hin Hfrom Hto.
  induction remaining as [|remaining IH]; intros attempt own Hown; [done|].
  cbn [sendLoop].
  apply (safe_bind Good _ _ (fun _ o => transferOf wallet0 fromAta toAta tx o)).
  - apply (safe_tryCatch Good _ _ _ (fun _ o => transferOf wallet0 fromAta toAta tx o)).
    + (* the submission *)
      destruct Hown as [info ->]. unfold submitOnce. simpl.
      split; [by eexists|]. intros t own1 [[= <-] ->].
      split.
      { split; [done|]. by exists wallet0, info, fromAta, toAta. }
      intros res own2 ->. destruct res; simpl; by exists info.
    + (* the failure *)
      intros msg own1 [info ->]. unfold onFailure.
      apply (safe_bind Good _ _ (fun _ o => transferOf wallet0 fromAta toAta tx o)).
      * destruct (needsHash msg); [|by exists info].
        apply (safe_bind Good _ _
                 (fun _ o => o = Some (tx, expectedTransaction (keypair wallet0) plan
                                             info fromAta toAta))).
        -- by apply safe_nextBh.
        -- intros fresh o ->. apply safe_applyBlockhash. by exists fresh.
      * intros [] o Ho. destruct (Nat.eqb attempt maxRetries); simpl; [done|].
        split; [done|]. by intros [] o' ->.
  - intros [r|] o Ho; [done | by apply IH].
Qed.

Lemma safe_signerRun (wallet0 : WalletRef) (onResult : bool) :
  In wallet0 wallets ->
  safe Good (fun _ _ => True) (fun _ _ => True) None
    (signerRun wallet0 plan apiBase apiKey onResult).
Proof.
  intros Hin. unfold signerRun. cbn [bind perform]. split; [done|].
  intros current own ->. simpl in current. destruct current as [info|]; [|done].
  unfold buildTransferTx.
  destruct (getAssociatedTokenAddress (mint plan) (publicKey (keypair wallet0)))
    as [fromAta|?] eqn:Hfrom; [|done].
  destruct (getAssociatedTokenAddress (mint plan) (destination plan))
    as [toAta|?] eqn:Hto; [|done].
  cbn [lift bind perform]. split; [done|].
  intros tx own1 ->.
  assert (Hloop : forall o,
    transferOf wallet0 fromAta toAta tx o ->
    safe Good (fun _ _ => True) (fun _ _ => True) o
      (do res <- sendWithRetry tx (name wallet0) (keypair wallet0) apiBase apiKey
                   (nextBh apiBase apiKey) defaultMaxRetries;
       (if onResult then perform (Emit res) else Ret tt) ;; Ret res)).
  { intros o Ho.
    apply (safe_bind Good _ _ (fun _ _ => True)).
    - by apply (safe_sendLoop wallet0 fromAta toAta).
    - intros r o' _. destruct onResult; simpl; [|done]. split; [done|]. done. }
  unfold wantsPriorityFee, applyBlockhash.
  destruct (priorityFeeMicrolamports plan) as [fee|] eqn:Hfee;
    [destruct (0 <? fee)%Z eqn:Hpos|]; cbn [bind perform];
    repeat (split; [by eexists|]; intros [] ? (? & [= <-] & ->));
    apply Hloop; exists info;
    unfold expectedTransaction, expectedInstructions; rewrite Hfee, ?Hpos; reflexivity.
Qed.

(** Whatever the relay answers, whatever the pool size and the order
    in which the event loop resumes the runs, everything a batch submits
    is the transfer of the plan by one of its wallets, built in full and
    signed by that wallet over its last binding, sent to [/sendRaw] of
    the relay: no run ever submits an object that is half built or half
    rebound, or the object of another run. *)
Theorem executeBatch_submits_only_signed_transfers (concurrency : Z)
    (onResult : bool) (schedule : list nat) (w : World) :
  submissionsAre (signedTransfer wallets plan apiBase apiKey)
    (drop (length (trace w))
       (trace (executeBatch wallets plan concurrency apiBase apiKey onResult
                 schedule w).2)).
Proof.
  unfold executeBatch, nextBh, fetchBlockhash. simpl.
  destruct (blockhashReply (relay w) (calls w) _) as [msg|status field|info]; simpl;
    try (rewrite drop_app_length; by repeat constructor).
  destruct (pLimit_max concurrency) as [-> _].
  set (limit := Z.to_nat (Z.max 1 concurrency)).
  set (w1 := withCachedBh info _).
  set (tasks := map (fun wallet0 => signerRun wallet0 plan apiBase apiKey onResult) wallets).
  destruct (runPool_safe Good limit schedule (start limit tasks w1)
              (replicate (length wallets) None)) as (evs & Htrace & Hgood).
  - simpl. apply promote_slotSafe. unfold tasks.
    assert (Hsub : forall ws, (forall wallet0, In wallet0 ws -> In wallet0 wallets) ->
      Forall2 (slotSafe Good) (replicate (length ws) None)
        (map Queued (map (fun wallet0 => signerRun wallet0 plan apiBase apiKey onResult)
                       ws))).
    { induction ws as [|wallet0 ws IH]; intros Hws; [constructor|].
      simpl. constructor.
      - apply safe_signerRun. apply Hws. by left.
      - apply IH. intros ? ?. apply Hws. by right. }
    by apply Hsub.
  - split.
    + intros i x t Hi. apply lookup_replicate in Hi as [? _]. done.
    + intros i j x t x' t' Hi. apply lookup_replicate in Hi as [? _]. done.
  - cbn [snd]. rewrite Htrace. simpl. rewrite <- app_assoc, drop_app_length.
    constructor; [done | exact Hgood].
Qed.

End SignedTransfers.

(** ** The dashboard with bundles *)

Section GeneratedBundles.
Import JsString Ui Bundles.

Lemma uint_chars (P : ascii -> Prop) (d : Decimal.uint) :
  (forall c, In c (chars "0123456789") -> P c) ->
  Forall P (chars (NilEmpty.string_of_uint d)).
Proof.
  intros Hdigits. induction d; simpl; constructor; try done;
    apply Hdigits; simpl; tauto.
Qed.

(** The decimal rendering of a positive integer is made of digits. *)
Lemma ofZ_chars (P : ascii -> Prop) (z : Z) :
  (0 < z)%Z ->
  (forall c, In c (chars "0123456789") -> P c) ->
  Forall P (chars (ofZ z)).
Proof.
  destruct z as [|p|p]; try lia. intros _ Hdigits. unfold ofZ. simpl.
  pose proof (uint_chars P (Pos.to_uint p) Hdigits) as Hall.
  unfold NilZero.string_of_uint. destruct (Pos.to_uint p); try done.
  constructor; [|done]. apply Hdigits. simpl. tauto.
Qed.

Lemma dashed_plain (inRun : bool) (s : list ascii) :
  Forall (fun c => isSpace c = false) s -> dashed inRun s = s.
Proof.
  intros Hs. revert inRun. induction Hs as [|c s Hc _ IH]; intros inRun; simpl; [done|].
  by rewrite Hc, IH.
Qed.

Lemma map_toLower_plain (s : list ascii) :
  Forall (fun c => toLower c = c) s -> map toLower s = s.
Proof. induction 1 as [|c s Hc _ IH]; simpl; [done|]. by rewrite Hc, IH. Qed.

(** The slug of the label of the [K]-th bundle. *)
Lemma slug_label (K : Z) :
  (0 < K)%Z -> slug ("Bundle " +:+ ofZ K) = "bundle-" +:+ ofZ K.
Proof.
  intros HK. unfold slug. apply chars_inj.
  rewrite chars_of_list, !chars_app, map_app.
  rewrite (map_toLower_plain (chars (ofZ K))).
  - simpl. do 7 f_equal. apply dashed_plain.
    apply ofZ_chars; [done|]. intros c Hc. simpl in Hc.
    repeat (destruct Hc as [<- | Hc]; [done|]). done.
  - apply ofZ_chars; [done|]. intros c Hc. simpl in Hc.
    repeat (destruct Hc as [<- | Hc]; [done|]). done.
Qed.

Lemma generatedName_inj_both (K K' : Z) (i i' : nat) :
  generatedName K i = generatedName K' i' -> K = K' /\ i = i'.
Proof.
  intros Heq. pose proof (generatedName_inj _ _ _ _ Heq) as <-. split; [|done].
  unfold generatedName in Heq. apply (f_equal chars) in Heq.
  change ("bundle-" ++ ofZ K ++ "-" ++ ofZ (Z.of_nat i + 1))%string
    with ("bundle-" +:+ ofZ K +:+ ("-" +:+ ofZ (Z.of_nat i + 1))) in Heq.
  change ("bundle-" ++ ofZ K' ++ "-" ++ ofZ (Z.of_nat i + 1))%string
    with ("bundle-" +:+ ofZ K' +:+ ("-" +:+ ofZ (Z.of_nat i + 1))) in Heq.
  rewrite !chars_app in Heq.
  apply app_inv_head, app_inv_tail in Heq. by apply chars_inj, ofZ_inj in Heq.
Qed.

(** What is known of the bundles made by the button alone. *)
Local Abbreviation made :=
  (fun (bundles : list WalletBundle) (prev : list string) =>
     NoDup (map name (allWallets bundles)) /\
     (forall nm, In nm (map name (allWallets bundles)) ->
        exists j i, j < length bundles /\ nm = generatedName (Z.of_nat j + 1) i) /\
     Forall (fun b => 1 <= length (bundleWallets b) <= 30) bundles /\
     prev = map name (allWallets bundles)).

Lemma allWallets_snoc (bundles : list WalletBundle) (b : WalletBundle) :
  allWallets (bundles ++ [b]) = allWallets bundles ++ bundleWallets b.
Proof. unfold allWallets. rewrite flat_map_app. simpl. by rewrite app_nil_r. Qed.

Lemma handleGenerateWallets_made (bundles : list WalletBundle) (prev : list string)
    (generateCount now : Z) (generate : nat -> Keypair) :
  made bundles prev ->
  let res := Bundles.handleGenerateWallets bundles prev generateCount now generate in
  made res.1 res.2 /\ length res.1 = S (length bundles).
Proof.
  intros (Hnodup & Hform & Hsize & Hprev). cbv zeta.
  unfold Bundles.handleGenerateWallets, App.MAX_WALLETS. cbn [fst snd].
  set (count := Z.to_nat (Z.max 1 (Z.min 30 generateCount))).
  assert (Hcount : 1 <= count <= 30) by lia.
  set (K := (Z.of_nat (length bundles) + 1)%Z).
  rewrite slug_label by lia.
  set (generated := map _ (seq 0 count)).
  assert (Hnames : map name generated = map (generatedName K) (seq 0 count)).
  { unfold generated. by rewrite map_map. }
  rewrite allWallets_snoc, map_app. cbn [bundleWallets].
  split; [|rewrite length_app; simpl; lia].
  split; [|split; [|split]].
  - apply NoDup_app. split; [done|]. split.
    + intros nm Hold Hnew. apply list_elem_of_In in Hold, Hnew.
      destruct (Hform nm Hold) as (j & i & Hj & ->).
      rewrite Hnames in Hnew. apply in_map_iff in Hnew as (i' & Heq & _).
      apply generatedName_inj_both in Heq as [HK _]. unfold K in HK. lia.
    + rewrite Hnames. apply NoDup_fmap_2_strong; [|apply NoDup_seq].
      intros i j _ _ Heq. by apply generatedName_inj in Heq.
  - intros nm Hin. apply in_app_iff in Hin as [Hold | Hnew].
    + destruct (Hform nm Hold) as (j & i & Hj & ->). exists j, i.
      split; [rewrite length_app; simpl; lia | done].
    + rewrite Hnames in Hnew. apply in_map_iff in Hnew as (i & <- & _).
      exists (length bundles), i. split; [rewrite length_app; simpl; lia|].
      unfold K. done.
  - apply Forall_app. split; [done|]. constructor; [|done].
    unfold generated. simpl. rewrite length_map, length_seq. lia.
  - by rewrite Hprev.
Qed.

Lemma generateMany_made (requests : list Z) (now : nat -> Z)
    (generate : nat -> nat -> Keypair) :
  forall (round : nat) (bundles : list WalletBundle) (prev : list string),
    made bundles prev ->
    let res := generateMany requests now generate round bundles prev in
    made res.1 res.2 /\ length res.1 = length bundles + length requests.
Proof.
  induction requests as [|generateCount rest IH]; intros round bundles prev Hmade;
    cbv zeta.
  - simpl. split; [done | lia].
  - cbn [generateMany].
    pose proof (handleGenerateWallets_made bundles prev generateCount (now round)
                  (generate round) Hmade) as Hstep.
    cbv zeta in Hstep.
    destruct (Bundles.handleGenerateWallets bundles prev generateCount (now round)
                (generate round)) as [bundles' prev'].
    destruct Hstep as [Hmade' Hlen]. cbn [fst snd] in Hmade', Hlen.
    destruct (IH (S round) bundles' prev' Hmade') as [Hfinal Hlen'].
    split; [done|]. rewrite Hlen'. simpl. lia.
Qed.

(** The dashboard with bundles, started with nothing stored: however
    often wallets are generated and whatever counts are asked for, every
    press adds one bundle of 1 to 30 wallets, no two wallets of any
    bundles share a name, and all of them are selected.  The number of
    wallets is not bounded: each bundle may hold 30. *)
Theorem generated_bundles_never_share_a_name (requests : list Z) (now : nat -> Z)
    (generate : nat -> nat -> Keypair) :
  let res := generateMany requests now generate 0 [] [] in
  length res.1 = length requests /\
  Forall (fun b => 1 <= length (bundleWallets b) <= 30) res.1 /\
  NoDup (map name (allWallets res.1)) /\
  res.2 = map name (allWallets res.1) /\
  selectedWallets res.2 (allWallets res.1) = allWallets res.1.
Proof.
  cbv zeta.
  destruct (generateMany_made requests now generate 0 [] [])
    as [(Hnodup & _ & Hsize & Hsel) Hlen].
  { split; [constructor|]. split; [by intros nm []|]. split; [constructor | done]. }
  split; [done|]. split; [done|]. split; [done|]. split; [done|].
  rewrite Hsel. unfold selectedWallets.
  destruct (map name _) as [|nm rest] eqn:Hnames; [done|]. rewrite <- Hnames.
  apply filter_all. intros wallet0 Hin. apply includesName_In. by apply in_map.
Qed.

End GeneratedBundles.

Section BalancesLimit.
Import Solana Ui Server.
Context `{web3 : Web3}.

(** With more than 30 wallets the dashboard shows no balance at all:
    the relay refuses a request for more than 30 keys, and the dashboard
    answers a refusal by showing none.  (The dashboard with one bundle
    never has more than 30 wallets; the one with bundles has, from the
    second bundle on.) *)
Theorem balances_vanish_beyond_thirty_wallets (API_KEY : option string)
    (ledger : nat -> Rpc) (current : list WalletRef) (apiBase apiKeyEnv : string)
    (w : World) :
  relay w = relayOf API_KEY ledger ->
  30 < length current ->
  (run (refreshBalances current apiBase apiKeyEnv) w).1 = Normal ∅.
Proof.
  intros Hrelay Hmany. unfold refreshBalances.
  destruct current as [|wallet0 rest]; [simpl in Hmany; lia|].
  destruct (String.eqb apiBase ""); [done|].
  rewrite run_tryCatch. unfold fetchBalances. cbn [map].
  cbn [bind perform run handle fst snd]. rewrite Hrelay.
  cbn [balancesReply relayOf]. unfold guarded.
  destruct (requireApiKey _ _); [|done].
  unfold postBalances.
  replace (30 <? length (publicKey (keypair wallet0) :: map _ rest))%nat with true.
  - done.
  - symmetry. apply Nat.ltb_lt. simpl in *. rewrite length_map. lia.
Qed.

End BalancesLimit.

(** ** Concrete cases for the dashboard, the parsers and the relay *)

Section DashboardCases.
Import Solana RunSpec PLimit Batch BatchSpec TraceSpec Scenario Ui WalletInput Server
  Examples.

(** Alice alone is ticked and gets unticked: alice and bob sign. *)
Lemma unticking_the_last_selects_all_witness :
  ["alice"] <> [] /\
  (forall n, In n ["alice"] -> n = "alice") /\
  toggleWallet "alice" ["alice"] = [] /\
  selectedWallets (toggleWallet "alice" ["alice"]) [alice; bob] = [alice; bob].
Proof.
  assert (H1 : ["alice"] <> []) by done.
  assert (H2 : forall n, In n ["alice"] -> n = "alice") by (by intros n [<- | []]).
  split; [exact H1|]. split; [exact H2|].
  exact (unticking_the_last_selects_all "alice" ["alice"] [alice; bob] H1 H2).
Defined.

(** The form of a transfer of 1.25 tokens at 6 decimals with a fee of
    7 and a concurrency of 0: the plan is the plan, in a pool of 1. *)
Lemma handleExecute_plan_is_sane_witness :
  prepare (web3 := addresses) goodForm [] [alice; bob] = Normal ([alice; bob], plan, 1%Z) /\
  (0 <= amountRaw plan)%Z /\
  wantsPriorityFee plan = priorityFeeMicrolamports plan.
Proof.
  assert (H : prepare (web3 := addresses) goodForm [] [alice; bob]
              = Normal ([alice; bob], plan, 1%Z)) by reflexivity.
  split; [exact H|].
  destruct (handleExecute_plan_is_sane (web3 := addresses) goodForm [] [alice; bob]
              [alice; bob] plan 1%Z H) as (_ & _ & _ & Hraw & Hfee & _).
  split; [exact Hraw | exact Hfee].
Defined.

(** An amount that is not a number: the message, and no call. *)
Lemma handleExecute_rejects_bad_input_witness :
  prepare (web3 := addresses) badForm [] [alice; bob] = Throws "Amount must be numeric" /\
  handleExecute (web3 := addresses) (token := tokenAccounts) badForm [] [alice; bob]
    (roundRobin 68) (fresh relayRefusing)
  = ({| results := []; isRunning := false;
        shownError := Some "Amount must be numeric" |}, fresh relayRefusing).
Proof.
  assert (H : prepare (web3 := addresses) badForm [] [alice; bob]
              = Throws "Amount must be numeric") by reflexivity.
  split; [exact H|].
  exact (proj1 (handleExecute_rejects_bad_input (web3 := addresses)
                  (token := tokenAccounts) badForm [] [alice; bob] (roundRobin 68)
                  (fresh relayRefusing) "Amount must be numeric" H)).
Defined.


(** Two wallets, one named and one not, among blank lines. *)
Lemma parseWalletBatch_accepts_witness :
  let raw := "  alice: 4h7k" +:+ String CR (String LF "") +:+ String LF ""
             +:+ " 9x2m " in
  let pair := {| publicKey := "P"; secretKey := "s" |} in
  let ws := [ {| name := "alice"; keypair := pair |};
              {| name := "wallet-2"; keypair := pair |} ] in
  parseWalletBatch (formats := textKeys) raw = Normal ws /\
  length ws = length (linesOf raw) /\
  length ws <= 30.
Proof.
  cbv zeta.
  assert (H : parseWalletBatch (formats := textKeys)
                ("  alice: 4h7k" +:+ String CR (String LF "") +:+ String LF ""
                 +:+ " 9x2m ")
              = Normal [ {| name := "alice";
                            keypair := {| publicKey := "P"; secretKey := "s" |} |};
                         {| name := "wallet-2";
                            keypair := {| publicKey := "P"; secretKey := "s" |} |} ])
    by reflexivity.
  split; [exact H|].
  destruct (parseWalletBatch_accepts (formats := textKeys) _ _ H) as (Hlen & Hmax & _).
  split; [exact Hlen | exact Hmax].
Defined.

(** No key presented to a relay that has one. *)
Lemma client_without_the_key_gets_401_witness :
  relay (fresh keyedRelay) = relayOf (web3 := addresses) (Some "secret") (fun _ => node) /\
  requireApiKey (Some "secret") (presentedKey (apiKeyHeader None)) = false /\
  (executeBatch (token := tokenAccounts) [alice; bob] plan 8 api None true
     (roundRobin 68) (fresh keyedRelay)).1
  = Some (Throws "Blockhash fetch failed: 401") /\
  (run (fetchBalances ["A"; "B"] api None) (fresh keyedRelay)).1
  = Throws "Balance fetch failed: 401".
Proof.
  assert (H : relay (fresh keyedRelay)
              = relayOf (web3 := addresses) (Some "secret") (fun _ => node))
    by reflexivity.
  assert (Hout : requireApiKey (Some "secret") (presentedKey (apiKeyHeader None)) = false)
    by reflexivity.
  split; [exact H|]. split; [exact Hout|].
  destruct (client_without_the_key_gets_401 (web3 := addresses) (token := tokenAccounts)
              (Some "secret") None (fun _ => node) api (fresh keyedRelay) H)
    as [_ Hlocked].
  destruct (Hlocked Hout) as [Hbatch Hbalances].
  split; [apply Hbatch | by apply Hbalances].
Defined.

(** Two keys, one account known to the node: 5000 lamports and 0. *)
Lemma balances_through_the_relay_witness :
  relay (fresh keyedRelay) = relayOf (web3 := addresses) (Some "secret") (fun _ => node) /\
  requireApiKey (Some "secret") (presentedKey (apiKeyHeader (Some "secret"))) = true /\
  exists shown,
    (run (fetchBalances ["A"; "B"] api (Some "secret")) (fresh keyedRelay)).1
    = Normal shown /\
    shown !! "A" = Some 5000%Z /\
    shown !! "B" = Some 0%Z.
Proof.
  assert (H : relay (fresh keyedRelay)
              = relayOf (web3 := addresses) (Some "secret") (fun _ => node))
    by reflexivity.
  assert (Hin : requireApiKey (Some "secret")
                  (presentedKey (apiKeyHeader (Some "secret"))) = true) by reflexivity.
  split; [exact H|]. split; [exact Hin|].
  destruct (balances_through_the_relay (web3 := addresses) (Some "secret")
              (Some "secret") (fun _ => node) api (fresh keyedRelay) ["A"; "B"] H Hin)
    as [_ Hfew].
  destruct (Hfew ["A"; "B"] [Some 5000%Z]) as (shown & Hrun & _ & Hat);
    [done | simpl; lia | reflexivity | reflexivity |].
  assert (Hnodup : NoDup ["A"; "B"]).
  { apply NoDup_ListNoDup. repeat constructor; simpl; intuition discriminate. }
  exists shown. split; [exact Hrun|].
  split; [exact (Hat Hnodup 0 "A" eq_refl) | exact (Hat Hnodup 1 "B" eq_refl)].
Defined.

(** Alice's transfer, taken by a node that reports it as failed: the
    outcome has the signature. *)
Lemma signature_means_submitted_witness :
  let t := expectedTransaction (keypair alice) plan hash0 "ata(M,A)" "ata(M,D)" in
  let w := built keyedRelay in
  relay w = relayOf (web3 := addresses) (Some "secret") (fun _ => node) /\
  txs w !! 0 = Some t /\
  confirmTransaction (node) "5igS" "H0" 100 = Normal (Some "InstructionError") /\
  (run (sendWithRetry 0 "alice" (keypair alice) api (Some "secret")
          (nextBh api (Some "secret")) defaultMaxRetries) w).1
  = Normal (confirmed "alice" "5igS").
Proof.
  cbv zeta.
  assert (H : relay (built keyedRelay)
              = relayOf (web3 := addresses) (Some "secret") (fun _ => node))
    by reflexivity.
  assert (Hin : requireApiKey (Some "secret")
                  (presentedKey (apiKeyHeader (Some "secret"))) = true) by reflexivity.
  assert (Htx : txs (built keyedRelay) !! 0
                = Some (expectedTransaction (keypair alice) plan hash0
                          "ata(M,A)" "ata(M,D)")) by reflexivity.
  assert (Hverdict : confirmTransaction node "5igS" "H0" 100
                     = Normal (Some "InstructionError")) by reflexivity.
  split; [exact H|]. split; [exact Htx|]. split; [exact Hverdict|].
  destruct (signature_means_submitted (web3 := addresses) (Some "secret")
              (Some "secret") (fun _ => node) api (built keyedRelay) 0 "alice"
              (keypair alice) (nextBh api (Some "secret")) 2 _ "H0" 100 "5igS"
              (Some "InstructionError") H Hin Htx eq_refl)
    as [Hrun _]; [done | reflexivity | done | reflexivity | exact Hverdict |].
  change defaultMaxRetries with 3. by rewrite Hrun.
Defined.

(** Two bundles of 20 wallets: 40 keys, and no balance. *)
Lemma balances_vanish_beyond_thirty_wallets_witness :
  let bundles :=
    (Bundles.generateMany [20; 20]%Z (fun _ => 0%Z) (fun _ _ => keypair alice)
       0 [] []).1 in
  relay (fresh keyedRelay) = relayOf (web3 := addresses) (Some "secret") (fun _ => node) /\
  30 < length (Bundles.allWallets bundles) /\
  (run (refreshBalances (Bundles.allWallets bundles) api "secret") (fresh keyedRelay)).1
  = Normal ∅.
Proof.
  cbv zeta.
  assert (H : relay (fresh keyedRelay)
              = relayOf (web3 := addresses) (Some "secret") (fun _ => node))
    by reflexivity.
  assert (Hmany : 30 < length (Bundles.allWallets
                    (Bundles.generateMany [20; 20]%Z (fun _ => 0%Z)
                       (fun _ _ => keypair alice) 0 [] []).1)).
  { vm_compute. lia. }
  split; [exact H|]. split; [exact Hmany|].
  exact (balances_vanish_beyond_thirty_wallets (web3 := addresses) (Some "secret")
           (fun _ => node) _ api "secret" (fresh keyedRelay) H Hmany).
Defined.

(** Three refusals: the error is the third message. *)
Lemma failed_outcome_reports_the_last_failure_witness :
  let w := built relayRefusing in
  let res := run (sendWithRetry 0 "alice" (keypair alice) api None (nextBh api None)
                    defaultMaxRetries) w in
  res = (Normal (failed "alice" "sendRaw failed: 502"), res.2) /\
  error (failed "alice" "sendRaw failed: 502") = Some "sendRaw failed: 502" /\
  exists evs,
    trace res.2 = trace w ++ evs /\
    length (failuresIn evs) = defaultMaxRetries /\
    last (failuresIn evs) = Some "sendRaw failed: 502".
Proof.
  cbv zeta.
  assert (Hrun : run (sendWithRetry 0 "alice" (keypair alice) api None (nextBh api None)
                        defaultMaxRetries) (built relayRefusing)
                 = (Normal (failed "alice" "sendRaw failed: 502"),
                    (run (sendWithRetry 0 "alice" (keypair alice) api None
                            (nextBh api None) defaultMaxRetries)
                       (built relayRefusing)).2)) by reflexivity.
  assert (Hmsg : error (failed "alice" "sendRaw failed: 502")
                 = Some "sendRaw failed: 502") by reflexivity.
  split; [exact Hrun|]. split; [exact Hmsg|].
  destruct (failed_outcome_reports_the_last_failure 0 "alice" (keypair alice) api None
              defaultMaxRetries (built relayRefusing) _ _ _ Hrun Hmsg)
    as [[Hzero _] | [_ Hevs]]; [discriminate Hzero | exact Hevs].
Defined.

End DashboardCases.
